(** * jettison: binary codecs, stream views, definitions and schemas

    A shallow embedding of [src/jettison.js] (the current file) and of the
    earlier revision of the same file that the repository also carries
    (module [Legacy]), followed by the properties of the specification.

    JavaScript numbers are modelled by [Z] wherever the code handles integers;
    the 32-bit coercions of the bitwise operators are written out. Byte
    buffers are lists of [Z] in [0, 256). Exceptions are explicit results. *)

From Stdlib Require Import ZArith List Lia Bool String.
From stdpp Require Import base option list gmap strings.
Import ListNotations.

#[local] Open Scope Z_scope.
#[local] Set Warnings "-register-all".

(* ================================================================== *)
(** ** Completions: a normal result or a thrown exception *)

(** [RangeError] is what the specification calls OutOfRangeAccess. *)
Inductive exn : Type :=
| RangeError
| TypeError
| Error (message : string).

(** [Unmodelled] marks inputs that leave the fragment of JavaScript this
    development covers (floating point payloads, string-to-number
    coercions); no theorem below relies on it. *)
Inductive completion (A : Type) : Type :=
| Normal (a : A)
| Throw (e : exn)
| Unmodelled.

Arguments Normal {A} a.
Arguments Throw {A} e.
Arguments Unmodelled {A}.

Definition cbind {A B} (c : completion A) (k : A -> completion B) : completion B :=
  match c with
  | Normal a => k a
  | Throw e => Throw e
  | Unmodelled => Unmodelled
  end.

(* ================================================================== *)
(** ** 32-bit integer coercions of the bitwise operators *)

Definition ToInt32 (n : Z) : Z := (n + 2 ^ 31) mod 2 ^ 32 - 2 ^ 31.

(** [a & b] *)
Definition js_and (a b : Z) : Z := Z.land (ToInt32 a) (ToInt32 b).
(** [a | b] *)
Definition js_or (a b : Z) : Z := Z.lor (ToInt32 a) (ToInt32 b).
(** [a << n]: the shift count is taken modulo 32 *)
Definition js_shl (a n : Z) : Z := ToInt32 (Z.shiftl (ToInt32 a) (n mod 32)).
(** [a >> n]: sign-propagating *)
Definition js_sar (a n : Z) : Z := Z.shiftr (ToInt32 a) (n mod 32).

(* ================================================================== *)
(** ** DataView over an ArrayBuffer *)

Module DataView.

(** Modelled from the spec: [polyfill.js] (DataViewPolyfill) and the host's
    DataView are not among the sources. Section 4.1 of the specification:
    typed reads and writes at an offset, with a per-call endianness flag,
    and a fatal error if offset + width > capacity on any access. The byte
    images are the two's complement ones of ECMAScript's DataView. A view is
    the list of the bytes of its buffer. *)
Definition t : Type := list Z.

Definition byteLength (dv : t) : Z := Z.of_nat (length dv).

Definition in_bounds (dv : t) (byteOffset width : Z) : bool :=
  (0 <=? byteOffset) && (byteOffset + width <=? byteLength dv).

Fixpoint le_bytes (width : nat) (n : Z) : list Z :=
  match width with
  | O => []
  | S w => n mod 256 :: le_bytes w (n / 256)
  end.

Fixpoint le_value (bs : list Z) : Z :=
  match bs with
  | [] => 0
  | b :: r => b + 256 * le_value r
  end.

(** Big-endian unless [littleEndian] is set. *)
Definition order (littleEndian : bool) (bs : list Z) : list Z :=
  if littleEndian then bs else rev bs.

(** Modelled from the spec: [getUint8], [getUint16], [getUint32]. *)
Definition getUint (width : Z) (dv : t) (byteOffset : Z) (littleEndian : bool)
  : completion Z :=
  if in_bounds dv byteOffset width then
    Normal (le_value (order littleEndian
              (take (Z.to_nat width) (drop (Z.to_nat byteOffset) dv))))
  else Throw RangeError.

(** Modelled from the spec: [getInt8], [getInt16], [getInt32]. *)
Definition getInt (width : Z) (dv : t) (byteOffset : Z) (littleEndian : bool)
  : completion Z :=
  cbind (getUint width dv byteOffset littleEndian) (fun u =>
    Normal (if 2 ^ (8 * width - 1) <=? u then u - 2 ^ (8 * width) else u)).

(** Modelled from the spec: [setUintN] and [setIntN], which both store the
    value modulo 2^(8N). *)
Definition setInt (width : Z) (dv : t) (byteOffset : Z) (value : Z)
           (littleEndian : bool) : completion t :=
  if in_bounds dv byteOffset width then
    Normal (take (Z.to_nat byteOffset) dv
              ++ order littleEndian (le_bytes (Z.to_nat width) value)
              ++ drop (Z.to_nat (byteOffset + width)) dv)
  else Throw RangeError.

(** [new ArrayBuffer(byteLength)]: zero-initialised. *)
Definition create (byteLength : Z) : t := repeat 0 (Z.to_nat byteLength).

End DataView.

(* ================================================================== *)
(** ** StreamView: a DataView and a cursor *)

Record StreamView : Type := mkStreamView {
  dataView : DataView.t;
  byteOffset : Z;
}.

Module StreamViewOps.

Definition create (byteLength : Z) : StreamView :=
  mkStreamView (DataView.create byteLength) 0.

(** [toArray] (and [toString], whose character codes are the same bytes). *)
Definition toArray (sv : StreamView) : list Z := dataView sv.

End StreamViewOps.

(** Code that reads and writes through a stream view. *)
Definition M (A : Type) : Type := StreamView -> completion (A * StreamView).

Definition ret {A} (a : A) : M A := fun sv => Normal (a, sv).

Definition bind {A B} (m : M A) (k : A -> M B) : M B :=
  fun sv => cbind (m sv) (fun '(a, sv') => k a sv').

Definition throw {A} (e : exn) : M A := fun _ => Throw e.

Declare Scope stream_scope.
Delimit Scope stream_scope with stream.
Notation "x <- m ;; k" := (bind m (fun x => k))
  (at level 100, m at next level, right associativity) : stream_scope.
Notation "m ;;; k" := (bind m (fun _ => k))
  (at level 100, right associativity) : stream_scope.
#[local] Open Scope stream_scope.

(* ================================================================== *)
(** ** Fixed length codecs *)

(** The DataView accessor pair named by [getter]/[setter]. *)
Inductive accessor : Type :=
| AccUint (width : Z)
| AccInt (width : Z)
| AccFloat (width : Z).

Record FixedLengthCodec : Type := mkFixed {
  byteLength : Z;
  acc : accessor;
}.

Module Fixed.

(** [DataViewPolyfill.prototype[name] == null] fails for the names the
    integer and float constructors can build only when the width is not
    one DataView has. *)
Definition is_DataView_method (a : accessor) : bool :=
  match a with
  | AccUint w | AccInt w => (w =? 1) || (w =? 2) || (w =? 4)
  | AccFloat w => (w =? 4) || (w =? 8)
  end.

Definition new (byteLength : Z) (a : accessor) : completion FixedLengthCodec :=
  if byteLength <=? 0 then Throw (Error "byteLength must be a positive integer")
  else if negb (is_DataView_method a) then Throw (Error "must be a DataView method")
  else Normal (mkFixed byteLength a).

Definition getByteLength (c : FixedLengthCodec) : Z := byteLength c.

Definition get (c : FixedLengthCodec) (littleEndian : bool) : M Z :=
  fun sv =>
    cbind (match acc c with
           | AccUint w => DataView.getUint w (dataView sv) (byteOffset sv) littleEndian
           | AccInt w => DataView.getInt w (dataView sv) (byteOffset sv) littleEndian
           | AccFloat w =>
               if DataView.in_bounds (dataView sv) (byteOffset sv) w
               then Unmodelled else Throw RangeError
           end)
      (fun value => Normal (value, mkStreamView (dataView sv) (byteOffset sv + byteLength c))).

Definition set (c : FixedLengthCodec) (value : Z) (littleEndian : bool) : M unit :=
  fun sv =>
    cbind (match acc c with
           | AccUint w | AccInt w =>
               DataView.setInt w (dataView sv) (byteOffset sv) value littleEndian
           | AccFloat w =>
               if DataView.in_bounds (dataView sv) (byteOffset sv) w
               then Unmodelled else Throw RangeError
           end)
      (fun dv => Normal (tt, mkStreamView dv (byteOffset sv + byteLength c))).

End Fixed.

(* ================================================================== *)
(** ** Integer codecs *)

Record IntegerCodec : Type := mkInteger {
  fixed : FixedLengthCodec;
  minValue : Z;
  maxValue : Z;
}.

Module Integer.

Definition new (byteLength : Z) (signed : bool) : completion IntegerCodec :=
  let bitLength := byteLength * 8 in
  let minValue := if signed then - 2 ^ (bitLength - 1) else 0 in
  let maxValue := if signed then 2 ^ (bitLength - 1) - 1 else 2 ^ bitLength - 1 in
  let a := if signed then AccInt byteLength else AccUint byteLength in
  cbind (Fixed.new byteLength a) (fun f => Normal (mkInteger f minValue maxValue)).

(** The clamp of [set]. *)
Definition clamp (c : IntegerCodec) (value : Z) : Z :=
  if value <? minValue c then minValue c
  else if maxValue c <? value then maxValue c
  else value.

Definition getByteLength (c : IntegerCodec) : Z := Fixed.getByteLength (fixed c).

Definition get (c : IntegerCodec) (littleEndian : bool) : M Z :=
  Fixed.get (fixed c) littleEndian.

Definition set (c : IntegerCodec) (value : Z) (littleEndian : bool) : M unit :=
  Fixed.set (fixed c) (clamp c value) littleEndian.

End Integer.

(** The shared instances of [_codecs]. *)
Definition int8 : IntegerCodec := mkInteger (mkFixed 1 (AccInt 1)) (-128) 127.
Definition int16 : IntegerCodec := mkInteger (mkFixed 2 (AccInt 2)) (-32768) 32767.
Definition int32 : IntegerCodec := mkInteger (mkFixed 4 (AccInt 4)) (-2147483648) 2147483647.
Definition uint8 : IntegerCodec := mkInteger (mkFixed 1 (AccUint 1)) 0 255.
Definition uint16 : IntegerCodec := mkInteger (mkFixed 2 (AccUint 2)) 0 65535.
Definition uint32 : IntegerCodec := mkInteger (mkFixed 4 (AccUint 4)) 0 4294967295.


(* ================================================================== *)
(** ** The variable length unsigned integer codec *)

(** The values [getByteLength] computes with: [Math.log2] of zero is
    [-Infinity], of a negative number [NaN]. *)
Inductive number : Type :=
| NaN
| NegInfinity
| Finite (n : Z).

Module VariableLength.

(** Modelled from the spec: [polyfill.log2] is defined in [polyfill.js],
    which is not among the sources. Section 4.3: the bits needed are the
    position of the highest set bit plus one, so [Math.floor] of the
    logarithm is that position; the formula is undefined at zero, where the
    logarithm is [-Infinity]. *)
Definition floor_log2 (value : Z) : number :=
  if value <? 0 then NaN
  else if value =? 0 then NegInfinity
  else Finite (Z.log2 value).

(** [x + 1], [Math.ceil(x / 7)], [Math.max(x, 1)] and [x * k] on [number]. *)
Definition succ (x : number) : number :=
  match x with Finite n => Finite (n + 1) | _ => x end.
Definition ceil_div7 (x : number) : number :=
  match x with Finite n => Finite (- ((- n) / 7)) | _ => x end.
Definition max1 (x : number) : number :=
  match x with NaN => NaN | NegInfinity => Finite 1 | Finite n => Finite (Z.max n 1) end.
Definition times (x : number) (k : Z) : number :=
  match x with Finite n => Finite (n * k) | _ => x end.

Definition getByteLength (value : Z) : number :=
  let bits := succ (floor_log2 value) in
  let bytes := max1 (ceil_div7 bits) in
  times bytes (Integer.getByteLength uint8).

(** The [for] loop of [get]; every iteration reads one byte, so the bytes
    of the view bound the number of iterations. *)
Fixpoint get_loop (fuel : nat) (i length byte : Z) (littleEndian : bool) : M Z :=
  if js_and byte 128 =? 0 then ret length
  else
    match fuel with
    | O => fun _ => Unmodelled
    | S fuel' =>
        byte' <- Integer.get uint8 littleEndian ;;
        get_loop fuel' (i + 1)
          (js_or length (js_shl (js_and byte' 127) (i * 7))) byte' littleEndian
    end.

Definition get (littleEndian : bool) : M Z :=
  fun sv => get_loop (S (List.length (dataView sv))) 0 0 128 littleEndian sv.

(** The [while] loop of [set]. After the first [>>=] the remainder is a
    32-bit integer, so five iterations exhaust it ([set_loop_fuel]). *)
Fixpoint set_loop (fuel : nat) (remainder : Z) (littleEndian : bool) : M unit :=
  if 0 <? remainder then
    match fuel with
    | O => fun _ => Unmodelled
    | S fuel' =>
        let byte := js_and remainder 127 in
        let remainder' := js_sar remainder 7 in
        let byte' := if remainder' =? 0 then byte else js_or byte 128 in
        Integer.set uint8 byte' littleEndian ;;;
        set_loop fuel' remainder' littleEndian
    end
  else ret tt.

Definition set (value : Z) (littleEndian : bool) : M unit :=
  if value =? 0 then Integer.set uint8 0 littleEndian
  else set_loop 5 value littleEndian.

End VariableLength.

(* ================================================================== *)
(** ** What a computation writes and reads *)

(** [writes m bs]: on a view with room for them, [m] stores the bytes [bs]
    at the cursor and advances the cursor past them. *)
Definition writes (m : M unit) (bs : list Z) : Prop :=
  forall sv : StreamView,
    0 <= byteOffset sv ->
    byteOffset sv + Z.of_nat (length bs) <= DataView.byteLength (dataView sv) ->
    m sv = Normal (tt, mkStreamView
                         (take (Z.to_nat (byteOffset sv)) (dataView sv) ++ bs
                            ++ drop (Z.to_nat (byteOffset sv + Z.of_nat (length bs)))
                                 (dataView sv))
                         (byteOffset sv + Z.of_nat (length bs))).

(** [reads m bs a]: on a view that holds [bs] at the cursor, [m] returns [a]
    and advances the cursor past them. *)
Definition reads {A} (m : M A) (bs : list Z) (a : A) : Prop :=
  forall (dv : DataView.t) (o : Z),
    0 <= o ->
    o + Z.of_nat (length bs) <= DataView.byteLength dv ->
    take (length bs) (drop (Z.to_nat o) dv) = bs ->
    m (mkStreamView dv o) = Normal (a, mkStreamView dv (o + Z.of_nat (length bs))).

(** The bytes the [while] loop of [VariableLength.set] hands to the uint8
    codec, in order. *)
Fixpoint set_loop_bytes (fuel : nat) (remainder : Z) : list Z :=
  if 0 <? remainder then
    match fuel with
    | O => []
    | S fuel' =>
        let byte := js_and remainder 127 in
        let remainder' := js_sar remainder 7 in
        (if remainder' =? 0 then byte else js_or byte 128)
          :: set_loop_bytes fuel' remainder'
    end
  else [].

Definition varint_bytes (value : Z) : list Z :=
  if value =? 0 then [0] else set_loop_bytes 5 value.

(** The bits needed for a value, in the words of the specification: the
    position of the highest set bit plus one (none for zero). *)
Definition bitsNeeded (value : Z) : Z :=
  if value =? 0 then 0 else Z.log2 value + 1.

Definition ceil_div (a b : Z) : Z := (a + b - 1) / b.


(* ================================================================== *)
(** ** Values *)

(** The JavaScript values the codecs are given and return. Numbers are the
    integers; strings are sequences of Unicode scalar values; an object is
    the list of its own properties, in the order of their first assignment.
    That is not the order in which JavaScript enumerates them when a key is
    an array index, and the code never enumerates an object: it reads and
    assigns properties by key. *)
Inductive value : Type :=
| VUndefined
| VNumber (n : Z)
| VBoolean (b : bool)
| VString (s : list Z)
| VArray (vs : list value)
| VObject (props : list (string * value)).

(** [value ? ... : ...], [!value], [if (value)] *)
Definition truthy (v : value) : bool :=
  match v with
  | VUndefined => false
  | VNumber n => negb (n =? 0)
  | VBoolean b => b
  | VString s => match s with [] => false | _ => true end
  | VArray _ | VObject _ => true
  end.

(** [object[key]] *)
Fixpoint lookup_prop (key : string) (props : list (string * value)) : value :=
  match props with
  | [] => VUndefined
  | (k, v) :: rest => if String.eqb k key then v else lookup_prop key rest
  end.

(** [object[key] = v] *)
Fixpoint assign_prop (key : string) (v : value) (props : list (string * value))
  : list (string * value) :=
  match props with
  | [] => [(key, v)]
  | (k, v') :: rest =>
      if String.eqb k key then (k, v) :: rest else (k, v') :: assign_prop key v rest
  end.

Definition get_prop (object : value) (key : string) : completion value :=
  match object with
  | VObject props => Normal (lookup_prop key props)
  | VUndefined => Throw TypeError
  | _ => Unmodelled
  end.

(** [(values && values.length) || 0] together with the elements the loops
    index. *)
Definition array_like (values : value) : completion (list value) :=
  match values with
  | VArray vs => Normal vs
  | VUndefined | VNumber _ | VBoolean _ | VString [] => Normal []
  | _ => Unmodelled
  end.

(** The number a numeric codec operates on; [None] is [NaN]. *)
Definition ToNumber (v : value) : completion (option Z) :=
  match v with
  | VUndefined => Normal None
  | VNumber n => Normal (Some n)
  | VBoolean b => Normal (Some (if b then 1 else 0))
  | _ => Unmodelled
  end.

(* ================================================================== *)
(** ** UTF-8 *)

Module utf8.

(** The [utf8] package is an external collaborator of the repository; its
    [encode] is the standard UTF-8 encoding of each scalar value. A lone
    surrogate is not a scalar value and is outside the model. *)
Definition encodeCodePoint (codePoint : Z) : list Z :=
  if codePoint <? 128 then [codePoint]
  else if codePoint <? 2048 then
    [Z.lor (Z.land (Z.shiftr codePoint 6) 31) 192;
     Z.lor (Z.land codePoint 63) 128]
  else if codePoint <? 65536 then
    [Z.lor (Z.land (Z.shiftr codePoint 12) 15) 224;
     Z.lor (Z.land (Z.shiftr codePoint 6) 63) 128;
     Z.lor (Z.land codePoint 63) 128]
  else
    [Z.lor (Z.land (Z.shiftr codePoint 18) 7) 240;
     Z.lor (Z.land (Z.shiftr codePoint 12) 63) 128;
     Z.lor (Z.land (Z.shiftr codePoint 6) 63) 128;
     Z.lor (Z.land codePoint 63) 128].

Definition encode (s : list Z) : list Z := flat_map encodeCodePoint s.

Definition continuation (b : Z) : bool := Z.land b 192 =? 128.

(** [decode]: [None] when the bytes are not well-formed UTF-8 (the package
    throws). Every scalar value takes one to four of the bytes that remain. *)
Fixpoint decode (bs : list Z) : option (list Z) :=
  match bs with
  | [] => Some []
  | b1 :: r1 =>
      if Z.land b1 128 =? 0 then cons b1 <$> decode r1
      else if Z.land b1 224 =? 192 then
        match r1 with
        | b2 :: r2 =>
            let cp := Z.lor (Z.shiftl (Z.land b1 31) 6) (Z.land b2 63) in
            if continuation b2 && (128 <=? cp) then cons cp <$> decode r2 else None
        | _ => None
        end
      else if Z.land b1 240 =? 224 then
        match r1 with
        | b2 :: b3 :: r3 =>
            let cp := Z.lor (Z.shiftl (Z.land b1 15) 12)
                        (Z.lor (Z.shiftl (Z.land b2 63) 6) (Z.land b3 63)) in
            if continuation b2 && continuation b3 && (2048 <=? cp)
               && negb ((55296 <=? cp) && (cp <=? 57343))
            then cons cp <$> decode r3 else None
        | _ => None
        end
      else if Z.land b1 248 =? 240 then
        match r1 with
        | b2 :: b3 :: b4 :: r4 =>
            let cp := Z.lor (Z.shiftl (Z.land b1 7) 18)
                        (Z.lor (Z.shiftl (Z.land b2 63) 12)
                           (Z.lor (Z.shiftl (Z.land b3 63) 6) (Z.land b4 63))) in
            if continuation b2 && continuation b3 && continuation b4
               && (65536 <=? cp) && (cp <=? 1114111)
            then cons cp <$> decode r4 else None
        | _ => None
        end
      else None
  end.

End utf8.

(* ================================================================== *)
(** ** The boolean codec *)

Module Boolean.

Definition fixed : FixedLengthCodec := mkFixed 1 (AccUint 1).

Definition get (littleEndian : bool) : M bool :=
  value <- Fixed.get fixed littleEndian ;; ret (negb (value =? 0)).

Definition set (value : bool) (littleEndian : bool) : M unit :=
  Fixed.set fixed (if value then 1 else 0) littleEndian.

End Boolean.

(* ================================================================== *)
(** ** The boolean array codec *)

Module BooleanArray.

Definition getByteLength (values : list bool) : number :=
  let length := Z.of_nat (length values) in
  let valueBytes := - ((- length) / 8) in
  match VariableLength.getByteLength length with
  | Finite n => Finite (n + valueBytes * Integer.getByteLength uint8)
  | x => x
  end.

(** The inner [for] of [get]: at most eight bits of [byte], stopping when
    the element count is reached. Returns the booleans and the new [i]. *)
Fixpoint get_bits (fuel : nat) (byte bit i length : Z) : list bool * Z :=
  match fuel with
  | O => ([], i)
  | S fuel' =>
      if (bit <? 8) && (i <? length) then
        let '(values, i') := get_bits fuel' byte (bit + 1) (i + 1) length in
        (negb (js_and (js_sar byte bit) 1 =? 0) :: values, i')
      else ([], i)
  end.

Fixpoint get_bytes (byteLength : nat) (i length : Z) (littleEndian : bool)
  : M (list bool) :=
  match byteLength with
  | O => ret []
  | S byteLength' =>
      byte <- Integer.get uint8 littleEndian ;;
      let '(values, i') := get_bits 8 byte 0 i length in
      rest <- get_bytes byteLength' i' length littleEndian ;;
      ret (values ++ rest)
  end.

Definition get (littleEndian : bool) : M (list bool) :=
  length <- VariableLength.get littleEndian ;;
  let byteLength := - ((- length) / 8) in
  get_bytes (Z.to_nat byteLength) 0 length littleEndian.

(** The [for] of [set] and the flush that follows it. *)
Fixpoint set_loop (values : list bool) (byte bit : Z) (littleEndian : bool) : M unit :=
  match values with
  | [] => if 0 <? bit then Integer.set uint8 byte littleEndian else ret tt
  | v :: rest =>
      if bit =? 8 then
        Integer.set uint8 byte littleEndian ;;;
        set_loop rest (js_or 0 (js_shl (if v then 1 else 0) 0)) (0 + 1) littleEndian
      else
        set_loop rest (js_or byte (js_shl (if v then 1 else 0) bit)) (bit + 1)
          littleEndian
  end.

Definition set (values : list bool) (littleEndian : bool) : M unit :=
  let length := Z.of_nat (length values) in
  VariableLength.set length littleEndian ;;;
  set_loop values 0 0 littleEndian.

End BooleanArray.

(* ================================================================== *)
(** ** Codecs as values *)

(** The codec objects a field or an array can be bound to. Those built on
    FixedLengthCodec carry [fixedByteLength]. [ForeignCodec] is a value that
    [new ArrayCodec] keeps as its value codec although it is no codec: a
    function or an object without [fixedByteLength], [getByteLength], [get]
    and [set]; calling one of them throws a TypeError. *)
Inductive codec : Type :=
| BooleanCodec
| BooleanArrayCodec
| FloatCodec (byteLength : Z)
| IntCodec (c : IntegerCodec)
| StringCodec
| VariableLengthCodec
| ArrayCodec (valueCodec : codec)
| ForeignCodec.

Definition fixedByteLength (c : codec) : bool :=
  match c with
  | BooleanCodec | FloatCodec _ | IntCodec _ => true
  | _ => false
  end.

(** [StreamView.create] needs a length; a [NaN] one is outside the model. *)
Definition number_length (x : number) : completion Z :=
  match x with
  | Finite n => Normal n
  | _ => Unmodelled
  end.

(** The elements of an array, one after the other. *)
Fixpoint sum_lengths (f : value -> completion Z) (values : list value) : completion Z :=
  match values with
  | [] => Normal 0
  | v :: rest =>
      cbind (f v) (fun n => cbind (sum_lengths f rest) (fun m => Normal (n + m)))
  end.

Fixpoint set_each (f : value -> M unit) (values : list value) : M unit :=
  match values with
  | [] => ret tt
  | v :: rest => f v ;;; set_each f rest
  end.

Fixpoint get_each (g : M value) (n : nat) : M (list value) :=
  match n with
  | O => ret []
  | S n' => v <- g ;; rest <- get_each g n' ;; ret (v :: rest)
  end.

(** Character codes written, and read, one by one through the uint8 codec. *)
Fixpoint set_bytes (bs : list Z) (littleEndian : bool) : M unit :=
  match bs with
  | [] => ret tt
  | b :: rest => Integer.set uint8 b littleEndian ;;; set_bytes rest littleEndian
  end.

Fixpoint get_bytes (n : nat) (littleEndian : bool) : M (list Z) :=
  match n with
  | O => ret []
  | S n' =>
      b <- Integer.get uint8 littleEndian ;;
      rest <- get_bytes n' littleEndian ;;
      ret (b :: rest)
  end.

Definition lift {A} (c : completion A) : M A :=
  fun sv => cbind c (fun a => Normal (a, sv)).

Fixpoint getByteLength (c : codec) (v : value) : completion Z :=
  match c with
  | BooleanCodec => Normal (byteLength Boolean.fixed)
  | FloatCodec w => Normal w
  | IntCodec ic => Normal (Integer.getByteLength ic)
  | VariableLengthCodec =>
      cbind (ToNumber v) (fun n =>
        match n with
        | Some n => number_length (VariableLength.getByteLength n)
        | None => Unmodelled
        end)
  | StringCodec =>
      if truthy v then
        match v with
        | VString s =>
            let value := utf8.encode s in
            cbind (number_length (VariableLength.getByteLength (Z.of_nat (length value))))
              (fun n => Normal (n + Integer.getByteLength uint8 * Z.of_nat (length value)))
        | _ => Unmodelled
        end
      else number_length (VariableLength.getByteLength 0)
  | BooleanArrayCodec =>
      cbind (array_like v) (fun values =>
        number_length (BooleanArray.getByteLength (map truthy values)))
  | ArrayCodec valueCodec =>
      cbind (array_like v) (fun values =>
        let length := Z.of_nat (length values) in
        cbind (if fixedByteLength valueCodec
               then cbind (getByteLength valueCodec VUndefined)
                      (fun n => Normal (length * n))
               else sum_lengths (getByteLength valueCodec) values)
          (fun valueByteLength =>
             cbind (number_length (VariableLength.getByteLength length))
               (fun n => Normal (n + valueByteLength))))
  | ForeignCodec => Throw TypeError
  end.

Fixpoint set (c : codec) (v : value) (littleEndian : bool) : M unit :=
  match c with
  | BooleanCodec => Boolean.set (truthy v) littleEndian
  | FloatCodec w => Fixed.set (mkFixed w (AccFloat w)) 0 littleEndian
  | IntCodec ic =>
      n <- lift (ToNumber v) ;;
      match n with
      | Some n => Integer.set ic n littleEndian
      | None => Fixed.set (fixed ic) 0 littleEndian
      end
  | VariableLengthCodec =>
      n <- lift (ToNumber v) ;;
      match n with
      | Some n => VariableLength.set n littleEndian
      | None => Integer.set uint8 0 littleEndian
      end
  | StringCodec =>
      if truthy v then
        match v with
        | VString s =>
            let utf8String := utf8.encode s in
            VariableLength.set (Z.of_nat (length utf8String)) littleEndian ;;;
            set_bytes utf8String littleEndian
        | _ => fun _ => Unmodelled
        end
      else VariableLength.set 0 littleEndian
  | BooleanArrayCodec =>
      values <- lift (array_like v) ;;
      BooleanArray.set (map truthy values) littleEndian
  | ArrayCodec valueCodec =>
      values <- lift (array_like v) ;;
      let length := Z.of_nat (length values) in
      VariableLength.set length littleEndian ;;;
      if 0 <? length then set_each (fun x => set valueCodec x littleEndian) values
      else ret tt
  | ForeignCodec => throw TypeError
  end.

Fixpoint get (c : codec) (littleEndian : bool) : M value :=
  match c with
  | BooleanCodec => b <- Boolean.get littleEndian ;; ret (VBoolean b)
  | FloatCodec w => n <- Fixed.get (mkFixed w (AccFloat w)) littleEndian ;; ret (VNumber n)
  | IntCodec ic => n <- Integer.get ic littleEndian ;; ret (VNumber n)
  | VariableLengthCodec => n <- VariableLength.get littleEndian ;; ret (VNumber n)
  | StringCodec =>
      length <- VariableLength.get littleEndian ;;
      if 0 <? length then
        string <- get_bytes (Z.to_nat length) littleEndian ;;
        match utf8.decode string with
        | Some s => ret (VString s)
        | None => throw (Error "Invalid UTF-8 detected")
        end
      else ret (VString [])
  | BooleanArrayCodec =>
      values <- BooleanArray.get littleEndian ;; ret (VArray (map VBoolean values))
  | ArrayCodec valueCodec =>
      length <- VariableLength.get littleEndian ;;
      if 0 <? length then
        values <- get_each (get valueCodec littleEndian) (Z.to_nat length) ;;
        ret (VArray values)
      else ret (VArray [])
  | ForeignCodec => throw TypeError
  end.

(** The shared instances, [_codecs], and the codec classes, [_codecTypes]. *)
Definition _codecs : list (string * codec) :=
  [ ("boolean", BooleanCodec); ("booleanArray", BooleanArrayCodec);
    ("float32", FloatCodec 4); ("float64", FloatCodec 8);
    ("int8", IntCodec int8); ("int16", IntCodec int16); ("int32", IntCodec int32);
    ("string", StringCodec);
    ("uint8", IntCodec uint8); ("uint16", IntCodec uint16); ("uint32", IntCodec uint32);
    ("variableLength", VariableLengthCodec) ]%string.

Definition _codecTypes : list string :=
  [ "array"; "boolean"; "booleanArray"; "float"; "int"; "object"; "string";
    "variableLength" ]%string.

Fixpoint assoc {A} (key : string) (table : list (string * A)) : option A :=
  match table with
  | [] => None
  | (k, a) :: rest => if String.eqb k key then Some a else assoc key rest
  end.

(** The property names every object inherits from [Object.prototype]: a
    lookup [table[name]] in an object used as a table finds, under these
    names, a function (under "__proto__" the prototype itself) when the table
    has no entry of its own. [hasOwnProperty] does not see them. The objects
    and the tables of the model hold own properties only: the constructor of
    the array codec and [Schema.stringify] ask [inherited] as well, and the
    keys of fields are taken outside these names. *)
Definition inherited (key : string) : bool :=
  existsb (String.eqb key)
    [ "__proto__"; "constructor"; "hasOwnProperty"; "isPrototypeOf";
      "propertyIsEnumerable"; "toLocaleString"; "toString"; "valueOf";
      "__defineGetter__"; "__defineSetter__"; "__lookupGetter__";
      "__lookupSetter__" ]%string.

(** A property name that may be [undefined]; [hasOwnProperty(undefined)]
    asks for the name "undefined", which no table has. *)
Definition isValidType (type : option string) : bool :=
  match type with
  | Some type =>
      existsb (String.eqb type) _codecTypes
      || match assoc type _codecs with Some _ => true | None => false end
  | None => false
  end.

(* ================================================================== *)
(** ** Fields *)

Record FieldOptions : Type := mkOptions {
  opt_key : string;
  opt_type : option string;
  opt_valueType : option string;
}.

(** [codec] is [None] when [_codecs[this.type]] is [undefined]. *)
Record Field : Type := mkField {
  key : string;
  type : option string;
  valueType : option string;
  field_codec : option codec;
}.

Module ArrayCodecOps.
(** [new ArrayCodec(valueCodec)] with a name, or with [undefined]. The name
    is looked up with [_codecs[valueCodec]], through the prototype chain, and
    whatever is found is kept when it is truthy. *)
Definition new (valueCodec : option string) : completion codec :=
  match valueCodec with
  | Some name =>
      match assoc name _codecs with
      | Some c => Normal (ArrayCodec c)
      | None =>
          if inherited name then Normal (ArrayCodec ForeignCodec)
          else Throw (Error "Invalid array value type")
      end
  | None => Throw (Error "Invalid array value type")
  end.
End ArrayCodecOps.

Module FieldOps.

Definition new (options : FieldOptions) : completion Field :=
  let key := opt_key options in
  let type := opt_type options in
  let valueType := opt_valueType options in
  if String.eqb key "" then Throw (Error "key is required")
  else if negb (isValidType type) then Throw (Error "Invalid type")
  else if match type with Some t => String.eqb t "array" | None => false end then
    if match valueType with
       | Some t => String.eqb t "array" || String.eqb t "string"
       | None => false
       end || negb (isValidType valueType)
    then Throw (Error "Invalid array value type")
    else cbind (ArrayCodecOps.new valueType) (fun c =>
           Normal (mkField key type valueType (Some c)))
  else
    Normal (mkField key type valueType
              (match type with Some t => assoc t _codecs | None => None end)).

End FieldOps.

(* ================================================================== *)
(** ** Object codecs *)

(** [byteLength] is the cached length, [None] until it is set. *)
Record ObjectCodec : Type := mkObject {
  fields : list Field;
  cachedByteLength : option Z;
}.

Module Object.

(** [fields.map(options => new Field(options))] *)
Fixpoint map_fields (fields : list FieldOptions) : completion (list Field) :=
  match fields with
  | [] => Normal []
  | options :: rest =>
      cbind (FieldOps.new options) (fun f =>
        cbind (map_fields rest) (fun fs => Normal (f :: fs)))
  end.

Definition new (fields : list FieldOptions) : completion ObjectCodec :=
  cbind (map_fields fields) (fun fs => Normal (mkObject fs None)).

(** The loop of [getByteLength]: the sum and the [fixedByteLength] flag. *)
Fixpoint getByteLength_loop (fields : list Field) (object : value)
         (byteLength : Z) (fixedByteLength_ : bool) : completion (Z * bool) :=
  match fields with
  | [] => Normal (byteLength, fixedByteLength_)
  | f :: rest =>
      match field_codec f with
      | None => Throw TypeError
      | Some codec =>
          cbind (get_prop object (key f)) (fun v =>
            cbind (getByteLength codec v) (fun n =>
              getByteLength_loop rest object (byteLength + n)
                (fixedByteLength_ && fixedByteLength codec)))
      end
  end.

(** Returns the length and the codec with its cache possibly filled. *)
Definition getByteLength (o : ObjectCodec) (object : value)
  : completion (Z * ObjectCodec) :=
  match cachedByteLength o with
  | Some n => Normal (n, o)
  | None =>
      cbind (getByteLength_loop (fields o) object 0 true) (fun '(n, fixed_) =>
        Normal (n, if fixed_ then mkObject (fields o) (Some n) else o))
  end.

(** [this.littleEndian] is never assigned on an ObjectCodec: the fields
    are read and written big-endian. *)
Fixpoint get_loop (fields : list Field) (object : list (string * value))
  : M (list (string * value)) :=
  match fields with
  | [] => ret object
  | f :: rest =>
      match field_codec f with
      | None => throw TypeError
      | Some codec =>
          v <- get codec false ;;
          get_loop rest (assign_prop (key f) v object)
      end
  end.

Definition get (o : ObjectCodec) : M value :=
  props <- get_loop (fields o) [] ;; ret (VObject props).

Fixpoint set_loop (fields : list Field) (object : value) : M unit :=
  match fields with
  | [] => ret tt
  | f :: rest =>
      match field_codec f with
      | None => throw TypeError
      | Some codec =>
          v <- lift (get_prop object (key f)) ;;
          set codec v false ;;;
          set_loop rest object
      end
  end.

Definition set (o : ObjectCodec) (object : value) : M unit :=
  set_loop (fields o) object.

End Object.

(* ================================================================== *)
(** ** Definitions *)

(** The codec of a definition: one of the codecs above or an object codec. *)
Inductive definition_codec : Type :=
| CodecOf (c : codec)
| ObjectOf (o : ObjectCodec).

(** The first argument of [new Definition]: a type name or a codec object. *)
Inductive codecSpec : Type :=
| ByName (name : string)
| ByCodec (c : definition_codec).

(** The arguments the codec classes take: the field options of an object
    codec (an array), the name of a value codec (a string), the options
    [{byteLength}] of a float codec and [{byteLength, signed}] of an integer
    codec (objects). *)
Inductive codecArg : Type :=
| ArgFields (fields : list FieldOptions)
| ArgValueCodec (name : string)
| ArgFloat (byteLength : Z)
| ArgInt (byteLength : Z) (signed : bool).

(** The class [Definition]. *)
Record Definition_ : Type := mkDefinition {
  def_codec : definition_codec;
  def_id : option Z;
  def_key : option string;
  def_littleEndian : option bool;
}.

(** The error [Schema.parse] and [Schema.stringify] throw for an id or a
    name that is not registered (UnknownKey in the specification). *)
Definition not_defined_in_schema : exn := Error "is not defined in schema".

Module StreamViewFrom.

(** [StreamView.createFromString]: every character code goes through the
    uint8 codec, then the cursor returns to the start. *)
Definition createFromString (string : list Z) : completion StreamView :=
  cbind (set_bytes string false (StreamViewOps.create (Z.of_nat (length string))))
    (fun '(_, sv) => Normal (mkStreamView (dataView sv) 0)).

End StreamViewFrom.

Module DefinitionOps.

(** [new _codecTypes[codec](...codecArgs)] for the four classes without a
    shared instance; [isValidType] lets no other name come here. Each
    constructor takes the first argument, whatever its shape:
    - [ArrayCodec] looks a string up in [_codecs] and keeps any other
      argument, all of which are truthy, as the value codec;
    - [FloatCodec] and [IntegerCodec] read [byteLength] and [signed] off
      their argument, which a string and an array do not have; an integer
      codec without [byteLength] asks for the getter "getUintNaN";
    - [ObjectCodec] calls [fields.map], which only an array has.
    Without an argument the array codec gets [undefined], the float and the
    integer codec destructure [undefined], the object codec calls
    [undefined.map]. *)
Definition construct (name : string) (codecArgs : list codecArg)
  : completion definition_codec :=
  if String.eqb name "array" then
    match codecArgs with
    | [] => cbind (ArrayCodecOps.new None) (fun c => Normal (CodecOf c))
    | ArgValueCodec n :: _ =>
        cbind (ArrayCodecOps.new (Some n)) (fun c => Normal (CodecOf c))
    | (ArgFields _ | ArgFloat _ | ArgInt _ _) :: _ =>
        Normal (CodecOf (ArrayCodec ForeignCodec))
    end
  else if String.eqb name "float" then
    match codecArgs with
    | [] => Throw TypeError
    | (ArgFloat w | ArgInt w _) :: _ =>
        if (w =? 4) || (w =? 8) then Normal (CodecOf (FloatCodec w)) else Throw RangeError
    | (ArgFields _ | ArgValueCodec _) :: _ => Throw RangeError
    end
  else if String.eqb name "int" then
    match codecArgs with
    | [] => Throw TypeError
    | ArgInt w s :: _ => cbind (Integer.new w s) (fun c => Normal (CodecOf (IntCodec c)))
    | ArgFloat w :: _ => cbind (Integer.new w false) (fun c => Normal (CodecOf (IntCodec c)))
    | (ArgFields _ | ArgValueCodec _) :: _ => Throw (Error "must be a DataView method")
    end
  else if String.eqb name "object" then
    match codecArgs with
    | [] => Throw TypeError
    | ArgFields fs :: _ => cbind (Object.new fs) (fun o => Normal (ObjectOf o))
    | (ArgValueCodec _ | ArgFloat _ | ArgInt _ _) :: _ => Throw TypeError
    end
  else Unmodelled.

Definition new (codec : codecSpec) (id : option Z) (key : option string)
           (littleEndian : option bool) (codecArgs : list codecArg)
  : completion Definition_ :=
  cbind (match codec with
         | ByName name =>
             if negb (isValidType (Some name))
             then Throw (Error "invalid definition type")
             else match assoc name _codecs with
                  | Some c => Normal (CodecOf c)
                  | None => construct name codecArgs
                  end
         | ByCodec c => Normal c
         end)
    (fun c => Normal (mkDefinition c id key littleEndian)).

Definition codec_getByteLength (c : definition_codec) (object : value)
  : completion (Z * definition_codec) :=
  match c with
  | CodecOf c => cbind (getByteLength c object) (fun n => Normal (n, CodecOf c))
  | ObjectOf o => cbind (Object.getByteLength o object) (fun '(n, o') => Normal (n, ObjectOf o'))
  end.

(** [codec.get(streamView)], [codec.set(streamView, object)]: no
    [littleEndian] is passed. *)
Definition codec_get (c : definition_codec) : M value :=
  match c with
  | CodecOf c => get c false
  | ObjectOf o => Object.get o
  end.

Definition codec_set (c : definition_codec) (object : value) : M unit :=
  match c with
  | CodecOf c => set c object false
  | ObjectOf o => Object.set o object
  end.

Definition parse (d : Definition_) (string : list Z) : completion value :=
  cbind (StreamViewFrom.createFromString string) (fun sv =>
    cbind (codec_get (def_codec d) sv) (fun '(v, _) => Normal v)).

(** The definition comes back with the cache [getByteLength] may fill. *)
Definition stringify (d : Definition_) (object : value)
  : Definition_ * completion (list Z) :=
  match codec_getByteLength (def_codec d) object with
  | Normal (n, c') =>
      let d' := mkDefinition c' (def_id d) (def_key d) (def_littleEndian d) in
      (d', cbind (codec_set c' object (StreamViewOps.create n))
             (fun '(_, sv) => Normal (StreamViewOps.toArray sv)))
  | Throw e => (d, Throw e)
  | Unmodelled => (d, Unmodelled)
  end.

End DefinitionOps.

(** [jettison.define(codec, ...args)] *)
Definition define (codec : codecSpec) (args : list codecArg) : completion Definition_ :=
  DefinitionOps.new codec None None None args.

(* ================================================================== *)
(** ** Schemas *)

Record Schema : Type := mkSchema {
  definitions : gmap string Definition_;
  definitionsById : gmap Z Definition_;
  idType : string;
  nextDefinitionId : Z;
}.

Record Parsed : Type := mkParsed {
  parsed_key : option string;
  parsed_data : value;
}.

Module SchemaOps.

Definition new (idType : option string) : Schema :=
  mkSchema ∅ ∅
    (match idType with
     | Some t => if String.eqb t "" then "uint8" else t
     | None => "uint8"
     end) 1.

(** The counter is advanced before the definition is built, so it stays
    advanced when the constructor throws. Under the name "__proto__" the
    assignment makes the definition the prototype of the table, where a
    lookup of that name finds it; the entry of the model stands for it. *)
Definition define (s : Schema) (key : string) (codec : codecSpec)
           (args : list codecArg) : Schema * completion Definition_ :=
  let id := nextDefinitionId s in
  let s1 := mkSchema (definitions s) (definitionsById s) (idType s) (id + 1) in
  match DefinitionOps.new codec (Some id) (Some key) None args with
  | Normal definition =>
      (mkSchema (<[key := definition]> (definitions s1))
                (<[id := definition]> (definitionsById s1))
                (idType s1) (nextDefinitionId s1),
       Normal definition)
  | Throw e => (s1, Throw e)
  | Unmodelled => (s1, Unmodelled)
  end.

Definition parse (s : Schema) (string : list Z) : completion Parsed :=
  cbind (StreamViewFrom.createFromString string) (fun streamView =>
    match assoc (idType s) _codecs with
    | None => Throw TypeError
    | Some idCodec =>
        cbind (get idCodec false streamView) (fun '(id, streamView) =>
          match id with
          | VNumber id =>
              match definitionsById s !! id with
              | None => Throw not_defined_in_schema
              | Some definition =>
                  cbind (DefinitionOps.codec_get (def_codec definition) streamView)
                    (fun '(data, _) => Normal (mkParsed (def_key definition) data))
              end
          | _ => Unmodelled
          end)
    end).

(** The stored definition is one object reachable from both maps, so the
    cache [getByteLength] fills shows in both. *)
Definition store (s : Schema) (key : string) (definition : Definition_) : Schema :=
  mkSchema (<[key := definition]> (definitions s))
           (match def_id definition with
            | Some id => <[id := definition]> (definitionsById s)
            | None => definitionsById s
            end)
           (idType s) (nextDefinitionId s).

(** [this.definitions[key]] goes through the prototype chain of the table.
    Under a name every object inherits and no definition is registered
    under, it finds a function or the prototype, which passes the [== null]
    test and has no [codec], so the length computation throws a TypeError.
    A definition registered under "__proto__" is the prototype of the table
    and would lend it its own property names; the names it would add are
    outside the model. *)
Definition stringify (s : Schema) (key : string) (object : value)
  : Schema * completion (list Z) :=
  match definitions s !! key with
  | None =>
      if inherited key then (s, Throw TypeError)
      else match definitions s !! "__proto__"%string with
           | Some _ => (s, Unmodelled)
           | None => (s, Throw not_defined_in_schema)
           end
  | Some definition =>
      match assoc (idType s) _codecs with
      | None => (s, Throw TypeError)
      | Some idCodec =>
          if negb (fixedByteLength idCodec) then (s, Unmodelled) else
          match getByteLength idCodec VUndefined,
                DefinitionOps.codec_getByteLength (def_codec definition) object with
          | Normal idLength, Normal (n, c') =>
              let definition' :=
                mkDefinition c' (def_id definition) (def_key definition)
                  (def_littleEndian definition) in
              (store s key definition',
               cbind ((set idCodec
                         (match def_id definition with
                          | Some id => VNumber id
                          | None => VUndefined
                          end) false ;;;
                       DefinitionOps.codec_set c' object)
                        (StreamViewOps.create (idLength + n)))
                 (fun '(_, sv) => Normal (StreamViewOps.toArray sv)))
          | Normal _, Throw e => (s, Throw e)
          | Throw e, _ => (s, Throw e)
          | _, _ => (s, Unmodelled)
          end
      end
  end.

End SchemaOps.

(** [jettison.createSchema()] *)
Definition createSchema : Schema := SchemaOps.new None.

(* ================================================================== *)
(** ** The earlier revision of the file *)

(** The second source file is an earlier state of [jettison.js]: arrays and
    strings are prefixed with a uint32 length, there is no variable length
    or boolean array codec, a Definition holds its fields itself, and
    [Schema.define] takes the field list. The fixed length codecs, the stream
    view and the UTF-8 package are the ones above. *)
Module Legacy.

Inductive codec : Type :=
| BooleanCodec
| FloatCodec (byteLength : Z)
| IntCodec (c : IntegerCodec)
| StringCodec
| ArrayCodec (valueCodec : codec).

(** [codec.byteLength], which the array and string codecs do not have. *)
Definition codec_byteLength (c : codec) : option Z :=
  match c with
  | BooleanCodec => Some (byteLength Boolean.fixed)
  | FloatCodec w => Some w
  | IntCodec ic => Some (byteLength (fixed ic))
  | StringCodec | ArrayCodec _ => None
  end.

(** [this.lengthCodec] of the array and string codecs. *)
Definition lengthCodec : IntegerCodec := uint32.

(** [getByteLength] exists on the array and string codecs only. *)
Fixpoint getByteLength (c : codec) (v : value) : completion Z :=
  match c with
  | BooleanCodec | FloatCodec _ | IntCodec _ => Throw TypeError
  | StringCodec =>
      match v with
      | VString s =>
          Normal (byteLength (fixed lengthCodec)
                  + byteLength (fixed uint8) * Z.of_nat (length (utf8.encode s)))
      | VUndefined => Throw TypeError
      | _ => Unmodelled
      end
  | ArrayCodec valueCodec =>
      cbind (array_like v) (fun values =>
        match values with
        | [] => Normal 0
        | _ =>
            match codec_byteLength valueCodec with
            | Some n =>
                Normal (byteLength (fixed lengthCodec) + Z.of_nat (length values) * n)
            | None =>
                cbind (sum_lengths (getByteLength valueCodec) values) (fun n =>
                  Normal (byteLength (fixed lengthCodec) + n))
            end
        end)
  end.

Fixpoint set (c : codec) (v : value) (littleEndian : bool) : M unit :=
  match c with
  | BooleanCodec => Boolean.set (truthy v) littleEndian
  | FloatCodec w => Fixed.set (mkFixed w (AccFloat w)) 0 littleEndian
  | IntCodec ic =>
      n <- lift (ToNumber v) ;;
      match n with
      | Some n => Integer.set ic n littleEndian
      | None => Fixed.set (fixed ic) 0 littleEndian
      end
  | StringCodec =>
      if truthy v then
        match v with
        | VString s =>
            let utf8String := utf8.encode s in
            Integer.set lengthCodec (Z.of_nat (length utf8String)) littleEndian ;;;
            set_bytes utf8String littleEndian
        | _ => fun _ => Unmodelled
        end
      else Integer.set lengthCodec 0 littleEndian
  | ArrayCodec valueCodec =>
      values <- lift (array_like v) ;;
      let length := Z.of_nat (length values) in
      Integer.set lengthCodec length littleEndian ;;;
      if 0 <? length then set_each (fun x => set valueCodec x littleEndian) values
      else ret tt
  end.

Fixpoint get (c : codec) (littleEndian : bool) : M value :=
  match c with
  | BooleanCodec => b <- Boolean.get littleEndian ;; ret (VBoolean b)
  | FloatCodec w => n <- Fixed.get (mkFixed w (AccFloat w)) littleEndian ;; ret (VNumber n)
  | IntCodec ic => n <- Integer.get ic littleEndian ;; ret (VNumber n)
  | StringCodec =>
      length <- Integer.get lengthCodec littleEndian ;;
      if 0 <? length then
        string <- get_bytes (Z.to_nat length) littleEndian ;;
        match utf8.decode string with
        | Some s => ret (VString s)
        | None => throw (Error "Invalid UTF-8 detected")
        end
      else ret (VString [])
  | ArrayCodec valueCodec =>
      length <- Integer.get lengthCodec littleEndian ;;
      if 0 <? length then
        values <- get_each (get valueCodec littleEndian) (Z.to_nat length) ;;
        ret (VArray values)
      else ret (VArray [])
  end.

Definition codecs : list (string * codec) :=
  [ ("boolean", BooleanCodec);
    ("float32", FloatCodec 4); ("float64", FloatCodec 8);
    ("int8", IntCodec int8); ("int16", IntCodec int16); ("int32", IntCodec int32);
    ("uint8", IntCodec uint8); ("uint16", IntCodec uint16); ("uint32", IntCodec uint32);
    ("string", StringCodec) ]%string.

(** The [switch] of [isValidType]. *)
Definition isValidType (type : option string) : bool :=
  match type with
  | Some type =>
      existsb (String.eqb type)
        [ "array"; "string"; "boolean"; "int8"; "int16"; "int32";
          "uint8"; "uint16"; "uint32"; "float32"; "float64" ]%string
  | None => false
  end.

Record Field : Type := mkField {
  key : string;
  type : option string;
  valueType : option string;
  field_codec : option codec;
}.

(** [new ArrayCodec(valueCodec)]. A name is looked up with
    [codecs[valueCodec]], through the prototype chain, and what is found is
    kept when it is truthy; an argument that is not a string is kept as it
    is, [undefined] too. A value codec that is no codec is outside the
    model; [new Field] passes the names of the [switch] only. *)
Definition new_ArrayCodec (valueCodec : option string) : completion codec :=
  match valueCodec with
  | Some name =>
      match assoc name codecs with
      | Some c => Normal (ArrayCodec c)
      | None =>
          if inherited name then Unmodelled
          else Throw (Error "Invalid array value type")
      end
  | None => Unmodelled
  end.

Definition new_Field (options : FieldOptions) : completion Field :=
  let key := opt_key options in
  let type := opt_type options in
  let valueType := opt_valueType options in
  if String.eqb key "" then Throw (Error "key is required")
  else if negb (isValidType type) then Throw (Error "Invalid type")
  else if match type with Some t => String.eqb t "array" | None => false end then
    if match valueType with
       | Some t => String.eqb t "array" || String.eqb t "string"
       | None => false
       end || negb (isValidType valueType)
    then Throw (Error "Invalid array value type")
    else cbind (new_ArrayCodec valueType) (fun c =>
           Normal (mkField key type valueType (Some c)))
  else
    Normal (mkField key type valueType
              (match type with Some t => assoc t codecs | None => None end)).

Fixpoint map_fields (fields : list FieldOptions) : completion (list Field) :=
  match fields with
  | [] => Normal []
  | options :: rest =>
      cbind (new_Field options) (fun f =>
        cbind (map_fields rest) (fun fs => Normal (f :: fs)))
  end.

Record Definition_ : Type := mkDefinition {
  fields : list Field;
  def_id : option Z;
  def_key : option string;
  def_littleEndian : bool;
  cachedByteLength : option Z;
}.

Module DefinitionOps.

Fixpoint getByteLength_loop (fields : list Field) (object : value)
         (byteLength : Z) (fixedByteLength : bool) : completion (Z * bool) :=
  match fields with
  | [] => Normal (byteLength, fixedByteLength)
  | f :: rest =>
      match field_codec f with
      | None => Throw TypeError
      | Some codec =>
          match codec_byteLength codec with
          | Some n => getByteLength_loop rest object (byteLength + n) fixedByteLength
          | None =>
              cbind (get_prop object (key f)) (fun v =>
                cbind (getByteLength codec v) (fun n =>
                  getByteLength_loop rest object (byteLength + n) false))
          end
      end
  end.

Definition getByteLength (d : Definition_) (object : value)
  : completion (Z * Definition_) :=
  match cachedByteLength d with
  | Some n => Normal (n, d)
  | None =>
      cbind (getByteLength_loop (fields d) object 0 true) (fun '(n, fixed_) =>
        Normal (n, if fixed_
                   then mkDefinition (fields d) (def_id d) (def_key d)
                          (def_littleEndian d) (Some n)
                   else d))
  end.

Fixpoint get_loop (fields : list Field) (littleEndian : bool)
         (values : list (string * value)) : M (list (string * value)) :=
  match fields with
  | [] => ret values
  | f :: rest =>
      match field_codec f with
      | None => throw TypeError
      | Some codec =>
          v <- get codec littleEndian ;;
          get_loop rest littleEndian (assign_prop (key f) v values)
      end
  end.

Definition get (d : Definition_) : M value :=
  values <- get_loop (fields d) (def_littleEndian d) [] ;; ret (VObject values).

Fixpoint set_loop (fields : list Field) (littleEndian : bool) (object : value)
  : M unit :=
  match fields with
  | [] => ret tt
  | f :: rest =>
      match field_codec f with
      | None => throw TypeError
      | Some codec =>
          v <- lift (get_prop object (key f)) ;;
          set codec v littleEndian ;;;
          set_loop rest littleEndian object
      end
  end.

Definition set (d : Definition_) (object : value) : M unit :=
  set_loop (fields d) (def_littleEndian d) object.

Definition parse (d : Definition_) (string : list Z) : completion value :=
  cbind (StreamViewFrom.createFromString string) (fun sv =>
    cbind (get d sv) (fun '(v, _) => Normal v)).

Definition stringify (d : Definition_) (object : value)
  : Definition_ * completion (list Z) :=
  match getByteLength d object with
  | Normal (n, d') =>
      (d', cbind (set d' object (StreamViewOps.create n))
             (fun '(_, sv) => Normal (StreamViewOps.toArray sv)))
  | Throw e => (d, Throw e)
  | Unmodelled => (d, Unmodelled)
  end.

End DefinitionOps.

(** [jettison.define(fields)] *)
Definition define (fields : list FieldOptions) : completion Definition_ :=
  cbind (map_fields fields) (fun fs => Normal (mkDefinition fs None None false None)).

Record Schema : Type := mkSchema {
  definitions : gmap string Definition_;
  definitionsById : gmap Z Definition_;
  idType : string;
  nextDefinitionId : Z;
}.

Module SchemaOps.

Definition new (idType : option string) : Schema :=
  mkSchema ∅ ∅
    (match idType with
     | Some t => if String.eqb t "" then "uint8" else t
     | None => "uint8"
     end) 1.

(** As in the current file, the counter is advanced first, and an entry
    under "__proto__" stands for the definition made the prototype of the
    table. *)
Definition define (s : Schema) (key : string) (fields : list FieldOptions)
  : Schema * completion Definition_ :=
  let id := nextDefinitionId s in
  let s1 := mkSchema (definitions s) (definitionsById s) (idType s) (id + 1) in
  match map_fields fields with
  | Normal fs =>
      let definition := mkDefinition fs (Some id) (Some key) false None in
      (mkSchema (<[key := definition]> (definitions s1))
                (<[id := definition]> (definitionsById s1))
                (idType s1) (nextDefinitionId s1),
       Normal definition)
  | Throw e => (s1, Throw e)
  | Unmodelled => (s1, Unmodelled)
  end.

Definition parse (s : Schema) (string : list Z) : completion Parsed :=
  cbind (StreamViewFrom.createFromString string) (fun streamView =>
    match assoc (idType s) codecs with
    | None => Throw TypeError
    | Some idCodec =>
        cbind (get idCodec false streamView) (fun '(id, streamView) =>
          match id with
          | VNumber id =>
              match definitionsById s !! id with
              | None => Throw not_defined_in_schema
              | Some definition =>
                  cbind (DefinitionOps.get definition streamView)
                    (fun '(data, _) => Normal (mkParsed (def_key definition) data))
              end
          | _ => Unmodelled
          end)
    end).

Definition store (s : Schema) (key : string) (definition : Definition_) : Schema :=
  mkSchema (<[key := definition]> (definitions s))
           (match def_id definition with
            | Some id => <[id := definition]> (definitionsById s)
            | None => definitionsById s
            end)
           (idType s) (nextDefinitionId s).

(** [this.definitions[key]] goes through the prototype chain of the table:
    under a name every object inherits and no definition is registered
    under, it finds a function or the prototype, which passes the [== null]
    test and has no [getByteLength], so the call throws a TypeError. The
    names a definition registered under "__proto__" would add are outside
    the model. *)
Definition stringify (s : Schema) (key : string) (object : value)
  : Schema * completion (list Z) :=
  match definitions s !! key with
  | None =>
      if inherited key then (s, Throw TypeError)
      else match definitions s !! "__proto__"%string with
           | Some _ => (s, Unmodelled)
           | None => (s, Throw not_defined_in_schema)
           end
  | Some definition =>
      match assoc (idType s) codecs with
      | None => (s, Throw TypeError)
      | Some idCodec =>
          match codec_byteLength idCodec, DefinitionOps.getByteLength definition object with
          | Some idLength, Normal (n, definition') =>
              (store s key definition',
               cbind ((set idCodec
                         (match def_id definition with
                          | Some id => VNumber id
                          | None => VUndefined
                          end) false ;;;
                       DefinitionOps.set definition' object)
                        (StreamViewOps.create (idLength + n)))
                 (fun '(_, sv) => Normal (StreamViewOps.toArray sv)))
          | Some _, Throw e => (s, Throw e)
          | _, _ => (s, Unmodelled)
          end
      end
  end.

End SchemaOps.

Definition createSchema : Schema := SchemaOps.new None.

End Legacy.

(* ================================================================== *)
(** ** Vocabulary of the specification *)

(** Clamping to a closed range, in the words of the specification. *)
Definition clamp_to (lo hi v : Z) : Z := Z.max lo (Z.min hi v).

(** The standard ranges of an integer of [bits] bits. *)
Definition standard_min (bits : Z) (signed : bool) : Z :=
  if signed then - 2 ^ (bits - 1) else 0.
Definition standard_max (bits : Z) (signed : bool) : Z :=
  if signed then 2 ^ (bits - 1) - 1 else 2 ^ bits - 1.

(** Encoding a value alone: a view of exactly [n] bytes, written from the
    start, as [stringify] does. *)
Definition encode_with (m : M unit) (n : Z) : completion (list Z * Z) :=
  cbind (m (StreamViewOps.create n)) (fun '(_, sv) => Normal (dataView sv, byteOffset sv)).

(** Decoding from the start of the bytes, as [parse] does once they are in
    a view. *)
Definition decode_with {A} (m : M A) (bytes : list Z) : completion A :=
  cbind (m (mkStreamView bytes 0)) (fun '(a, _) => Normal a).


(** The width of the access a DataView accessor makes. *)
Definition accessor_width (a : accessor) : Z :=
  match a with AccUint w | AccInt w | AccFloat w => w end.


(** The flags of one byte, first flag in the least significant bit. *)
Fixpoint bits_value (flags : list bool) : Z :=
  match flags with
  | [] => 0
  | b :: rest => (if b then 1 else 0) + 2 * bits_value rest
  end.

(** The bit region of a boolean array in the words of the specification:
    ceil(count / 8) bytes, byte [j] holding the elements 8j .. 8j + 7. *)
Definition pack (values : list bool) : list Z :=
  map (fun j => bits_value (take 8 (drop (8 * j) values)))
      (seq 0 ((length values + 7) / 8)).

(** The bytes the [for] loop of [BooleanArray.set] and the flush after it
    hand to the uint8 codec. *)
Fixpoint flag_bytes (values : list bool) (byte bit : Z) : list Z :=
  match values with
  | [] => if 0 <? bit then [byte] else []
  | v :: rest =>
      if bit =? 8 then
        byte :: flag_bytes rest (js_or 0 (js_shl (if v then 1 else 0) 0)) (0 + 1)
      else flag_bytes rest (js_or byte (js_shl (if v then 1 else 0) bit)) (bit + 1)
  end.


(** The number of bytes UTF-8 takes for a scalar value, and for a text. *)
Definition utf8_size (codePoint : Z) : Z :=
  if codePoint <? 128 then 1
  else if codePoint <? 2048 then 2
  else if codePoint <? 65536 then 3
  else 4.

Fixpoint utf8_length (s : list Z) : Z :=
  match s with
  | [] => 0
  | codePoint :: rest => utf8_size codePoint + utf8_length rest
  end.

(** A wire byte. *)
Definition is_byte (b : Z) : Prop := 0 <= b <= 255.


(** The schema of the specification's example, in the current file, where
    [define] takes the codec type and its arguments, ... *)
Definition example_schema : Schema :=
  let s := fst (SchemaOps.define createSchema "ping" (ByName "object") [ArgFields []]) in
  fst (SchemaOps.define s "pong" (ByName "object")
         [ArgFields [mkOptions "n" (Some "uint8"%string) None]]).

(** ... and in the earlier revision, where it takes the field list. *)
Definition legacy_example_schema : Legacy.Schema :=
  let s := fst (Legacy.SchemaOps.define Legacy.createSchema "ping" []) in
  fst (Legacy.SchemaOps.define s "pong" [mkOptions "n" (Some "uint8"%string) None]).


(** The values a codec of the current file encodes within the range in which
    its length prefixes round-trip: numbers for the numeric codecs (an absent
    one is written as 0), counts and lengths below 2^31, text of scalar
    values. Floats are outside the model. *)
Fixpoint encodable (c : codec) (v : value) : Prop :=
  match c with
  | BooleanCodec => True
  | FloatCodec _ | ForeignCodec => False
  | IntCodec ic =>
      (exists w signed, Integer.new w signed = Normal ic) /\
      exists n, ToNumber v = Normal n
  | VariableLengthCodec =>
      exists n, ToNumber v = Normal (Some n) /\ 0 <= n < 2 ^ 31
  | StringCodec =>
      truthy v = false \/
      exists s, v = VString s /\ Forall (fun cp => 0 <= cp) s /\ utf8_length s < 2 ^ 31
  | BooleanArrayCodec =>
      exists vs, array_like v = Normal vs /\ Z.of_nat (length vs) < 2 ^ 31
  | ArrayCodec valueCodec =>
      exists vs, array_like v = Normal vs /\ Z.of_nat (length vs) < 2 ^ 31 /\
                 Forall (encodable valueCodec) vs
  end.


(** An object whose fields all have a codec and an encodable value. *)
Definition fields_encodable (fields : list Field) (object : value) : Prop :=
  Forall (fun f => exists c v, field_codec f = Some c /\
                               get_prop object (key f) = Normal v /\
                               encodable c v) fields.


(* ================================================================== *)
(** ** Vocabulary of the round trips *)

(** A Unicode scalar value: a code point that is not a surrogate. *)
Definition scalar (codePoint : Z) : Prop :=
  0 <= codePoint < 55296 \/ 57343 < codePoint <= 1114111.

(** The elements of the value an array codec is given, and the number a
    numeric codec is given (an absent one is written as 0). *)
Definition elements (v : value) : list value :=
  match array_like v with
  | Normal vs => vs
  | _ => []
  end.

Definition number_of (v : value) : Z :=
  match ToNumber v with
  | Normal (Some n) => n
  | _ => 0
  end.

(** The wire format of the current file, codec by codec: one byte 1 or 0; a
    count and the packed flags; the byte image of the clamped integer; a
    length and the UTF-8 bytes; the 7-bit groups; a count and the elements. *)
Fixpoint encoding (c : codec) (v : value) (littleEndian : bool) : list Z :=
  match c with
  | BooleanCodec => [if truthy v then 1 else 0]
  | BooleanArrayCodec =>
      varint_bytes (Z.of_nat (length (elements v))) ++ pack (map truthy (elements v))
  | FloatCodec _ | ForeignCodec => []
  | IntCodec ic =>
      DataView.order littleEndian
        (DataView.le_bytes (Z.to_nat (byteLength (fixed ic)))
           (Integer.clamp ic (number_of v)))
  | StringCodec =>
      match v with
      | VString s => varint_bytes (Z.of_nat (length (utf8.encode s))) ++ utf8.encode s
      | _ => [0]
      end
  | VariableLengthCodec => varint_bytes (number_of v)
  | ArrayCodec valueCodec =>
      varint_bytes (Z.of_nat (length (elements v)))
        ++ flat_map (fun x => encoding valueCodec x littleEndian) (elements v)
  end.

(** The value that comes back: booleans for truthiness, clamped integers,
    the empty string and the empty array for an absent value. *)
Fixpoint decoded (c : codec) (v : value) : value :=
  match c with
  | BooleanCodec => VBoolean (truthy v)
  | BooleanArrayCodec => VArray (map (fun x => VBoolean (truthy x)) (elements v))
  | FloatCodec _ | ForeignCodec => v
  | IntCodec ic => VNumber (Integer.clamp ic (number_of v))
  | StringCodec =>
      match v with
      | VString s => VString s
      | _ => VString []
      end
  | VariableLengthCodec => VNumber (number_of v)
  | ArrayCodec valueCodec => VArray (map (decoded valueCodec) (elements v))
  end.

(** The values that survive the round trip: [encodable], with text made of
    scalar values. *)
Fixpoint decodable (c : codec) (v : value) : Prop :=
  match c with
  | StringCodec =>
      truthy v = false \/
      exists s, v = VString s /\ Forall scalar s /\ utf8_length s < 2 ^ 31
  | ArrayCodec valueCodec =>
      exists vs, array_like v = Normal vs /\ Z.of_nat (length vs) < 2 ^ 31 /\
                 Forall (decodable valueCodec) vs
  | _ => encodable c v
  end.

(** The last entry of a list declared under a key. *)
Fixpoint last_keyed {A} (key_of : A -> string) (k : string) (l : list A) : option A :=
  match l with
  | [] => None
  | a :: rest =>
      match last_keyed key_of k rest with
      | Some a' => Some a'
      | None => if String.eqb (key_of a) k then Some a else None
      end
  end.

(** [object[key]] for the objects of the model. *)
Definition prop_of (object : value) (key : string) : value :=
  match get_prop object key with
  | Normal v => v
  | _ => VUndefined
  end.

Definition field_encoding (object : value) (f : Field) : list Z :=
  match field_codec f with
  | Some c => encoding c (prop_of object (key f)) false
  | None => []
  end.

Definition field_decoded (object : value) (f : Field) : value :=
  match field_codec f with
  | Some c => decoded c (prop_of object (key f))
  | None => VUndefined
  end.

(** The bytes of an object, field after field, and the object that comes
    back, property after property. *)
Definition object_encoding (fields : list Field) (object : value) : list Z :=
  flat_map (field_encoding object) fields.

Definition object_decoded (fields : list Field) (object : value)
  : list (string * value) :=
  fold_left (fun props f => assign_prop (key f) (field_decoded object f) props)
    fields [].

Definition fields_decodable (fields : list Field) (object : value) : Prop :=
  Forall (fun f => inherited (key f) = false /\
                   exists c v, field_codec f = Some c /\
                               get_prop object (key f) = Normal v /\
                               decodable c v) fields.

(** Whether every field has a fixed length codec, and the bytes such
    fields take together. *)
Definition all_fixed (fields : list Field) : bool :=
  forallb (fun f => match field_codec f with
                    | Some c => fixedByteLength c
                    | None => false
                    end) fields.

Definition codec_width (c : codec) : Z :=
  match getByteLength c VUndefined with
  | Normal n => n
  | _ => 0
  end.

Definition fields_width (fields : list Field) : Z :=
  fold_right (fun f n => match field_codec f with
                         | Some c => codec_width c + n
                         | None => n
                         end) 0 fields.

(** A cached byte length is one [getByteLength] has stored. *)
Definition cache_ok (o : ObjectCodec) : Prop :=
  match cachedByteLength o with
  | Some n => all_fixed (fields o) = true /\ n = fields_width (fields o)
  | None => True
  end.

(** The same vocabulary for the codec of a definition. *)
Definition definition_decodable (c : definition_codec) (object : value) : Prop :=
  match c with
  | CodecOf c => decodable c object
  | ObjectOf o => fields_decodable (fields o) object /\ cache_ok o
  end.

Definition definition_encoding (c : definition_codec) (object : value) : list Z :=
  match c with
  | CodecOf c => encoding c object false
  | ObjectOf o => object_encoding (fields o) object
  end.

Definition definition_decoded (c : definition_codec) (object : value) : value :=
  match c with
  | CodecOf c => decoded c object
  | ObjectOf o => VObject (object_decoded (fields o) object)
  end.

(** The schemas a program can build: [createSchema], then [define], under
    names no object inherits, and [stringify], whatever their outcome
    ([parse] changes nothing). *)
Inductive reachable : Schema -> Prop :=
| reachable_createSchema : reachable createSchema
| reachable_define (s : Schema) (key : string) (codec : codecSpec) (args : list codecArg) :
    inherited key = false ->
    reachable s -> reachable (fst (SchemaOps.define s key codec args))
| reachable_stringify (s : Schema) (key : string) (object : value) :
    reachable s -> reachable (fst (SchemaOps.stringify s key object)).

(** The codec of a definition once [getByteLength] has run: an object codec
    whose fields are all of fixed length has its length cached. *)
Definition with_cache (c : definition_codec) : definition_codec :=
  match c with
  | CodecOf c => CodecOf c
  | ObjectOf o =>
      ObjectOf (if all_fixed (fields o)
                then mkObject (fields o) (Some (fields_width (fields o)))
                else o)
  end.

(** What holds of every schema a program can build: the id codec is uint8,
    ids are handed out from 1 upward, and the two maps agree. *)
Definition consistent (s : Schema) : Prop :=
  idType s = "uint8"%string /\
  1 <= nextDefinitionId s /\
  (forall (k : string) (d : Definition_),
      definitions s !! k = Some d ->
      def_key d = Some k /\
      exists i, def_id d = Some i /\ definitionsById s !! i = Some d) /\
  (forall (i : Z) (d : Definition_),
      definitionsById s !! i = Some d ->
      def_id d = Some i /\ 1 <= i < nextDefinitionId s).

(** A schema with more definitions than a uint8 id can tell apart: 255
    messages named "a", then one named "b". *)
Definition crowded_schema : Schema :=
  fst (SchemaOps.define
         (Nat.iter 255 (fun s => fst (SchemaOps.define s "a" (ByName "uint8") []))
            createSchema)
         "b" (ByName "uint16") []).

(** The value of a sequence of 7-bit groups, least significant first, and
    the sequences the decoder stops after: every byte but the last carries
    the continuation flag. *)
Fixpoint groups_value (bs : list Z) : Z :=
  match bs with
  | [] => 0
  | b :: rest => b mod 128 + 128 * groups_value rest
  end.

Definition flagged (b : Z) : Prop := 128 <= b <= 255.

Definition terminated (bs : list Z) : Prop :=
  exists (pre : list Z) (last : Z),
    bs = pre ++ [last] /\ Forall flagged pre /\ 0 <= last < 128.

(** The values a codec returns as they were given: booleans, integers in
    range, text, and arrays of such values. *)
Fixpoint plain (c : codec) (v : value) : Prop :=
  match c with
  | BooleanCodec => exists b, v = VBoolean b
  | BooleanArrayCodec => exists bs, v = VArray (map VBoolean bs)
  | FloatCodec _ | ForeignCodec => False
  | IntCodec ic => exists n, v = VNumber n /\ minValue ic <= n <= maxValue ic
  | StringCodec => exists s, v = VString s
  | VariableLengthCodec => exists n, v = VNumber n
  | ArrayCodec valueCodec => exists vs, v = VArray vs /\ Forall (plain valueCodec) vs
  end.

(** What the loop of [VariableLength.get] accumulates over the bytes it
    reads. *)
Fixpoint get_value (bs : list Z) (i length : Z) : Z :=
  match bs with
  | [] => length
  | byte :: rest =>
      get_value rest (i + 1) (js_or length (js_shl (js_and byte 127) (i * 7)))
  end.

(** The same vocabulary for the earlier revision, whose length prefix is a
    uint32. *)
Module LegacyFormat.

Fixpoint encoding (c : Legacy.codec) (v : value) (littleEndian : bool) : list Z :=
  match c with
  | Legacy.BooleanCodec => [if truthy v then 1 else 0]
  | Legacy.FloatCodec _ => []
  | Legacy.IntCodec ic =>
      DataView.order littleEndian
        (DataView.le_bytes (Z.to_nat (byteLength (fixed ic)))
           (Integer.clamp ic (number_of v)))
  | Legacy.StringCodec =>
      match v with
      | VString s =>
          DataView.order littleEndian
            (DataView.le_bytes 4 (Z.of_nat (length (utf8.encode s))))
            ++ utf8.encode s
      | _ => [0; 0; 0; 0]
      end
  | Legacy.ArrayCodec valueCodec =>
      DataView.order littleEndian
        (DataView.le_bytes 4 (Z.of_nat (length (elements v))))
        ++ flat_map (fun x => encoding valueCodec x littleEndian) (elements v)
  end.

Fixpoint decoded (c : Legacy.codec) (v : value) : value :=
  match c with
  | Legacy.BooleanCodec => VBoolean (truthy v)
  | Legacy.FloatCodec _ => v
  | Legacy.IntCodec ic => VNumber (Integer.clamp ic (number_of v))
  | Legacy.StringCodec =>
      match v with
      | VString s => VString s
      | _ => VString []
      end
  | Legacy.ArrayCodec valueCodec => VArray (map (decoded valueCodec) (elements v))
  end.

(** The values that survive the round trip: counts and lengths below 2^32. *)
Fixpoint decodable (c : Legacy.codec) (v : value) : Prop :=
  match c with
  | Legacy.BooleanCodec => True
  | Legacy.FloatCodec _ => False
  | Legacy.IntCodec ic =>
      (exists w signed, Integer.new w signed = Normal ic) /\
      exists n, ToNumber v = Normal n
  | Legacy.StringCodec =>
      truthy v = false \/
      exists s, v = VString s /\ Forall scalar s /\ utf8_length s < 2 ^ 32
  | Legacy.ArrayCodec valueCodec =>
      exists vs, array_like v = Normal vs /\ Z.of_nat (length vs) < 2 ^ 32 /\
                 Forall (decodable valueCodec) vs
  end.

(** The values whose length [getByteLength] gets right: text, and arrays
    that are not empty. *)
Fixpoint measured (c : Legacy.codec) (v : value) : Prop :=
  match c with
  | Legacy.StringCodec => exists s, v = VString s
  | Legacy.ArrayCodec valueCodec =>
      elements v <> [] /\
      (Legacy.codec_byteLength valueCodec = None ->
       Forall (measured valueCodec) (elements v))
  | _ => False
  end.

Definition field_encoding (littleEndian : bool) (object : value) (f : Legacy.Field)
  : list Z :=
  match Legacy.field_codec f with
  | Some c => encoding c (prop_of object (Legacy.key f)) littleEndian
  | None => []
  end.

Definition field_decoded (object : value) (f : Legacy.Field) : value :=
  match Legacy.field_codec f with
  | Some c => decoded c (prop_of object (Legacy.key f))
  | None => VUndefined
  end.

Definition object_encoding (fields : list Legacy.Field) (littleEndian : bool)
           (object : value) : list Z :=
  flat_map (field_encoding littleEndian object) fields.

Definition object_decoded (fields : list Legacy.Field) (object : value)
  : list (string * value) :=
  fold_left (fun props f => assign_prop (Legacy.key f) (field_decoded object f) props)
    fields [].

(** A field the definition can size and write: a fixed length codec, or a
    dynamic one with a measured value. *)
Definition fields_decodable (fields : list Legacy.Field) (object : value) : Prop :=
  Forall (fun f => inherited (Legacy.key f) = false /\ exists c v,
              Legacy.field_codec f = Some c /\
              get_prop object (Legacy.key f) = Normal v /\
              decodable c v /\
              (Legacy.codec_byteLength c = None -> measured c v)) fields.

Definition all_fixed (fields : list Legacy.Field) : bool :=
  forallb (fun f => match Legacy.field_codec f with
                    | Some c => match Legacy.codec_byteLength c with
                                | Some _ => true
                                | None => false
                                end
                    | None => false
                    end) fields.

Definition fields_width (fields : list Legacy.Field) : Z :=
  fold_right (fun f n => match Legacy.field_codec f with
                         | Some c => match Legacy.codec_byteLength c with
                                     | Some w => w + n
                                     | None => n
                                     end
                         | None => n
                         end) 0 fields.

Definition cache_ok (d : Legacy.Definition_) : Prop :=
  match Legacy.cachedByteLength d with
  | Some n => all_fixed (Legacy.fields d) = true /\ n = fields_width (Legacy.fields d)
  | None => True
  end.

End LegacyFormat.

(** The schemas a program can build in the earlier revision, and what holds
    of them. *)
Inductive legacy_reachable : Legacy.Schema -> Prop :=
| legacy_reachable_createSchema : legacy_reachable Legacy.createSchema
| legacy_reachable_define (s : Legacy.Schema) (key : string) (fields : list FieldOptions) :
    inherited key = false ->
    legacy_reachable s -> legacy_reachable (fst (Legacy.SchemaOps.define s key fields))
| legacy_reachable_stringify (s : Legacy.Schema) (key : string) (object : value) :
    legacy_reachable s -> legacy_reachable (fst (Legacy.SchemaOps.stringify s key object)).


(* ================================================================== *)
(** * Properties *)

(** They are what the constructor builds. *)
Lemma shared_integer_instances :
  Integer.new 1 true = Normal int8 /\ Integer.new 2 true = Normal int16 /\
  Integer.new 4 true = Normal int32 /\ Integer.new 1 false = Normal uint8 /\
  Integer.new 2 false = Normal uint16 /\ Integer.new 4 false = Normal uint32.
Proof. repeat split; reflexivity. Qed.

(** ** Byte images *)

Lemma le_bytes_length (w : nat) (n : Z) : length (DataView.le_bytes w n) = w.
Proof. revert n; induction w as [|w IH]; intros n; simpl; [reflexivity|]. now rewrite IH. Qed.

Lemma le_value_le_bytes (w : nat) (n : Z) :
  DataView.le_value (DataView.le_bytes w n) = n mod 256 ^ Z.of_nat w.
Proof.
  revert n; induction w as [|w IH]; intros n.
  - simpl. now rewrite Z.mod_1_r.
  - cbn [DataView.le_bytes DataView.le_value]. rewrite IH.
    rewrite Nat2Z.inj_succ, Z.pow_succ_r by lia.
    rewrite Z.rem_mul_r by lia. lia.
Qed.

Lemma order_length (le : bool) (bs : list Z) : length (DataView.order le bs) = length bs.
Proof. destruct le; simpl; [reflexivity|]. apply length_rev. Qed.

Lemma order_involutive (le : bool) (bs : list Z) :
  DataView.order le (DataView.order le bs) = bs.
Proof. destruct le; simpl; [reflexivity|]. apply rev_involutive. Qed.

Lemma in_bounds_spec (dv : DataView.t) (o w : Z) :
  DataView.in_bounds dv o w = true <-> 0 <= o /\ o + w <= Z.of_nat (length dv).
Proof. unfold DataView.in_bounds, DataView.byteLength. rewrite andb_true_iff. lia. Qed.

(** Reading back the window a write has just filled. *)
Lemma splice_window (dv bs : list Z) (o : Z) :
  0 <= o -> o + Z.of_nat (length bs) <= Z.of_nat (length dv) ->
  take (length bs)
    (drop (Z.to_nat o)
       (take (Z.to_nat o) dv ++ bs ++ drop (Z.to_nat (o + Z.of_nat (length bs))) dv)) = bs.
Proof.
  intros Ho Hlen.
  rewrite drop_app_length' by (rewrite length_take; lia).
  now rewrite take_app_length.
Qed.

Lemma splice_length (dv bs : list Z) (o : Z) :
  0 <= o -> o + Z.of_nat (length bs) <= Z.of_nat (length dv) ->
  length (take (Z.to_nat o) dv ++ bs ++ drop (Z.to_nat (o + Z.of_nat (length bs))) dv)
  = length dv.
Proof.
  intros Ho Hlen. rewrite !length_app, length_take, length_drop. lia.
Qed.

(** ** Integer codecs *)

(** The codecs [Integer.new] can build are the six shared instances. *)
Lemma Integer_new_inv (w : Z) (signed : bool) (c : IntegerCodec) :
  Integer.new w signed = Normal c ->
  (w = 1 \/ w = 2 \/ w = 4) /\
  c = mkInteger (mkFixed w (if signed then AccInt w else AccUint w))
        (if signed then - 2 ^ (w * 8 - 1) else 0)
        (if signed then 2 ^ (w * 8 - 1) - 1 else 2 ^ (w * 8) - 1).
Proof.
  unfold Integer.new, Fixed.new. intros H.
  destruct (w <=? 0) eqn:Hw; [discriminate|].
  destruct signed; simpl in H;
    destruct (w =? 1) eqn:H1; destruct (w =? 2) eqn:H2; destruct (w =? 4) eqn:H4;
    simpl in H; try discriminate; (split; [lia|]); congruence.
Qed.

Lemma clamp_range (w : Z) (signed : bool) (c : IntegerCodec) (v : Z) :
  Integer.new w signed = Normal c ->
  minValue c <= Integer.clamp c v <= maxValue c.
Proof.
  intros H. apply Integer_new_inv in H as [Hw ->].
  unfold Integer.clamp; cbn [minValue maxValue].
  destruct Hw as [-> | [-> | ->]]; destruct signed;
    repeat match goal with |- context [?a <? ?b] => destruct (Z.ltb_spec a b) end; lia.
Qed.

Lemma clamp_in_range (c : IntegerCodec) (v : Z) :
  minValue c <= v <= maxValue c -> Integer.clamp c v = v.
Proof.
  intros H. unfold Integer.clamp.
  destruct (Z.ltb_spec v (minValue c)); [lia|].
  destruct (Z.ltb_spec (maxValue c) v); [lia|]. reflexivity.
Qed.

(** What [set] does to a view that has room for the value. *)
Lemma Integer_set_room (w : Z) (signed : bool) (c : IntegerCodec) (v : Z)
      (le : bool) (sv : StreamView) :
  Integer.new w signed = Normal c ->
  0 <= byteOffset sv -> byteOffset sv + w <= DataView.byteLength (dataView sv) ->
  Integer.set c v le sv =
  Normal (tt, mkStreamView
                (take (Z.to_nat (byteOffset sv)) (dataView sv)
                   ++ DataView.order le (DataView.le_bytes (Z.to_nat w) (Integer.clamp c v))
                   ++ drop (Z.to_nat (byteOffset sv + w)) (dataView sv))
                (byteOffset sv + w)).
Proof.
  intros Hc Ho Hr. apply Integer_new_inv in Hc as [Hw ->].
  unfold Integer.set, Fixed.set. cbn [fixed acc byteLength].
  assert (Hb : DataView.in_bounds (dataView sv) (byteOffset sv) w = true)
    by (apply in_bounds_spec; unfold DataView.byteLength in Hr; lia).
  destruct signed; unfold DataView.setInt; rewrite Hb; reflexivity.
Qed.

(** Reading the bytes of an in-range value back. *)
Lemma Integer_get_window (w : Z) (signed : bool) (c : IntegerCodec) (x : Z)
      (le : bool) (dv : DataView.t) (o : Z) :
  Integer.new w signed = Normal c ->
  minValue c <= x <= maxValue c ->
  0 <= o -> o + w <= DataView.byteLength dv ->
  take (Z.to_nat w) (drop (Z.to_nat o) dv)
    = DataView.order le (DataView.le_bytes (Z.to_nat w) x) ->
  Integer.get c le (mkStreamView dv o) = Normal (x, mkStreamView dv (o + w)).
Proof.
  intros Hc Hx Ho Hr Hwin. apply Integer_new_inv in Hc as [Hw ->].
  cbn [minValue maxValue] in Hx.
  unfold Integer.get, Fixed.get. cbn [fixed acc byteLength dataView byteOffset].
  assert (Hb : DataView.in_bounds dv o w = true)
    by (apply in_bounds_spec; unfold DataView.byteLength in Hr; lia).
  assert (Hv : DataView.le_value (DataView.order le
                 (take (Z.to_nat w) (drop (Z.to_nat o) dv))) = x mod 2 ^ (8 * w)).
  { rewrite Hwin, order_involutive, le_value_le_bytes.
    destruct Hw as [-> | [-> | ->]]; reflexivity. }
  destruct signed; unfold DataView.getInt, DataView.getUint; rewrite Hb; cbn [cbind];
    rewrite Hv.
  - assert (Hm : x mod 2 ^ (8 * w) = x \/ x mod 2 ^ (8 * w) = x + 2 ^ (8 * w)).
    { destruct Hw as [-> | [-> | ->]]; simpl in *;
        match goal with |- context [x mod ?m] =>
          pose proof (Z.mod_pos_bound x m ltac:(lia));
          pose proof (Z.div_mod x m ltac:(lia));
          assert (x / m = 0 \/ x / m = -1) by lia end; lia. }
    do 2 f_equal.
    destruct Hw as [-> | [-> | ->]]; simpl in *;
      match goal with |- context [?a <=? ?b] => destruct (Z.leb_spec a b) end; lia.
  - do 2 f_equal. apply Z.mod_small.
    destruct Hw as [-> | [-> | ->]]; simpl in *; lia.
Qed.

(** Decoding what [set] wrote gives the clamped value. *)
Lemma Integer_roundtrip (w : Z) (signed : bool) (c : IntegerCodec) (v : Z)
      (le : bool) (sv : StreamView) :
  Integer.new w signed = Normal c ->
  0 <= byteOffset sv -> byteOffset sv + w <= DataView.byteLength (dataView sv) ->
  exists sv',
    Integer.set c v le sv = Normal (tt, sv') /\
    byteOffset sv' = byteOffset sv + w /\
    length (dataView sv') = length (dataView sv) /\
    Integer.get c le (mkStreamView (dataView sv') (byteOffset sv))
      = Normal (Integer.clamp c v, sv').
Proof.
  intros Hc Ho Hr. eexists. split; [apply (Integer_set_room w signed); assumption|].
  cbn [byteOffset dataView].
  pose proof (Integer_new_inv _ _ _ Hc) as [Hw _].
  assert (Hl : length (DataView.order le (DataView.le_bytes (Z.to_nat w) (Integer.clamp c v)))
               = Z.to_nat w) by (rewrite order_length; apply le_bytes_length).
  unfold DataView.byteLength in Hr.
  assert (Hlen : length (take (Z.to_nat (byteOffset sv)) (dataView sv)
                   ++ DataView.order le (DataView.le_bytes (Z.to_nat w) (Integer.clamp c v))
                   ++ drop (Z.to_nat (byteOffset sv + w)) (dataView sv))
                 = length (dataView sv)).
  { replace (byteOffset sv + w) with
      (byteOffset sv + Z.of_nat (length (DataView.order le
         (DataView.le_bytes (Z.to_nat w) (Integer.clamp c v))))) by lia.
    apply splice_length; lia. }
  split; [reflexivity|]. split; [exact Hlen|].
  apply (Integer_get_window w signed); try assumption.
  - eapply clamp_range; eassumption.
  - unfold DataView.byteLength. rewrite Hlen. lia.
  - rewrite <- Hl at 1.
    replace (byteOffset sv + w) with
      (byteOffset sv + Z.of_nat (length (DataView.order le
         (DataView.le_bytes (Z.to_nat w) (Integer.clamp c v))))) by lia.
    apply splice_window; lia.
Qed.

(** ** Writing and reading byte sequences *)

Lemma writes_ret : writes (ret tt) [].
Proof.
  intros [dv o] Ho Hr; cbn [byteOffset dataView length] in *.
  unfold ret. rewrite Z.add_0_r. simpl. now rewrite take_drop.
Qed.

Lemma writes_bind (m1 m2 : M unit) (bs1 bs2 : list Z) :
  writes m1 bs1 -> writes m2 bs2 -> writes (m1 ;;; m2) (bs1 ++ bs2).
Proof.
  intros H1 H2 [dv o] Ho Hr; cbn [byteOffset dataView] in *.
  unfold DataView.byteLength in *. rewrite length_app, Nat2Z.inj_add in *.
  unfold bind. rewrite H1 by (cbn [byteOffset dataView]; unfold DataView.byteLength; lia).
  cbn [cbind].
  rewrite H2 by (cbn [byteOffset dataView]; unfold DataView.byteLength;
                 rewrite ?splice_length by lia; lia).
  cbn [byteOffset dataView]. do 2 f_equal. f_equal; [|lia].
  replace (Z.to_nat (o + Z.of_nat (length bs1)))
    with (length (take (Z.to_nat o) dv ++ bs1)) at 1
    by (rewrite length_app, length_take; lia).
  rewrite (app_assoc (take (Z.to_nat o) dv) bs1), take_app_length.
  rewrite <- !app_assoc. do 3 f_equal.
  replace (Z.to_nat (o + Z.of_nat (length bs1) + Z.of_nat (length bs2)))
    with (length (take (Z.to_nat o) dv ++ bs1) + length bs2)%nat
    by (rewrite length_app, length_take; lia).
  rewrite (app_assoc (take (Z.to_nat o) dv) bs1), drop_app_add'
    by reflexivity.
  rewrite drop_drop. f_equal. lia.
Qed.

Lemma writes_uint8 (b : Z) (le : bool) :
  0 <= b <= 255 -> writes (Integer.set uint8 b le) [b].
Proof.
  intros Hb sv Ho Hr. cbn [length] in *.
  rewrite (Integer_set_room 1 false) by (try reflexivity; lia).
  rewrite clamp_in_range by (simpl; lia).
  change (DataView.le_bytes (Z.to_nat 1) b) with [b mod 256].
  rewrite (Z.mod_small b 256) by lia.
  now destruct le.
Qed.

Lemma reads_ret {A} (a : A) : reads (ret a) [] a.
Proof. intros dv o _ _ _. unfold ret. cbn [length]. now rewrite Z.add_0_r. Qed.

Lemma reads_bind {A B} (m : M A) (k : A -> M B) (bs1 bs2 : list Z) (a : A) (b : B) :
  reads m bs1 a -> reads (k a) bs2 b -> reads (x <- m ;; k x) (bs1 ++ bs2) b.
Proof.
  intros H1 H2 dv o Ho Hr Hw. unfold DataView.byteLength in *.
  rewrite length_app, Nat2Z.inj_add in *.
  assert (Hw1 : take (length bs1) (drop (Z.to_nat o) dv) = bs1).
  { apply (f_equal (take (length bs1))) in Hw.
    rewrite take_take, take_app_length in Hw.
    now rewrite Nat.min_l in Hw by lia. }
  assert (Hw2 : take (length bs2) (drop (Z.to_nat (o + Z.of_nat (length bs1))) dv) = bs2).
  { apply (f_equal (drop (length bs1))) in Hw.
    rewrite drop_app_length, <- take_drop_commute, drop_drop in Hw.
    now replace (Z.to_nat (o + Z.of_nat (length bs1)))
      with (Z.to_nat o + length bs1)%nat by lia. }
  unfold bind. rewrite H1 by (unfold DataView.byteLength; lia || assumption).
  cbn [cbind]. rewrite H2 by (unfold DataView.byteLength; lia || assumption).
  do 3 f_equal. lia.
Qed.

Lemma reads_cons {A B} (m : M A) (k : A -> M B) (b0 : Z) (bs : list Z) (a : A) (b : B) :
  reads m [b0] a -> reads (k a) bs b -> reads (x <- m ;; k x) (b0 :: bs) b.
Proof. exact (reads_bind m k [b0] bs a b). Qed.

Lemma writes_cons (m1 m2 : M unit) (b0 : Z) (bs : list Z) :
  writes m1 [b0] -> writes m2 bs -> writes (m1 ;;; m2) (b0 :: bs).
Proof. exact (writes_bind m1 m2 [b0] bs). Qed.

Lemma reads_uint8 (b : Z) (le : bool) :
  0 <= b <= 255 -> reads (Integer.get uint8 le) [b] b.
Proof.
  intros Hb dv o Ho Hr Hw. cbn [length] in *.
  apply (Integer_get_window 1 false); try reflexivity; try (simpl; lia).
  change (DataView.le_bytes (Z.to_nat 1) b) with [b mod 256].
  rewrite (Z.mod_small b 256) by lia.
  change (Z.to_nat 1) with 1%nat. rewrite Hw. now destruct le.
Qed.

(** ** The 32-bit operators on the values the varint loops meet *)

Lemma ToInt32_range (n : Z) : - 2 ^ 31 <= ToInt32 n < 2 ^ 31.
Proof. unfold ToInt32. pose proof (Z.mod_pos_bound (n + 2 ^ 31) (2 ^ 32)). lia. Qed.

Lemma ToInt32_small (n : Z) : - 2 ^ 31 <= n < 2 ^ 31 -> ToInt32 n = n.
Proof. intros H. unfold ToInt32. rewrite Z.mod_small; lia. Qed.

Lemma ToInt32_le (n : Z) : 0 <= n -> ToInt32 n <= n.
Proof.
  intros H. unfold ToInt32.
  pose proof (Z.mod_le (n + 2 ^ 31) (2 ^ 32)). lia.
Qed.

Lemma js_and_127 (r : Z) : 0 <= r < 2 ^ 31 -> js_and r 127 = r mod 128.
Proof.
  intros H. unfold js_and. rewrite !ToInt32_small by lia.
  change 127 with (Z.ones 7). now rewrite Z.land_ones by lia.
Qed.

Lemma js_sar_7 (r : Z) : - 2 ^ 31 <= r < 2 ^ 31 -> js_sar r 7 = r / 128.
Proof.
  intros H. unfold js_sar. rewrite ToInt32_small by lia.
  change (7 mod 32) with 7. now rewrite Z.shiftr_div_pow2 by lia.
Qed.

Lemma lor_disjoint (a b k : Z) :
  0 <= k -> 0 <= a < 2 ^ k -> Z.lor a (b * 2 ^ k) = a + b * 2 ^ k.
Proof.
  intros Hk Ha.
  assert (Hl : Z.land a (b * 2 ^ k) = 0).
  { apply Z.bits_inj'. intros n Hn. rewrite Z.land_spec, Z.bits_0.
    destruct (Z.lt_ge_cases n k) as [Hlt | Hge].
    - rewrite Z.mul_pow2_bits_low by assumption. apply andb_false_r.
    - destruct (Z.eq_dec a 0) as [-> | Hnz]; [now rewrite Z.bits_0|].
      rewrite (Z.bits_above_log2 a n); [reflexivity|lia|].
      apply Z.log2_lt_pow2; [lia|].
      eapply Z.lt_le_trans; [apply Ha|]. apply Z.pow_le_mono_r; lia. }
  rewrite Z.add_nocarry_lxor by exact Hl. symmetry. now apply Z.lxor_lor.
Qed.

Lemma js_or_128 (g : Z) : 0 <= g < 128 -> js_or g 128 = g + 128.
Proof.
  intros H. unfold js_or. rewrite !ToInt32_small by lia.
  exact (lor_disjoint g 1 7 ltac:(lia) ltac:(simpl; lia)).
Qed.

Lemma land_128_low (g : Z) : 0 <= g < 128 -> Z.land g 128 = 0.
Proof.
  intros H. rewrite Z.land_comm.
  change 128 with (1 * 2 ^ 7). apply Z.bits_inj'. intros n Hn.
  rewrite Z.land_spec, Z.bits_0.
  destruct (Z.lt_ge_cases n 7) as [Hlt | Hge].
  - now rewrite Z.mul_pow2_bits_low.
  - destruct (Z.eq_dec g 0) as [-> | Hnz]; [rewrite Z.bits_0; apply andb_false_r|].
    rewrite (Z.bits_above_log2 g n); [apply andb_false_r|lia|].
    apply Z.log2_lt_pow2; [lia|].
    eapply Z.lt_le_trans with (2 ^ 7); [simpl; lia|]. apply Z.pow_le_mono_r; lia.
Qed.

Lemma js_and_128_last (g : Z) : 0 <= g < 128 -> js_and g 128 = 0.
Proof.
  intros H. unfold js_and. rewrite !ToInt32_small by lia. now apply land_128_low.
Qed.

Lemma js_and_128_more (g : Z) : 0 <= g < 128 -> js_and (g + 128) 128 <> 0.
Proof.
  intros H. unfold js_and. rewrite !ToInt32_small by lia.
  intros Hz. apply (f_equal (fun x => Z.testbit x 7)) in Hz.
  rewrite Z.land_spec, Z.bits_0 in Hz.
  change (Z.testbit 128 7) with true in Hz. rewrite andb_true_r in Hz.
  assert (Ht : Z.testbit (g + 128) 7 = true).
  { apply Z.testbit_true; [lia|]. change (2 ^ 7) with 128.
    replace ((g + 128) / 128) with 1; [reflexivity|].
    apply Z.div_unique with g; lia. }
  congruence.
Qed.

Lemma js_and_127_byte (g : Z) (more : bool) :
  0 <= g < 128 -> js_and (if more then g + 128 else g) 127 = g.
Proof.
  intros H. rewrite js_and_127 by (destruct more; lia).
  destruct more; [|now apply Z.mod_small].
  symmetry. apply Z.mod_unique with 1; lia.
Qed.

(** ** The variable length codec: what [set] writes *)

Lemma js_and_127_mod (r : Z) : js_and r 127 = ToInt32 r mod 128.
Proof.
  unfold js_and. rewrite (ToInt32_small 127) by lia.
  change 127 with (Z.ones 7). now rewrite Z.land_ones by lia.
Qed.

Lemma js_sar_7_div (r : Z) : js_sar r 7 = ToInt32 r / 128.
Proof. unfold js_sar. change (7 mod 32) with 7. now rewrite Z.shiftr_div_pow2 by lia. Qed.

Lemma js_sar_7_le (r : Z) : 0 <= r -> js_sar r 7 <= r / 128.
Proof.
  intros H. rewrite js_sar_7_div. apply Z.div_le_mono; [lia|]. now apply ToInt32_le.
Qed.

Lemma set_loop_byte_range (r : Z) :
  0 <= (if js_sar r 7 =? 0 then js_and r 127 else js_or (js_and r 127) 128) <= 255.
Proof.
  rewrite js_and_127_mod. pose proof (Z.mod_pos_bound (ToInt32 r) 128 ltac:(lia)).
  destruct (js_sar r 7 =? 0); [lia|]. rewrite js_or_128 by lia. lia.
Qed.

Lemma pow_7_succ (n : nat) : 2 ^ (7 * Z.of_nat (S n)) = 128 * 2 ^ (7 * Z.of_nat n).
Proof.
  replace (7 * Z.of_nat (S n)) with (7 + 7 * Z.of_nat n) by lia.
  now rewrite Z.pow_add_r by lia.
Qed.

Lemma set_loop_next_bound (n : nat) (r : Z) :
  0 < r -> r < 2 ^ (7 * Z.of_nat (S n)) -> js_sar r 7 < 2 ^ (7 * Z.of_nat n).
Proof.
  intros Hr Hb. rewrite pow_7_succ in Hb.
  eapply Z.le_lt_trans; [apply js_sar_7_le; lia|].
  apply Z.div_lt_upper_bound; lia.
Qed.

Lemma set_loop_S (fuel : nat) (r : Z) (le : bool) :
  VariableLength.set_loop (S fuel) r le =
  if 0 <? r then
    Integer.set uint8
      (if js_sar r 7 =? 0 then js_and r 127 else js_or (js_and r 127) 128) le ;;;
    VariableLength.set_loop fuel (js_sar r 7) le
  else ret tt.
Proof. reflexivity. Qed.

Lemma set_loop_bytes_S (fuel : nat) (r : Z) :
  set_loop_bytes (S fuel) r =
  if 0 <? r then
    (if js_sar r 7 =? 0 then js_and r 127 else js_or (js_and r 127) 128)
      :: set_loop_bytes fuel (js_sar r 7)
  else [].
Proof. reflexivity. Qed.

Lemma set_loop_writes (fuel : nat) (r : Z) (le : bool) :
  r < 2 ^ (7 * Z.of_nat fuel) ->
  writes (VariableLength.set_loop fuel r le) (set_loop_bytes fuel r).
Proof.
  revert r; induction fuel as [|n IH]; intros r Hb.
  - cbn [VariableLength.set_loop set_loop_bytes].
    change (2 ^ (7 * Z.of_nat 0)) with 1 in Hb.
    destruct (Z.ltb_spec 0 r); [lia|]. apply writes_ret.
  - cbn [VariableLength.set_loop set_loop_bytes].
    destruct (Z.ltb_spec 0 r) as [Hr|Hr]; [|apply writes_ret].
    apply writes_cons.
    + apply writes_uint8, set_loop_byte_range.
    + apply IH. now apply set_loop_next_bound.
Qed.

Lemma first_remainder_bound (v : Z) : js_sar v 7 < 2 ^ (7 * Z.of_nat 4).
Proof.
  rewrite js_sar_7_div. pose proof (ToInt32_range v).
  apply Z.div_lt_upper_bound; [lia|]. change (128 * 2 ^ (7 * Z.of_nat 4)) with (2 ^ 35). lia.
Qed.

(** [set] stores [varint_bytes value], whatever the value. *)
Lemma VariableLength_set_writes (v : Z) (le : bool) :
  writes (VariableLength.set v le) (varint_bytes v).
Proof.
  unfold VariableLength.set, varint_bytes.
  destruct (v =? 0); [apply writes_uint8; lia|].
  rewrite set_loop_S, set_loop_bytes_S.
  destruct (Z.ltb_spec 0 v) as [Hv|Hv]; [|apply writes_ret].
  apply writes_cons.
  - apply writes_uint8, set_loop_byte_range.
  - apply set_loop_writes, first_remainder_bound.
Qed.

(** Fuel beyond the bound changes nothing. *)
Lemma set_loop_enough (n : nat) (r : Z) (le : bool) (k : nat) :
  r < 2 ^ (7 * Z.of_nat n) ->
  VariableLength.set_loop (n + k) r le = VariableLength.set_loop n r le.
Proof.
  revert r; induction n as [|n IH]; intros r Hb.
  - change (2 ^ (7 * Z.of_nat 0)) with 1 in Hb.
    destruct k; cbn [VariableLength.set_loop Nat.add];
      destruct (Z.ltb_spec 0 r); (lia || reflexivity).
  - change (S n + k)%nat with (S (n + k)). rewrite (set_loop_S (n + k)), (set_loop_S n).
    destruct (Z.ltb_spec 0 r) as [Hr|Hr]; [|reflexivity].
    now rewrite IH by (now apply set_loop_next_bound).
Qed.

Lemma set_loop_total (n : nat) :
  forall (r : Z) (le : bool) (sv : StreamView),
    r < 2 ^ (7 * Z.of_nat n) -> VariableLength.set_loop n r le sv <> Unmodelled.
Proof.
  induction n as [|n IH]; intros r le sv Hb.
  - change (2 ^ (7 * Z.of_nat 0)) with 1 in Hb. cbn [VariableLength.set_loop].
    destruct (Z.ltb_spec 0 r); [lia|discriminate].
  - rewrite set_loop_S. destruct (Z.ltb_spec 0 r) as [Hr|Hr]; [|discriminate].
    unfold bind, Integer.set, Fixed.set, DataView.setInt.
    cbn [fixed uint8 acc dataView byteOffset byteLength].
    destruct (DataView.in_bounds (dataView sv) (byteOffset sv) 1); cbn [cbind];
      [|discriminate].
    apply IH. now apply set_loop_next_bound.
Qed.

(** The fuel of [set] is never used up. *)
Lemma VariableLength_set_total (v : Z) (le : bool) (sv : StreamView) :
  VariableLength.set v le sv <> Unmodelled.
Proof.
  unfold VariableLength.set. destruct (v =? 0).
  - unfold Integer.set, Fixed.set, DataView.setInt.
    cbn [fixed uint8 acc dataView byteOffset byteLength].
    destruct (DataView.in_bounds (dataView sv) (byteOffset sv) 1); discriminate.
  - change 5%nat with (S 4). rewrite set_loop_S.
    destruct (Z.ltb_spec 0 v) as [Hr|Hr]; [|discriminate].
    unfold bind, Integer.set, Fixed.set, DataView.setInt.
    cbn [fixed uint8 acc dataView byteOffset byteLength].
    destruct (DataView.in_bounds (dataView sv) (byteOffset sv) 1); cbn [cbind];
      [|discriminate].
    apply set_loop_total, first_remainder_bound.
Qed.

(** The [while] loop of [set] ends within five iterations. *)
Lemma set_loop_fuel (r : Z) (le : bool) (k : nat) :
  VariableLength.set_loop (5 + k) r le = VariableLength.set_loop 5 r le.
Proof.
  change (5 + k)%nat with (S (4 + k)). rewrite (set_loop_S (4 + k)), (set_loop_S 4).
  destruct (Z.ltb_spec 0 r) as [Hr|Hr]; [|reflexivity].
  now rewrite set_loop_enough by apply first_remainder_bound.
Qed.

(** ** The variable length codec below 2^31: length and decoding *)

Lemma log2_div_128 (r : Z) : 128 <= r -> Z.log2 (r / 128) = Z.log2 r - 7.
Proof.
  intros H. change 128 with (2 ^ 7) at 1. rewrite <- Z.shiftr_div_pow2 by lia.
  rewrite Z.log2_shiftr by lia.
  assert (7 <= Z.log2 r) by (change 7 with (Z.log2 128); apply Z.log2_le_mono; lia).
  lia.
Qed.

Lemma set_loop_bytes_length (fuel : nat) (r : Z) :
  0 < r < 2 ^ 31 -> r < 2 ^ (7 * Z.of_nat fuel) ->
  Z.of_nat (length (set_loop_bytes fuel r)) = - ((- (Z.log2 r + 1)) / 7).
Proof.
  revert r; induction fuel as [|n IH]; intros r Hr Hb.
  - change (2 ^ (7 * Z.of_nat 0)) with 1 in Hb. lia.
  - rewrite set_loop_bytes_S. destruct (Z.ltb_spec 0 r); [|lia].
    rewrite js_sar_7 by lia. cbn [length]. rewrite Nat2Z.inj_succ.
    destruct (Z.lt_ge_cases r 128) as [Hs|Hl].
    + rewrite Z.div_small by lia.
      replace (set_loop_bytes n 0) with (@nil Z) by (destruct n; reflexivity).
      assert (Z.log2 r < 7) by (apply Z.log2_lt_pow2; simpl; lia).
      pose proof (Z.log2_nonneg r). cbn [length]. Z.div_mod_to_equations. lia.
    + assert (Hq : 0 < r / 128) by (apply Z.div_str_pos; lia).
      rewrite pow_7_succ in Hb.
      rewrite IH by (try split; try apply Z.div_lt_upper_bound; lia).
      rewrite log2_div_128 by lia. Z.div_mod_to_equations. lia.
Qed.

(** Up to 2^31 - 1, [set] writes as many bytes as [getByteLength] reports. *)
Lemma varint_bytes_length (v : Z) :
  0 <= v < 2 ^ 31 ->
  VariableLength.getByteLength v = Finite (Z.of_nat (length (varint_bytes v))).
Proof.
  intros Hv. unfold VariableLength.getByteLength, VariableLength.floor_log2, varint_bytes.
  destruct (Z.ltb_spec v 0); [lia|].
  destruct (Z.eqb_spec v 0) as [->|Hnz]; [reflexivity|].
  cbn [VariableLength.succ VariableLength.ceil_div7 VariableLength.max1 VariableLength.times].
  rewrite set_loop_bytes_length by (change (2 ^ (7 * Z.of_nat 5)) with (2 ^ 35); lia).
  change (Integer.getByteLength uint8) with 1.
  pose proof (Z.log2_nonneg v). f_equal. Z.div_mod_to_equations. lia.
Qed.

Lemma get_loop_S (fuel : nat) (i acc byte : Z) (le : bool) :
  VariableLength.get_loop (S fuel) i acc byte le =
  if js_and byte 128 =? 0 then ret acc
  else byte' <- Integer.get uint8 le ;;
       VariableLength.get_loop fuel (i + 1)
         (js_or acc (js_shl (js_and byte' 127) (i * 7))) byte' le.
Proof. reflexivity. Qed.

Lemma get_loop_done (fuel : nat) (i acc byte : Z) (le : bool) :
  js_and byte 128 = 0 -> VariableLength.get_loop fuel i acc byte le = ret acc.
Proof. intros H. destruct fuel; cbn [VariableLength.get_loop]; now rewrite H. Qed.

(** One decoding step adds the group at its place. *)
Lemma get_step (acc g i : Z) (more : bool) :
  0 <= i -> 0 <= acc < 2 ^ (7 * i) -> 0 <= g < 128 ->
  acc + g * 2 ^ (7 * i) < 2 ^ 31 -> 7 * i < 31 ->
  js_or acc (js_shl (js_and (if more then g + 128 else g) 127) (i * 7))
  = acc + g * 2 ^ (7 * i).
Proof.
  intros Hi Hacc Hg Hlt H7.
  rewrite js_and_127_byte by assumption.
  assert (Hp : 0 < 2 ^ (7 * i)) by (apply Z.pow_pos_nonneg; lia).
  assert (Hs : js_shl g (i * 7) = g * 2 ^ (7 * i)).
  { unfold js_shl. rewrite (ToInt32_small g) by lia.
    rewrite Z.mod_small by lia. rewrite Z.shiftl_mul_pow2 by lia.
    replace (i * 7) with (7 * i) by lia. apply ToInt32_small. nia. }
  rewrite Hs. unfold js_or. rewrite !ToInt32_small by nia.
  apply lor_disjoint; lia.
Qed.

Lemma get_loop_reads (n : nat) :
  forall (r i acc byte : Z) (fuel : nat) (le : bool),
    0 < r -> r < 2 ^ (7 * Z.of_nat n) ->
    0 <= i -> 0 <= acc < 2 ^ (7 * i) ->
    acc + r * 2 ^ (7 * i) < 2 ^ 31 ->
    js_and byte 128 <> 0 ->
    (length (set_loop_bytes n r) <= fuel)%nat ->
    reads (VariableLength.get_loop fuel i acc byte le) (set_loop_bytes n r)
      (acc + r * 2 ^ (7 * i)).
Proof.
  induction n as [|n IH]; intros r i acc byte fuel le Hr Hb Hi Hacc Hlt Hbyte Hfuel.
  - change (2 ^ (7 * Z.of_nat 0)) with 1 in Hb. lia.
  - assert (Hp : 0 < 2 ^ (7 * i)) by (apply Z.pow_pos_nonneg; lia).
    assert (Hr31 : r < 2 ^ 31) by nia.
    assert (H7 : 7 * i < 31).
    { apply (Z.pow_lt_mono_r_iff 2); [lia|lia|]. nia. }
    revert Hfuel. rewrite set_loop_bytes_S. destruct (Z.ltb_spec 0 r); [|lia].
    rewrite js_sar_7, js_and_127 by lia. intros Hfuel. cbn [length] in Hfuel.
    destruct fuel as [|fuel]; [lia|]. rewrite get_loop_S.
    destruct (Z.eqb_spec (js_and byte 128) 0) as [|_]; [contradiction|].
    pose proof (Z.mod_pos_bound r 128 ltac:(lia)) as Hg.
    pose proof (Z.div_mod r 128 ltac:(lia)) as Hdm.
    assert (Hq : 0 <= r / 128) by (apply Z.div_pos; lia).
    assert (Hpow : 2 ^ (7 * (i + 1)) = 128 * 2 ^ (7 * i)).
    { replace (7 * (i + 1)) with (7 + 7 * i) by lia. now rewrite Z.pow_add_r by lia. }
    destruct (Z.eqb_spec (r / 128) 0) as [Hz|Hnz].
    + rewrite Hz in *.
      replace (set_loop_bytes n 0) with (@nil Z) by (destruct n; reflexivity).
      eapply reads_cons; [apply reads_uint8; lia|].
      rewrite get_loop_done by (apply js_and_128_last; lia).
      rewrite (get_step acc (r mod 128) i false) by (try assumption; nia).
      replace (acc + r * 2 ^ (7 * i)) with (acc + r mod 128 * 2 ^ (7 * i)) by nia.
      apply reads_ret.
    + rewrite js_or_128 by lia.
      eapply reads_cons; [apply reads_uint8; lia|].
      rewrite (get_step acc (r mod 128) i true) by (try assumption; nia).
      replace (acc + r * 2 ^ (7 * i))
        with ((acc + r mod 128 * 2 ^ (7 * i)) + r / 128 * 2 ^ (7 * (i + 1))) by nia.
      rewrite pow_7_succ in Hb.
      apply IH; try lia; try nia;
        first [now apply js_and_128_more | apply Z.div_lt_upper_bound; lia].
Qed.

(** The fuel of [get] is never used up: every iteration reads a byte or
    throws. *)
Lemma get_loop_total (fuel : nat) :
  forall (i len byte : Z) (le : bool) (dv : DataView.t) (o : Z),
    (1 <= fuel)%nat -> (0 <= o -> Z.of_nat (length dv) - o < Z.of_nat fuel) ->
    VariableLength.get_loop fuel i len byte le (mkStreamView dv o) <> Unmodelled.
Proof.
  induction fuel as [|fuel IH]; intros i len byte le dv o Hf Hlen; [lia|].
  rewrite get_loop_S. destruct (js_and byte 128 =? 0); [discriminate|].
  unfold bind, Integer.get, Fixed.get, DataView.getUint.
  cbn [fixed uint8 acc dataView byteOffset byteLength].
  destruct (DataView.in_bounds dv o 1) eqn:Hb; cbn [cbind]; [|discriminate].
  apply in_bounds_spec in Hb. apply IH; lia.
Qed.

Lemma VariableLength_get_total (le : bool) (sv : StreamView) :
  VariableLength.get le sv <> Unmodelled.
Proof.
  destruct sv as [dv o]. unfold VariableLength.get. cbn [dataView].
  apply get_loop_total; lia.
Qed.

(** Up to 2^31 - 1, [get] decodes what [set] wrote. *)
Lemma VariableLength_get_reads (v : Z) (le : bool) :
  0 <= v < 2 ^ 31 -> reads (VariableLength.get le) (varint_bytes v) v.
Proof.
  intros Hv dv o Ho Hroom Hw. unfold VariableLength.get. cbn [dataView].
  assert (Hfuel : (length (varint_bytes v) <= S (length dv))%nat)
    by (unfold DataView.byteLength in Hroom; lia).
  revert Hfuel Hroom Hw.
  generalize (S (length dv)) as fuel. intros fuel Hfuel Hroom Hw.
  revert dv o Ho Hroom Hw. change (reads (VariableLength.get_loop fuel 0 0 128 le) (varint_bytes v) v).
  assert (H128 : js_and 128 128 <> 0) by (apply (js_and_128_more 0); lia).
  unfold varint_bytes in *. destruct (Z.eqb_spec v 0) as [->|Hnz].
  - destruct fuel as [|fuel]; [cbn [length] in Hfuel; lia|]. rewrite get_loop_S.
    destruct (Z.eqb_spec (js_and 128 128) 0) as [|_]; [contradiction|].
    eapply reads_cons; [apply reads_uint8; lia|].
    rewrite get_loop_done by reflexivity. apply reads_ret.
  - replace v with (0 + v * 2 ^ (7 * 0)) at 2 by (simpl; lia).
    apply get_loop_reads; try assumption; simpl; lia.
Qed.

(* ================================================================== *)
(** * The properties of the specification *)

(** ** Integer codecs: clamping (C5) and the round trip (C10) *)

Lemma clamp_is_clamp_to (c : IntegerCodec) (v : Z) :
  minValue c <= maxValue c ->
  Integer.clamp c v = clamp_to (minValue c) (maxValue c) v.
Proof.
  intros H. unfold Integer.clamp, clamp_to.
  destruct (Z.ltb_spec v (minValue c)); [lia|].
  destruct (Z.ltb_spec (maxValue c) v); lia.
Qed.

Lemma Integer_new_ranges (w : Z) (signed : bool) (c : IntegerCodec) :
  Integer.new w signed = Normal c ->
  minValue c = standard_min (8 * w) signed /\
  maxValue c = standard_max (8 * w) signed /\
  minValue c <= 0 < maxValue c.
Proof.
  intros H. apply Integer_new_inv in H as [Hw ->]. cbn [minValue maxValue].
  unfold standard_min, standard_max. replace (w * 8) with (8 * w) by lia.
  destruct Hw as [-> | [-> | ->]]; destruct signed; simpl; lia.
Qed.

(** C5. For every integer codec (1, 2 or 4 bytes, signed or unsigned), [set]
    clamps its input to [minValue, maxValue], the standard range of the width
    and signedness: it does what it does for the clamped value, and on a view
    with room it succeeds and stores the byte image of the clamped value.
    A signed 8-bit 200 is stored as 127 and an unsigned 8-bit -5 as 0. *)
Theorem integer_set_clamps :
  (forall (w : Z) (signed : bool) (c : IntegerCodec) (v : Z) (le : bool) (sv : StreamView),
      Integer.new w signed = Normal c ->
      minValue c = standard_min (8 * w) signed /\
      maxValue c = standard_max (8 * w) signed /\
      Integer.set c v le sv
        = Integer.set c (clamp_to (minValue c) (maxValue c) v) le sv /\
      (0 <= byteOffset sv ->
       byteOffset sv + w <= DataView.byteLength (dataView sv) ->
       Integer.set c v le sv =
       Normal (tt, mkStreamView
                     (take (Z.to_nat (byteOffset sv)) (dataView sv)
                        ++ DataView.order le
                             (DataView.le_bytes (Z.to_nat w)
                                (clamp_to (minValue c) (maxValue c) v))
                        ++ drop (Z.to_nat (byteOffset sv + w)) (dataView sv))
                     (byteOffset sv + w)))) /\
  encode_with (Integer.set int8 200 false) 1 = encode_with (Integer.set int8 127 false) 1 /\
  encode_with (Integer.set int8 200 false) 1 = Normal ([127], 1) /\
  encode_with (Integer.set uint8 (-5) false) 1 = encode_with (Integer.set uint8 0 false) 1 /\
  encode_with (Integer.set uint8 (-5) false) 1 = Normal ([0], 1) /\
  encode_with (Integer.set uint8 300 false) 1 = Normal ([255], 1).
Proof.
  split; [|repeat split; reflexivity].
  intros w signed c v le sv Hc.
  destruct (Integer_new_ranges _ _ _ Hc) as (Hmin & Hmax & Hle).
  assert (Hcl : Integer.clamp c v = clamp_to (minValue c) (maxValue c) v)
    by (apply clamp_is_clamp_to; lia).
  repeat split; try assumption.
  - unfold Integer.set. rewrite <- Hcl.
    now rewrite (clamp_in_range c (Integer.clamp c v)) by (eapply clamp_range; eassumption).
  - intros Ho Hr. rewrite <- Hcl. now apply (Integer_set_room w signed).
Qed.

Lemma integer_set_clamps_witness :
  Integer.set int16 70000 true (StreamViewOps.create 4)
  = Normal (tt, mkStreamView [255; 127; 0; 0] 2).
Proof.
  destruct integer_set_clamps as [H _].
  destruct (H 2 true int16 70000 true (StreamViewOps.create 4) eq_refl)
    as (_ & _ & _ & Hroom).
  rewrite Hroom by (vm_compute; congruence). reflexivity.
Defined.

(** C10. For every integer codec and every integer [v], reading back what
    [set] wrote gives the clamp of [v] to [minValue, maxValue]; so the round
    trip is the identity exactly on the values in range, and every decoded
    value is in range. *)
Theorem integer_roundtrip_is_clamp (w : Z) (signed : bool) (c : IntegerCodec) (v : Z)
        (le : bool) (sv : StreamView) :
  Integer.new w signed = Normal c ->
  0 <= byteOffset sv -> byteOffset sv + w <= DataView.byteLength (dataView sv) ->
  exists sv' decoded,
    Integer.set c v le sv = Normal (tt, sv') /\
    Integer.get c le (mkStreamView (dataView sv') (byteOffset sv)) = Normal (decoded, sv') /\
    decoded = clamp_to (minValue c) (maxValue c) v /\
    (decoded = v <-> minValue c <= v <= maxValue c) /\
    minValue c <= decoded <= maxValue c.
Proof.
  intros Hc Ho Hr.
  destruct (Integer_roundtrip w signed c v le sv Hc Ho Hr) as (sv' & Hset & _ & _ & Hget).
  destruct (Integer_new_ranges _ _ _ Hc) as (_ & _ & Hle).
  exists sv', (Integer.clamp c v). split; [exact Hset|]. split; [exact Hget|].
  rewrite <- clamp_is_clamp_to by lia.
  pose proof (clamp_range w signed c v Hc) as Hrange.
  split; [reflexivity|]. split; [|exact Hrange].
  split; [intros <-; exact Hrange | apply clamp_in_range].
Qed.

Lemma integer_roundtrip_is_clamp_witness :
  exists sv' decoded,
    Integer.set int8 (-200) false (StreamViewOps.create 1) = Normal (tt, sv') /\
    Integer.get int8 false (mkStreamView (dataView sv') 0) = Normal (decoded, sv') /\
    decoded = clamp_to (-128) 127 (-200) /\
    (decoded = -200 <-> -128 <= -200 <= 127) /\
    -128 <= decoded <= 127.
Proof.
  apply (integer_roundtrip_is_clamp 1 true int8 (-200) false (StreamViewOps.create 1));
    [reflexivity | simpl; lia | vm_compute; congruence].
Defined.

(** ** The variable length codec: byte length (C6) *)

(** [bitsNeeded] is the position of the highest set bit plus one. *)
Lemma bitsNeeded_highest_bit (v : Z) :
  0 < v ->
  Z.testbit v (bitsNeeded v - 1) = true /\
  forall i, bitsNeeded v <= i -> Z.testbit v i = false.
Proof.
  intros Hv. unfold bitsNeeded. destruct (Z.eqb_spec v 0); [lia|].
  replace (Z.log2 v + 1 - 1) with (Z.log2 v) by lia.
  split; [now apply Z.bit_log2|].
  intros i Hi. apply Z.bits_above_log2; lia.
Qed.

Lemma getByteLength_formula (value : Z) :
  0 <= value ->
  VariableLength.getByteLength value = Finite (Z.max 1 (ceil_div (bitsNeeded value) 7)).
Proof.
  intros Hv. unfold VariableLength.getByteLength, VariableLength.floor_log2, bitsNeeded, ceil_div.
  destruct (Z.ltb_spec value 0); [lia|].
  destruct (Z.eqb_spec value 0) as [->|Hnz]; [reflexivity|].
  cbn [VariableLength.succ VariableLength.ceil_div7 VariableLength.max1 VariableLength.times].
  change (Integer.getByteLength uint8) with 1.
  pose proof (Z.log2_nonneg value). f_equal. Z.div_mod_to_equations. lia.
Qed.

(** C6. [getByteLength(value)] is max(1, ceil(bitsNeeded(value) / 7)) for
    every non-negative value. At zero the logarithm is [-Infinity] and
    [Math.max(..., 1)] still makes the result exactly 1. The five lengths the
    specification lists hold. *)
Theorem varint_getByteLength :
  (forall value : Z,
      0 <= value ->
      VariableLength.getByteLength value
      = Finite (Z.max 1 (ceil_div (bitsNeeded value) 7))) /\
  VariableLength.floor_log2 0 = NegInfinity /\
  VariableLength.getByteLength 0 = Finite 1 /\
  VariableLength.getByteLength 127 = Finite 1 /\
  VariableLength.getByteLength 128 = Finite 2 /\
  VariableLength.getByteLength 16383 = Finite 2 /\
  VariableLength.getByteLength 16384 = Finite 3.
Proof. split; [exact getByteLength_formula | repeat split; reflexivity]. Qed.

Lemma varint_getByteLength_witness :
  VariableLength.getByteLength 2097152 = Finite (Z.max 1 (ceil_div (bitsNeeded 2097152) 7)).
Proof. apply (proj1 varint_getByteLength 2097152). lia. Defined.

(** ** The variable length codec: the round trip (C1) *)

Lemma create_length (n : Z) : 0 <= n -> DataView.byteLength (DataView.create n) = n.
Proof.
  intros H. unfold DataView.byteLength, DataView.create. rewrite repeat_length. lia.
Qed.

(** Writing exactly [length bs] bytes into a fresh view of that size. *)
Lemma encode_with_writes (m : M unit) (bs : list Z) :
  writes m bs ->
  encode_with m (Z.of_nat (length bs)) = Normal (bs, Z.of_nat (length bs)).
Proof.
  intros H. unfold encode_with, StreamViewOps.create.
  rewrite H by (cbn [byteOffset dataView]; rewrite ?create_length; lia).
  cbn [cbind byteOffset dataView]. do 2 f_equal.
  rewrite take_0, Z.add_0_l, Nat2Z.id. cbn [app].
  rewrite drop_ge by (unfold DataView.create; rewrite repeat_length; lia).
  apply app_nil_r.
Qed.

Lemma decode_with_reads {A} (m : M A) (bs : list Z) (a : A) :
  reads m bs a -> decode_with m bs = Normal a.
Proof.
  intros H. unfold decode_with.
  rewrite H; [reflexivity | lia | unfold DataView.byteLength; lia |].
  cbn [Z.to_nat drop]. rewrite drop_0. apply take_ge. lia.
Qed.

(** Below 2^31 the codec round-trips and writes [getByteLength] bytes. *)
Lemma varint_roundtrip_below_2_31 (v : Z) (le : bool) :
  0 <= v < 2 ^ 31 ->
  exists n,
    VariableLength.getByteLength v = Finite n /\
    encode_with (VariableLength.set v le) n = Normal (varint_bytes v, n) /\
    decode_with (VariableLength.get le) (varint_bytes v) = Normal v.
Proof.
  intros Hv. exists (Z.of_nat (length (varint_bytes v))).
  split; [now apply varint_bytes_length|]. split.
  - apply encode_with_writes, VariableLength_set_writes.
  - now apply decode_with_reads, VariableLength_get_reads.
Qed.

(** C1, at 2^31 and at 2^32 - 1. [getByteLength] reports five bytes, [set]
    writes one byte with the continuation flag set and stops, because
    [remainder >>= 7] is a signed 32-bit shift and leaves a negative
    remainder; decoding the five-byte buffer of [stringify] gives 0 (or 127),
    and decoding the written byte alone runs off the end of the view. *)
Theorem varint_roundtrip_stops_at_2_31 :
  VariableLength.getByteLength (2 ^ 31) = Finite 5 /\
  encode_with (VariableLength.set (2 ^ 31) false) 5 = Normal ([128; 0; 0; 0; 0], 1) /\
  decode_with (VariableLength.get false) [128; 0; 0; 0; 0] = Normal 0 /\
  decode_with (VariableLength.get false) [128] = Throw RangeError /\
  VariableLength.getByteLength (2 ^ 32 - 1) = Finite 5 /\
  encode_with (VariableLength.set (2 ^ 32 - 1) false) 5 = Normal ([255; 0; 0; 0; 0], 1) /\
  decode_with (VariableLength.get false) [255; 0; 0; 0; 0] = Normal 127.
Proof. repeat split; reflexivity. Qed.

(** ** Out of range accesses (C9) *)

Lemma out_of_bounds (dv : DataView.t) (o w : Z) :
  DataView.byteLength dv < o + w -> DataView.in_bounds dv o w = false.
Proof.
  intros H. unfold DataView.in_bounds.
  destruct (Z.leb_spec (o + w) (DataView.byteLength dv)); [lia|apply andb_false_r].
Qed.

(** C9. A read or write of a fixed length codec whose cursor plus access
    width exceeds the capacity of the view throws [RangeError]: no value is
    returned and nothing is stored. It holds for every accessor, for every
    integer codec, and a 4-byte integer read with fewer than 4 bytes left
    throws. *)
Theorem access_past_capacity_throws :
  (forall (c : FixedLengthCodec) (value : Z) (le : bool) (sv : StreamView),
      DataView.byteLength (dataView sv) < byteOffset sv + accessor_width (acc c) ->
      Fixed.get c le sv = Throw RangeError /\
      Fixed.set c value le sv = Throw RangeError) /\
  (forall (w : Z) (signed : bool) (c : IntegerCodec) (value : Z) (le : bool) (sv : StreamView),
      Integer.new w signed = Normal c ->
      DataView.byteLength (dataView sv) < byteOffset sv + w ->
      Integer.get c le sv = Throw RangeError /\
      Integer.set c value le sv = Throw RangeError) /\
  (forall (dv : DataView.t) (o : Z) (le : bool),
      DataView.byteLength dv - o < 4 ->
      Integer.get int32 le (mkStreamView dv o) = Throw RangeError /\
      Integer.get uint32 le (mkStreamView dv o) = Throw RangeError).
Proof.
  assert (Hfixed : forall (c : FixedLengthCodec) (value : Z) (le : bool) (sv : StreamView),
      DataView.byteLength (dataView sv) < byteOffset sv + accessor_width (acc c) ->
      Fixed.get c le sv = Throw RangeError /\
      Fixed.set c value le sv = Throw RangeError).
  { intros [n a] value le sv H. cbn [acc] in H. unfold Fixed.get, Fixed.set. cbn [acc].
    destruct a as [w|w|w]; cbn [accessor_width] in H;
      unfold DataView.getInt, DataView.getUint, DataView.setInt;
      rewrite (out_of_bounds _ _ _ H); split; reflexivity. }
  split; [exact Hfixed|]. split.
  - intros w signed c value le sv Hc H. apply Integer_new_inv in Hc as [_ ->].
    unfold Integer.get, Integer.set. cbn [fixed].
    set (f := mkFixed w (if signed then AccInt w else AccUint w)).
    assert (Hw : DataView.byteLength (dataView sv) < byteOffset sv + accessor_width (acc f))
      by (destruct signed; exact H).
    split; [exact (proj1 (Hfixed f 0 le sv Hw)) | exact (proj2 (Hfixed f _ le sv Hw))].
  - intros dv o le H.
    split; unfold Integer.get;
      refine (proj1 (Hfixed _ 0 le (mkStreamView dv o) _)); simpl; lia.
Qed.

Lemma access_past_capacity_throws_witness :
  Integer.get int32 false (mkStreamView [1; 2; 3; 4; 5; 6] 3) = Throw RangeError /\
  Integer.set uint16 7 true (mkStreamView [1; 2; 3] 2) = Throw RangeError.
Proof.
  destruct access_past_capacity_throws as (_ & Hint & H4).
  split.
  - apply (H4 [1; 2; 3; 4; 5; 6] 3 false). vm_compute. reflexivity.
  - apply (Hint 2 false uint16 7 true (mkStreamView [1; 2; 3] 2) eq_refl).
    vm_compute. reflexivity.
Defined.

(** ** The boolean array codec (C8) *)

Lemma bits_value_range (flags : list bool) :
  0 <= bits_value flags < 2 ^ Z.of_nat (length flags).
Proof.
  induction flags as [|b r IH]; [simpl; lia|].
  cbn [bits_value length]. rewrite Nat2Z.inj_succ, Z.pow_succ_r by lia.
  destruct b; lia.
Qed.

Lemma bits_value_snoc (flags : list bool) (b : bool) :
  bits_value (flags ++ [b])
  = bits_value flags + (if b then 1 else 0) * 2 ^ Z.of_nat (length flags).
Proof.
  induction flags as [|a r IH]; [simpl; destruct b; reflexivity|].
  cbn [app bits_value length]. rewrite IH, Nat2Z.inj_succ, Z.pow_succ_r by lia. lia.
Qed.

Lemma bits_value_testbit (flags : list bool) (k : nat) :
  Z.testbit (bits_value flags) (Z.of_nat k) = nth k flags false.
Proof.
  revert k; induction flags as [|b r IH]; intros k.
  - simpl. rewrite Z.bits_0. now destruct k.
  - cbn [bits_value]. destruct k as [|k].
    + cbn [nth]. change (Z.of_nat 0) with 0. destruct b.
      * rewrite Z.add_comm. apply Z.testbit_odd_0.
      * rewrite Z.add_0_l. apply Z.testbit_even_0.
    + cbn [nth]. rewrite Nat2Z.inj_succ, <- IH. destruct b.
      * rewrite Z.add_comm. apply Z.testbit_odd_succ. lia.
      * rewrite Z.add_0_l. apply Z.testbit_even_succ. lia.
Qed.

(** [pack] one byte at a time. *)
Lemma chunks_cons (n : nat) : ((S n + 7) / 8 = S ((S n - 8 + 7) / 8))%nat.
Proof.
  destruct (Nat.le_gt_cases 8 (S n)) as [H|H].
  - replace (S n + 7)%nat with ((S n - 8 + 7) + 1 * 8)%nat by lia.
    rewrite Nat.div_add by lia. lia.
  - replace (S n - 8)%nat with 0%nat by lia.
    rewrite (Nat.div_small (0 + 7) 8) by lia.
    symmetry. apply (Nat.div_unique _ _ _ n); lia.
Qed.

Lemma pack_nil : pack [] = [].
Proof. reflexivity. Qed.

Lemma pack_cons (v : bool) (rest : list bool) :
  pack (v :: rest) = bits_value (take 8 (v :: rest)) :: pack (drop 8 (v :: rest)).
Proof.
  unfold pack. cbn [length]. rewrite chunks_cons.
  rewrite <- cons_seq, <- seq_shift, map_cons, map_map.
  f_equal.
  rewrite length_drop. cbn [length]. apply map_ext. intros j.
  rewrite drop_drop. do 3 f_equal. lia.
Qed.

Lemma pack_length (values : list bool) :
  Z.of_nat (length (pack values)) = - ((- Z.of_nat (length values)) / 8).
Proof.
  unfold pack. rewrite length_map, length_seq.
  rewrite Nat2Z.inj_div, Nat2Z.inj_add. change (Z.of_nat 7) with 7. change (Z.of_nat 8) with 8.
  Z.div_mod_to_equations. lia.
Qed.

Lemma pack_small (flags : list bool) :
  flags <> [] -> (length flags <= 8)%nat -> pack flags = [bits_value flags].
Proof.
  intros Hne Hlen. destruct flags as [|v rest]; [contradiction|].
  rewrite pack_cons, take_ge, drop_ge by lia. reflexivity.
Qed.

Lemma pack_full (flags rest : list bool) :
  length flags = 8%nat -> rest <> [] ->
  pack (flags ++ rest) = bits_value flags :: pack rest.
Proof.
  intros Hlen Hne. destruct flags as [|v flags']; [discriminate|].
  change ((v :: flags') ++ rest) with (v :: (flags' ++ rest)).
  rewrite pack_cons. change (v :: (flags' ++ rest)) with ((v :: flags') ++ rest).
  now rewrite (take_app_length' (v :: flags')), (drop_app_length' (v :: flags')) by (symmetry; exact Hlen).
Qed.

(** The operators of the packing loop. *)
Lemma flag_or (byte bit : Z) (v : bool) :
  0 <= bit < 8 -> 0 <= byte < 2 ^ bit ->
  js_or byte (js_shl (if v then 1 else 0) bit) = byte + (if v then 1 else 0) * 2 ^ bit.
Proof.
  intros Hbit Hbyte.
  assert (Hp : 0 < 2 ^ bit <= 2 ^ 7) by (split; [|apply Z.pow_le_mono_r]; lia).
  change (2 ^ 7) with 128 in Hp.
  assert (Hs : js_shl (if v then 1 else 0) bit = (if v then 1 else 0) * 2 ^ bit).
  { unfold js_shl. rewrite (ToInt32_small (if v then 1 else 0)) by (destruct v; lia).
    rewrite Z.mod_small by lia. rewrite Z.shiftl_mul_pow2 by lia.
    apply ToInt32_small. destruct v; lia. }
  rewrite Hs. unfold js_or. rewrite !ToInt32_small by (destruct v; lia).
  apply lor_disjoint; lia.
Qed.

(** The loop, with [pending] the flags already gathered in [byte]. *)
Lemma flag_bytes_pack (values pending : list bool) :
  (length pending <= 8)%nat ->
  flag_bytes values (bits_value pending) (Z.of_nat (length pending))
  = pack (pending ++ values).
Proof.
  revert pending; induction values as [|v rest IH]; intros pending Hlen.
  - cbn [flag_bytes]. rewrite app_nil_r.
    destruct pending as [|p pending']; [reflexivity|].
    destruct (Z.ltb_spec 0 (Z.of_nat (length (p :: pending')))) as [_|H];
      [|cbn [length] in H; lia].
    symmetry. now apply pack_small.
  - cbn [flag_bytes].
    destruct (Z.eqb_spec (Z.of_nat (length pending)) 8) as [H8|H8].
    + rewrite pack_full by (lia || discriminate). f_equal.
      rewrite (flag_or 0 0 v) by (simpl; lia).
      replace (0 + (if v then 1 else 0) * 2 ^ 0) with (bits_value [v])
        by (destruct v; reflexivity).
      exact (IH [v] ltac:(simpl; lia)).
    + pose proof (bits_value_range pending).
      rewrite flag_or by lia.
      rewrite <- bits_value_snoc.
      replace (Z.of_nat (length pending) + 1) with (Z.of_nat (length (pending ++ [v])))
        by (rewrite length_app; simpl; lia).
      rewrite IH by (rewrite length_app; simpl; lia).
      now rewrite <- app_assoc.
Qed.

Lemma flag_bytes_writes (values : list bool) (byte bit : Z) (le : bool) :
  0 <= bit <= 8 -> 0 <= byte < 2 ^ bit ->
  writes (BooleanArray.set_loop values byte bit le) (flag_bytes values byte bit).
Proof.
  revert byte bit; induction values as [|v rest IH]; intros byte bit Hbit Hbyte.
  - cbn [BooleanArray.set_loop flag_bytes].
    assert (2 ^ bit <= 2 ^ 8) by (apply Z.pow_le_mono_r; lia).
    destruct (0 <? bit); [apply writes_uint8; simpl in *; lia | apply writes_ret].
  - cbn [BooleanArray.set_loop flag_bytes].
    assert (Hp : 2 ^ bit <= 2 ^ 8) by (apply Z.pow_le_mono_r; lia).
    destruct (Z.eqb_spec bit 8) as [->|Hne].
    + apply writes_cons; [apply writes_uint8; simpl in *; lia|].
      apply IH; [lia|]. rewrite (flag_or 0 0 v) by (simpl; lia). destruct v; simpl; lia.
    + apply IH; [lia|]. rewrite flag_or by lia.
      rewrite Z.pow_add_r by lia. destruct v; lia.
Qed.

(** [set] stores the count and then the packed flags. *)
Lemma BooleanArray_set_writes (values : list bool) (le : bool) :
  writes (BooleanArray.set values le)
    (varint_bytes (Z.of_nat (length values)) ++ pack values).
Proof.
  unfold BooleanArray.set. apply writes_bind; [apply VariableLength_set_writes|].
  change (pack values) with (pack ([] ++ values)).
  rewrite <- (flag_bytes_pack values []) by (simpl; lia).
  apply flag_bytes_writes; simpl; lia.
Qed.

Lemma flag_test (byte bit : Z) :
  0 <= byte < 256 -> 0 <= bit < 8 ->
  negb (js_and (js_sar byte bit) 1 =? 0) = Z.testbit byte bit.
Proof.
  intros Hbyte Hbit. unfold js_sar. rewrite ToInt32_small, Z.mod_small by lia.
  assert (Hs : 0 <= Z.shiftr byte bit <= byte).
  { rewrite Z.shiftr_div_pow2 by lia.
    assert (0 < 2 ^ bit) by (apply Z.pow_pos_nonneg; lia).
    split; [apply Z.div_pos; lia|]. apply Z.div_le_upper_bound; nia. }
  unfold js_and. rewrite !ToInt32_small by lia.
  change 1 with (Z.ones 1) at 1. rewrite Z.land_ones by lia. change (2 ^ 1) with 2.
  rewrite <- Z.bit0_mod, Z.shiftr_spec, Z.add_0_l by lia.
  now destruct (Z.testbit byte bit).
Qed.

Lemma get_bits_chunk (chunk : list bool) :
  forall (pre : list bool) (fuel : nat) (i n : Z),
    (fuel + length pre = 8)%nat ->
    (length pre + length chunk <= 8)%nat ->
    (length pre + length chunk = 8)%nat \/ i + Z.of_nat (length chunk) = n ->
    i + Z.of_nat (length chunk) <= n ->
    BooleanArray.get_bits fuel (bits_value (pre ++ chunk)) (Z.of_nat (length pre)) i n
    = (chunk, i + Z.of_nat (length chunk)).
Proof.
  induction chunk as [|b chunk IH]; intros pre fuel i n Hfuel Hlen Hstop Hn.
  - cbn [length] in *. rewrite Z.add_0_r.
    destruct fuel as [|fuel]; [reflexivity|]. cbn [BooleanArray.get_bits].
    destruct Hstop as [H|H]; [lia|].
    destruct (Z.ltb_spec i n); [lia|]. now rewrite andb_false_r.
  - cbn [length] in *. destruct fuel as [|fuel]; [lia|]. cbn [BooleanArray.get_bits].
    destruct (Z.ltb_spec (Z.of_nat (length pre)) 8); [|lia].
    destruct (Z.ltb_spec i n); [|lia]. cbn [andb].
    pose proof (bits_value_range (pre ++ b :: chunk)) as Hr.
    assert (Hp : 2 ^ Z.of_nat (length (pre ++ b :: chunk)) <= 2 ^ 8)
      by (apply Z.pow_le_mono_r; [lia|]; rewrite length_app; cbn [length]; lia).
    rewrite flag_test by (simpl in *; lia).
    rewrite bits_value_testbit, app_nth2, Nat.sub_diag by lia. cbn [nth].
    replace (pre ++ b :: chunk) with ((pre ++ [b]) ++ chunk) by now rewrite <- app_assoc.
    replace (Z.of_nat (length pre) + 1) with (Z.of_nat (length (pre ++ [b])))
      by (rewrite length_app; simpl; lia).
    rewrite IH by (rewrite ?length_app; simpl; lia).
    f_equal. lia.
Qed.

Lemma reads_map {A B} (m : M A) (f : A -> B) (bs : list Z) (a : A) :
  reads m bs a -> reads (x <- m ;; ret (f x)) bs (f a).
Proof.
  intros H. rewrite <- (app_nil_r bs). eapply reads_bind; [exact H|apply reads_ret].
Qed.

Lemma get_bytes_reads (m : nat) :
  forall (values : list bool) (i n : Z) (le : bool),
    (length values <= m)%nat -> 0 <= i -> i + Z.of_nat (length values) = n ->
    reads (BooleanArray.get_bytes (length (pack values)) i n le) (pack values) values.
Proof.
  induction m as [|m IH]; intros values i n le Hm Hi Hn.
  - destruct values; [|simpl in Hm; lia]. apply reads_ret.
  - destruct values as [|v rest]; [apply reads_ret|].
    rewrite pack_cons. cbn [length BooleanArray.get_bytes].
    set (chunk := take 8 (v :: rest)). set (tail := drop 8 (v :: rest)).
    assert (Hsplit : v :: rest = chunk ++ tail) by (symmetry; apply take_drop).
    assert (Hc : (length chunk <= 8)%nat) by (unfold chunk; rewrite length_take; lia).
    assert (Ht : length tail = (length (v :: rest) - 8)%nat) by apply length_drop.
    assert (Hct : (length chunk = 8)%nat \/ tail = []).
    { unfold chunk, tail. rewrite length_take.
      destruct (Nat.le_gt_cases 8 (length (v :: rest))); [left; lia|].
      right. apply drop_ge. lia. }
    assert (Hl : length (v :: rest) = (length chunk + length tail)%nat)
      by (rewrite Hsplit at 1; apply length_app).
    pose proof (bits_value_range chunk) as Hr.
    assert (Hp : 2 ^ Z.of_nat (length chunk) <= 2 ^ 8) by (apply Z.pow_le_mono_r; lia).
    change (2 ^ 8) with 256 in Hp.
    eapply reads_cons; [apply reads_uint8; lia|].
    pose proof (get_bits_chunk chunk [] 8 i n) as Hbits.
    cbn [app length] in Hbits. change (Z.of_nat 0) with 0 in Hbits.
    rewrite Hbits; cycle 1.
    + reflexivity.
    + lia.
    + destruct Hct as [H8|Hnil]; [left; exact H8|right].
      rewrite Hnil in Hl. change (length (@nil bool)) with 0%nat in Hl. lia.
    + lia.
    + rewrite Hsplit. apply (reads_map _ (fun rest0 => chunk ++ rest0)). apply IH.
      * cbn [length] in Hm. cbn [length] in Ht. lia.
      * lia.
      * lia.
Qed.

(** With fewer than 2^31 elements, [get] returns the list [set] was given. *)
Lemma BooleanArray_get_reads (values : list bool) (le : bool) :
  Z.of_nat (length values) < 2 ^ 31 ->
  reads (BooleanArray.get le)
    (varint_bytes (Z.of_nat (length values)) ++ pack values) values.
Proof.
  intros Hlen. unfold BooleanArray.get.
  eapply reads_bind; [apply VariableLength_get_reads; lia|].
  rewrite <- pack_length, Nat2Z.id.
  apply (get_bytes_reads (length values)); lia.
Qed.

Lemma pack_bit (values : list bool) (i : nat) :
  (i < length values)%nat ->
  Z.testbit (nth (i / 8) (pack values) 0) (Z.of_nat (i mod 8)) = nth i values false.
Proof.
  intros Hi. unfold pack.
  assert (Hj : (i / 8 < (length values + 7) / 8)%nat).
  { apply Nat.Div0.div_lt_upper_bound.
    pose proof (Nat.div_mod_eq (length values + 7) 8).
    pose proof (Nat.mod_upper_bound (length values + 7) 8). lia. }
  set (f := fun j : nat => bits_value (take 8 (drop (8 * j) values))).
  rewrite (nth_indep _ 0 (f 0%nat)) by (rewrite length_map, length_seq; exact Hj).
  rewrite map_nth, seq_nth by exact Hj. unfold f. cbn [Nat.add].
  rewrite bits_value_testbit.
  pose proof (Nat.mod_upper_bound i 8 ltac:(lia)) as Hm.
  pose proof (Nat.div_mod_eq i 8) as Hd.
  rewrite nth_firstn. destruct (Nat.ltb_spec (i mod 8) 8); [|lia].
  rewrite nth_skipn. f_equal. lia.
Qed.

Lemma ceil_div_8 (n : Z) : - ((- n) / 8) = ceil_div n 8.
Proof. unfold ceil_div. Z.div_mod_to_equations. lia. Qed.

Lemma BooleanArray_getByteLength_formula (values : list bool) :
  BooleanArray.getByteLength values
  = Finite (Z.max 1 (ceil_div (bitsNeeded (Z.of_nat (length values))) 7)
            + ceil_div (Z.of_nat (length values)) 8).
Proof.
  unfold BooleanArray.getByteLength. rewrite getByteLength_formula by lia.
  change (Integer.getByteLength uint8) with 1. rewrite ceil_div_8. f_equal. lia.
Qed.

(** What holds of the boolean array codec. For every list of booleans [set]
    stores the variable length count and then exactly ceil(count / 8) bytes
    in which element [i] is bit [i mod 8] of byte [i / 8]; [getByteLength] is
    the length of the count plus ceil(count / 8). When the count is below
    2^31 (the range in which the count prefix itself round-trips), [set]
    fills a view of [getByteLength] bytes exactly and [get] returns the
    original list, so the padding bits of the last byte are dropped. Nine
    booleans take two bytes of flags. *)
Lemma boolean_array_codec (values : list bool) (le : bool) :
  writes (BooleanArray.set values le)
    (varint_bytes (Z.of_nat (length values)) ++ pack values) /\
  Z.of_nat (length (pack values)) = ceil_div (Z.of_nat (length values)) 8 /\
  (forall i : nat,
      (i < length values)%nat ->
      Z.testbit (nth (i / 8) (pack values) 0) (Z.of_nat (i mod 8)) = nth i values false) /\
  BooleanArray.getByteLength values
  = Finite (Z.max 1 (ceil_div (bitsNeeded (Z.of_nat (length values))) 7)
            + ceil_div (Z.of_nat (length values)) 8) /\
  (Z.of_nat (length values) < 2 ^ 31 ->
   let bytes := varint_bytes (Z.of_nat (length values)) ++ pack values in
   BooleanArray.getByteLength values = Finite (Z.of_nat (length bytes)) /\
   encode_with (BooleanArray.set values le) (Z.of_nat (length bytes))
   = Normal (bytes, Z.of_nat (length bytes)) /\
   decode_with (BooleanArray.get le) bytes = Normal values) /\
  (length values = 9%nat -> length (pack values) = 2%nat).
Proof.
  split; [apply BooleanArray_set_writes|].
  split; [rewrite pack_length; apply ceil_div_8|].
  split; [intros i Hi; now apply pack_bit|].
  split; [apply BooleanArray_getByteLength_formula|].
  split.
  - intros Hlen bytes. split; [|split].
    + unfold BooleanArray.getByteLength, bytes.
      rewrite varint_bytes_length by lia.
      change (Integer.getByteLength uint8) with 1.
      rewrite length_app, Nat2Z.inj_add, pack_length. f_equal. lia.
    + apply encode_with_writes, BooleanArray_set_writes.
    + now apply decode_with_reads, BooleanArray_get_reads.
  - intros H9. apply Nat2Z.inj. rewrite pack_length, H9. reflexivity.
Qed.

Lemma boolean_array_codec_witness :
  let values := [true; false; true; true; false; false; true; false; true] in
  encode_with (BooleanArray.set values false) 3 = Normal ([9; 77; 1], 3) /\
  decode_with (BooleanArray.get false) [9; 77; 1] = Normal values /\
  length (pack values) = 2%nat.
Proof.
  intros values.
  destruct (boolean_array_codec values false) as (_ & _ & _ & _ & Hround & Hnine).
  destruct (Hround ltac:(vm_compute; reflexivity)) as (_ & Henc & Hdec).
  split; [exact Henc|]. split; [exact Hdec|]. apply Hnine. reflexivity.
Defined.

(** ** The string codec (C7) *)

Lemma encodeCodePoint_length (cp : Z) :
  Z.of_nat (length (utf8.encodeCodePoint cp)) = utf8_size cp.
Proof.
  unfold utf8.encodeCodePoint, utf8_size.
  destruct (cp <? 128); [reflexivity|].
  destruct (cp <? 2048); [reflexivity|].
  destruct (cp <? 65536); reflexivity.
Qed.

Lemma utf8_encode_length (s : list Z) :
  Z.of_nat (length (utf8.encode s)) = utf8_length s.
Proof.
  induction s as [|cp rest IH]; [reflexivity|].
  unfold utf8.encode in *. cbn [flat_map utf8_length].
  rewrite length_app, Nat2Z.inj_add, IH. now rewrite encodeCodePoint_length.
Qed.

Lemma utf8_size_pos (cp : Z) : 1 <= utf8_size cp.
Proof.
  unfold utf8_size. destruct (cp <? 128); [lia|].
  destruct (cp <? 2048); [lia|]. destruct (cp <? 65536); lia.
Qed.

Lemma utf8_size_multibyte (cp : Z) : 128 <= cp -> 1 < utf8_size cp.
Proof.
  intros H. unfold utf8_size. destruct (Z.ltb_spec cp 128); [lia|].
  destruct (cp <? 2048); [lia|]. destruct (cp <? 65536); lia.
Qed.

Lemma utf8_length_ge (s : list Z) : Z.of_nat (length s) <= utf8_length s.
Proof.
  induction s as [|cp rest IH]; [reflexivity|].
  cbn [length utf8_length]. pose proof (utf8_size_pos cp). lia.
Qed.

Lemma utf8_length_multibyte (s : list Z) :
  Exists (fun cp => 128 <= cp) s -> Z.of_nat (length s) < utf8_length s.
Proof.
  induction 1 as [cp rest H | cp rest _ IH]; cbn [length utf8_length].
  - pose proof (utf8_size_multibyte cp H). pose proof (utf8_length_ge rest). lia.
  - pose proof (utf8_size_pos cp). lia.
Qed.

Lemma String_getByteLength (s : list Z) :
  getByteLength StringCodec (VString s)
  = Normal (Z.max 1 (ceil_div (bitsNeeded (utf8_length s)) 7) + utf8_length s).
Proof.
  cbn [getByteLength truthy]. destruct s as [|cp rest]; [reflexivity|].
  rewrite utf8_encode_length.
  assert (0 <= utf8_length (cp :: rest))
    by (pose proof (utf8_length_ge (cp :: rest)); lia).
  rewrite getByteLength_formula by assumption.
  cbn [number_length cbind]. change (Integer.getByteLength uint8) with 1.
  f_equal. lia.
Qed.

(** The earlier revision prefixes strings with a uint32, [set] writes the
    zero length as four zero bytes. *)
Lemma Legacy_writes_zero_length (le : bool) :
  writes (Integer.set Legacy.lengthCodec 0 le) [0; 0; 0; 0].
Proof.
  intros sv Ho Hr. cbn [length] in *.
  rewrite (Integer_set_room 4 false) by (try reflexivity; lia).
  now destruct le.
Qed.

Lemma Legacy_String_getByteLength (s : list Z) :
  Legacy.getByteLength Legacy.StringCodec (VString s) = Normal (4 + utf8_length s).
Proof.
  cbn [Legacy.getByteLength]. rewrite utf8_encode_length.
  change (byteLength (fixed Legacy.lengthCodec)) with 4.
  change (byteLength (fixed uint8)) with 1. f_equal. lia.
Qed.

(** The earlier revision: the empty string takes four zero bytes, and
    [getByteLength] of an absent value throws. *)
Lemma Legacy_string_empty :
  Legacy.getByteLength Legacy.StringCodec (VString []) = Normal 4 /\
  encode_with (Legacy.set Legacy.StringCodec (VString []) false) 4
  = Normal ([0; 0; 0; 0], 4) /\
  Legacy.getByteLength Legacy.StringCodec VUndefined = Throw TypeError.
Proof. repeat split; reflexivity. Qed.

(** C7, at the earlier revision's [getByteLength(undefined)], reached by
    [stringify({})] on a definition with a string field.
    The current file does what is claimed: the empty and the absent string
    are encoded as the single byte 0, the zero count, with no data bytes, and
    their [getByteLength] is 1; for every string [getByteLength] is the
    length of the count prefix plus the number of UTF-8 bytes of the string;
    a scalar value from 128 on takes more than one byte, so a string holding
    one is longer in bytes than in characters.
    The earlier revision counts UTF-8 bytes too, after a uint32 prefix, so
    its zero length is the four bytes 0 0 0 0, not one byte; and while its
    [set] writes that zero length for an absent value as for the empty
    string, its [getByteLength] reads [value.length] of the absent value and
    throws a TypeError, so [stringify] of an object that lacks a string
    field throws and nothing is encoded. *)
Theorem string_codec_byte_length :
  (forall le : bool,
      writes (set StringCodec VUndefined le) [0] /\
      writes (set StringCodec (VString []) le) [0]) /\
  encode_with (set StringCodec VUndefined false) 1 = Normal ([0], 1) /\
  encode_with (set StringCodec (VString []) false) 1 = Normal ([0], 1) /\
  getByteLength StringCodec VUndefined = Normal 1 /\
  getByteLength StringCodec (VString []) = Normal 1 /\
  (forall s : list Z,
      getByteLength StringCodec (VString s)
      = Normal (Z.max 1 (ceil_div (bitsNeeded (utf8_length s)) 7) + utf8_length s) /\
      Z.of_nat (length (utf8.encode s)) = utf8_length s /\
      Z.of_nat (length s) <= utf8_length s) /\
  (forall cp : Z, 128 <= cp -> 1 < utf8_size cp) /\
  (forall s : list Z, Exists (fun cp => 128 <= cp) s -> Z.of_nat (length s) < utf8_length s) /\
  getByteLength StringCodec (VString [233]) = Normal 3 /\
  getByteLength StringCodec (VString [104; 233; 8364]) = Normal 7 /\
  (forall le : bool,
      writes (Legacy.set Legacy.StringCodec VUndefined le) [0; 0; 0; 0] /\
      writes (Legacy.set Legacy.StringCodec (VString []) le) [0; 0; 0; 0]) /\
  encode_with (Legacy.set Legacy.StringCodec VUndefined false) 4
  = Normal ([0; 0; 0; 0], 4) /\
  encode_with (Legacy.set Legacy.StringCodec (VString []) false) 4
  = Normal ([0; 0; 0; 0], 4) /\
  Legacy.getByteLength Legacy.StringCodec (VString []) = Normal 4 /\
  Legacy.getByteLength Legacy.StringCodec VUndefined = Throw TypeError /\
  (forall s : list Z,
      Legacy.getByteLength Legacy.StringCodec (VString s) = Normal (4 + utf8_length s)) /\
  Legacy.getByteLength Legacy.StringCodec (VString [233]) = Normal 6 /\
  (exists d : Legacy.Definition_,
      Legacy.define [mkOptions "s" (Some "string"%string) None] = Normal d /\
      snd (Legacy.DefinitionOps.stringify d (VObject [("s"%string, VString [])]))
      = Normal [0; 0; 0; 0] /\
      snd (Legacy.DefinitionOps.stringify d (VObject [])) = Throw TypeError).
Proof.
  split.
  { intros le. split; cbn [set truthy]; apply (VariableLength_set_writes 0). }
  do 4 (split; [reflexivity|]).
  split.
  { intros s. split; [apply String_getByteLength|].
    split; [apply utf8_encode_length | apply utf8_length_ge]. }
  split; [exact utf8_size_multibyte|]. split; [exact utf8_length_multibyte|].
  do 2 (split; [reflexivity|]).
  split.
  { intros le. split; cbn [Legacy.set truthy]; apply Legacy_writes_zero_length. }
  do 4 (split; [reflexivity|]).
  split; [exact Legacy_String_getByteLength|]. split; [reflexivity|].
  eexists. split; [vm_compute; reflexivity|]. split; vm_compute; reflexivity.
Qed.

Lemma string_codec_byte_length_witness :
  1 < utf8_size 8364 /\ Z.of_nat (length [104; 8364]) < utf8_length [104; 8364].
Proof.
  destruct string_codec_byte_length as (_ & _ & _ & _ & _ & _ & Hcp & Hs & _).
  split.
  - apply Hcp. lia.
  - apply Hs. apply Exists_cons_tl, Exists_cons_hd. lia.
Defined.

(** ** Schemas (C4) *)

Lemma set_bytes_writes (bs : list Z) (le : bool) :
  Forall is_byte bs -> writes (set_bytes bs le) bs.
Proof.
  induction 1 as [|b rest Hb _ IH]; cbn [set_bytes]; [apply writes_ret|].
  apply writes_cons; [now apply writes_uint8 | exact IH].
Qed.

(** A string of bytes becomes a view holding them, cursor at the start. *)
Lemma createFromString_bytes (string : list Z) :
  Forall is_byte string ->
  StreamViewFrom.createFromString string = Normal (mkStreamView string 0).
Proof.
  intros H. pose proof (encode_with_writes _ _ (set_bytes_writes string false H)) as He.
  unfold encode_with in He. unfold StreamViewFrom.createFromString.
  destruct (set_bytes string false (StreamViewOps.create (Z.of_nat (length string))))
    as [[[] sv]| |]; cbn [cbind] in *; [|discriminate..].
  now injection He as -> _.
Qed.

Lemma get_uint8_first (id : Z) (rest : list Z) :
  is_byte id ->
  get (IntCodec uint8) false (mkStreamView (id :: rest) 0)
  = Normal (VNumber id, mkStreamView (id :: rest) 1).
Proof.
  intros H. cbn [get]. unfold bind.
  rewrite (reads_uint8 id false H (id :: rest) 0);
    [reflexivity | lia | unfold DataView.byteLength; cbn [length]; lia | reflexivity].
Qed.

Lemma Legacy_get_uint8_first (id : Z) (rest : list Z) :
  is_byte id ->
  Legacy.get (Legacy.IntCodec uint8) false (mkStreamView (id :: rest) 0)
  = Normal (VNumber id, mkStreamView (id :: rest) 1).
Proof.
  intros H. cbn [Legacy.get]. unfold bind.
  rewrite (reads_uint8 id false H (id :: rest) 0);
    [reflexivity | lia | unfold DataView.byteLength; cbn [length]; lia | reflexivity].
Qed.

(** What a successful [define] registers. *)
Lemma define_registers (s s' : Schema) (key : string) (codec : codecSpec)
      (args : list codecArg) (d : Definition_) :
  SchemaOps.define s key codec args = (s', Normal d) ->
  def_id d = Some (nextDefinitionId s) /\
  def_key d = Some key /\
  nextDefinitionId s' = nextDefinitionId s + 1 /\
  definitions s' !! key = Some d /\
  definitionsById s' !! nextDefinitionId s = Some d.
Proof.
  unfold SchemaOps.define, DefinitionOps.new. intros H.
  destruct (match codec with ByName _ => _ | ByCodec _ => _ end) as [c| |];
    cbn [cbind] in H; [|discriminate..].
  injection H as <- <-. cbn [def_id def_key nextDefinitionId definitions definitionsById].
  repeat split; apply lookup_insert_eq.
Qed.

(** A [define] whose constructor throws still uses up an id. *)
Lemma define_advances (s : Schema) (key : string) (codec : codecSpec) (args : list codecArg) :
  nextDefinitionId (fst (SchemaOps.define s key codec args)) = nextDefinitionId s + 1.
Proof.
  unfold SchemaOps.define.
  destruct (DefinitionOps.new codec (Some (nextDefinitionId s)) (Some key) None args);
    reflexivity.
Qed.

Lemma stringify_unregistered (s : Schema) (key : string) (object : value) :
  definitions s !! key = None ->
  inherited key = false ->
  definitions s !! "__proto__"%string = None ->
  SchemaOps.stringify s key object = (s, Throw not_defined_in_schema).
Proof. intros H Hi Hp. unfold SchemaOps.stringify. now rewrite H, Hi, Hp. Qed.

(** Under a name every object inherits the lookup finds something that is
    no definition, and the error is a TypeError. *)
Lemma stringify_inherited (s : Schema) (key : string) (object : value) :
  definitions s !! key = None ->
  inherited key = true ->
  SchemaOps.stringify s key object = (s, Throw TypeError).
Proof. intros H Hi. unfold SchemaOps.stringify. now rewrite H, Hi. Qed.

Lemma parse_unregistered (s : Schema) (id : Z) (rest : list Z) :
  idType s = "uint8"%string -> Forall is_byte (id :: rest) ->
  definitionsById s !! id = None ->
  SchemaOps.parse s (id :: rest) = Throw not_defined_in_schema.
Proof.
  intros Ht Hb Hid. unfold SchemaOps.parse.
  rewrite createFromString_bytes by exact Hb. cbn [cbind]. rewrite Ht.
  change (assoc "uint8" _codecs) with (Some (IntCodec uint8)). cbv beta iota.
  rewrite get_uint8_first by (now inversion Hb). cbn [cbind]. now rewrite Hid.
Qed.

Lemma Legacy_define_registers (s s' : Legacy.Schema) (key : string)
      (fields : list FieldOptions) (d : Legacy.Definition_) :
  Legacy.SchemaOps.define s key fields = (s', Normal d) ->
  Legacy.def_id d = Some (Legacy.nextDefinitionId s) /\
  Legacy.def_key d = Some key /\
  Legacy.nextDefinitionId s' = Legacy.nextDefinitionId s + 1 /\
  Legacy.definitions s' !! key = Some d /\
  Legacy.definitionsById s' !! Legacy.nextDefinitionId s = Some d.
Proof.
  unfold Legacy.SchemaOps.define. intros H.
  destruct (Legacy.map_fields fields) as [fs| |]; [|discriminate..].
  injection H as <- <-.
  cbn [Legacy.def_id Legacy.def_key Legacy.nextDefinitionId Legacy.definitions
       Legacy.definitionsById].
  repeat split; apply lookup_insert_eq.
Qed.

Lemma Legacy_stringify_unregistered (s : Legacy.Schema) (key : string) (object : value) :
  Legacy.definitions s !! key = None ->
  inherited key = false ->
  Legacy.definitions s !! "__proto__"%string = None ->
  Legacy.SchemaOps.stringify s key object = (s, Throw not_defined_in_schema).
Proof. intros H Hi Hp. unfold Legacy.SchemaOps.stringify. now rewrite H, Hi, Hp. Qed.

Lemma Legacy_stringify_inherited (s : Legacy.Schema) (key : string) (object : value) :
  Legacy.definitions s !! key = None ->
  inherited key = true ->
  Legacy.SchemaOps.stringify s key object = (s, Throw TypeError).
Proof. intros H Hi. unfold Legacy.SchemaOps.stringify. now rewrite H, Hi. Qed.

Lemma Legacy_parse_unregistered (s : Legacy.Schema) (id : Z) (rest : list Z) :
  Legacy.idType s = "uint8"%string -> Forall is_byte (id :: rest) ->
  Legacy.definitionsById s !! id = None ->
  Legacy.SchemaOps.parse s (id :: rest) = Throw not_defined_in_schema.
Proof.
  intros Ht Hb Hid. unfold Legacy.SchemaOps.parse.
  rewrite createFromString_bytes by exact Hb. cbn [cbind]. rewrite Ht.
  change (assoc "uint8" Legacy.codecs) with (Some (Legacy.IntCodec uint8)). cbv beta iota.
  rewrite Legacy_get_uint8_first by (now inversion Hb). cbn [cbind]. now rewrite Hid.
Qed.

(** No definition of a schema a program can build is registered under a
    name that every object inherits. *)
Lemma reachable_own_names (s : Schema) :
  reachable s -> forall k : string, inherited k = true -> definitions s !! k = None.
Proof.
  induction 1 as [|s key codec args Hkey _ IH|s key object _ IH]; intros k Hk.
  - apply lookup_empty.
  - unfold SchemaOps.define.
    destruct (DefinitionOps.new codec (Some (nextDefinitionId s)) (Some key) None args);
      cbn [fst definitions]; [|now apply IH..].
    rewrite lookup_insert_ne by congruence. now apply IH.
  - unfold SchemaOps.stringify.
    destruct (definitions s !! key) as [d|] eqn:Hd;
      [|destruct (inherited key); [|destruct (definitions s !! "__proto__"%string)];
        now apply IH].
    destruct (assoc (idType s) _codecs) as [idCodec|]; [|now apply IH].
    destruct (negb (fixedByteLength idCodec)); [now apply IH|].
    destruct (getByteLength idCodec VUndefined) as [idLength| |];
      destruct (DefinitionOps.codec_getByteLength (def_codec d) object) as [[n c']| |];
      try (now apply IH).
    cbn [fst]. unfold SchemaOps.store. cbn [definitions].
    rewrite lookup_insert_ne; [now apply IH|].
    intros ->. rewrite (IH k Hk) in Hd. discriminate.
Qed.

Lemma legacy_reachable_own_names (s : Legacy.Schema) :
  legacy_reachable s ->
  forall k : string, inherited k = true -> Legacy.definitions s !! k = None.
Proof.
  induction 1 as [|s key fields Hkey _ IH|s key object _ IH]; intros k Hk.
  - apply lookup_empty.
  - unfold Legacy.SchemaOps.define.
    destruct (Legacy.map_fields fields); cbn [fst Legacy.definitions]; [|now apply IH..].
    rewrite lookup_insert_ne by congruence. now apply IH.
  - unfold Legacy.SchemaOps.stringify.
    destruct (Legacy.definitions s !! key) as [d|] eqn:Hd;
      [|destruct (inherited key);
        [|destruct (Legacy.definitions s !! "__proto__"%string)]; now apply IH].
    destruct (assoc (Legacy.idType s) Legacy.codecs) as [idCodec|]; [|now apply IH].
    destruct (Legacy.codec_byteLength idCodec) as [idLength|];
      destruct (Legacy.DefinitionOps.getByteLength d object) as [[n d']| |];
      try (now apply IH).
    cbn [fst]. unfold Legacy.SchemaOps.store. cbn [Legacy.definitions].
    rewrite lookup_insert_ne; [now apply IH|].
    intros ->. rewrite (IH k Hk) in Hd. discriminate.
Qed.

(** In a schema a program can build, an unregistered name gives the
    not-defined error unless it is a name that every object inherits. *)
Lemma reachable_stringify_unregistered (s : Schema) (key : string) (object : value) :
  reachable s ->
  definitions s !! key = None ->
  SchemaOps.stringify s key object
  = (s, Throw (if inherited key then TypeError else not_defined_in_schema)).
Proof.
  intros Hs Hd. destruct (inherited key) eqn:Hi.
  - now apply stringify_inherited.
  - apply stringify_unregistered; [exact Hd | exact Hi |].
    now apply reachable_own_names.
Qed.

Lemma legacy_reachable_stringify_unregistered (s : Legacy.Schema) (key : string)
      (object : value) :
  legacy_reachable s ->
  Legacy.definitions s !! key = None ->
  Legacy.SchemaOps.stringify s key object
  = (s, Throw (if inherited key then TypeError else not_defined_in_schema)).
Proof.
  intros Hs Hd. destruct (inherited key) eqn:Hi.
  - now apply Legacy_stringify_inherited.
  - apply Legacy_stringify_unregistered; [exact Hd | exact Hi |].
    now apply legacy_reachable_own_names.
Qed.

(** C4, at [stringify("toString", {})] on the example schema (and at every
    name that every object inherits: "constructor", "valueOf", ...).
    What holds: a schema starts with id 1; each [define] gives the definition
    the next id, registers it under its name and under its id and advances
    the counter by one; in the example (ping first, pong with a uint8 field
    [n] second) the ids are 1 and 2, [stringify("pong", {n: 5})] is the bytes
    2, 5 and parsing them returns the key pong with the data {n: 5}; parsing
    bytes whose id is not registered, 3 in the example, throws the
    not-defined error, and so does [stringify] with an unregistered name
    that no object inherits (in every schema built by [createSchema],
    [define] and [stringify] under such names). What does not: [this.definitions[key]] is a
    lookup through the prototype chain, so under an unregistered name that
    every object inherits it finds a function, the [== null] test lets it
    pass, and [stringify] throws a TypeError, not the not-defined error.
    Both revisions of the file behave so. *)
Theorem schema_dispatch :
  (nextDefinitionId createSchema = 1 /\
   (forall (s s' : Schema) (key : string) (codec : codecSpec) (args : list codecArg)
           (d : Definition_),
       SchemaOps.define s key codec args = (s', Normal d) ->
       def_id d = Some (nextDefinitionId s) /\
       def_key d = Some key /\
       nextDefinitionId s' = nextDefinitionId s + 1 /\
       definitions s' !! key = Some d /\
       definitionsById s' !! nextDefinitionId s = Some d) /\
   (def_id <$> definitions example_schema !! "ping"%string) = Some (Some 1) /\
   (def_id <$> definitions example_schema !! "pong"%string) = Some (Some 2) /\
   (def_key <$> definitionsById example_schema !! 1) = Some (Some "ping"%string) /\
   (def_key <$> definitionsById example_schema !! 2) = Some (Some "pong"%string) /\
   snd (SchemaOps.stringify example_schema "pong" (VObject [("n"%string, VNumber 5)]))
   = Normal [2; 5] /\
   SchemaOps.parse
     (fst (SchemaOps.stringify example_schema "pong" (VObject [("n"%string, VNumber 5)])))
     [2; 5]
   = Normal (mkParsed (Some "pong"%string) (VObject [("n"%string, VNumber 5)])) /\
   SchemaOps.parse example_schema [3; 5] = Throw not_defined_in_schema /\
   (forall (s : Schema) (id : Z) (rest : list Z),
       idType s = "uint8"%string -> Forall is_byte (id :: rest) ->
       definitionsById s !! id = None ->
       SchemaOps.parse s (id :: rest) = Throw not_defined_in_schema) /\
   (forall (s : Schema) (key : string) (object : value),
       definitions s !! key = None ->
       inherited key = false ->
       definitions s !! "__proto__"%string = None ->
       SchemaOps.stringify s key object = (s, Throw not_defined_in_schema)) /\
   (forall (s : Schema) (key : string) (object : value),
       definitions s !! key = None ->
       inherited key = true ->
       SchemaOps.stringify s key object = (s, Throw TypeError)) /\
   (forall (s : Schema) (key : string) (object : value),
       reachable s ->
       definitions s !! key = None ->
       SchemaOps.stringify s key object
       = (s, Throw (if inherited key then TypeError else not_defined_in_schema))) /\
   definitions example_schema !! "toString"%string = None /\
   SchemaOps.stringify example_schema "toString" (VObject [])
   = (example_schema, Throw TypeError)) /\
  (Legacy.nextDefinitionId Legacy.createSchema = 1 /\
   (forall (s s' : Legacy.Schema) (key : string) (fields : list FieldOptions)
           (d : Legacy.Definition_),
       Legacy.SchemaOps.define s key fields = (s', Normal d) ->
       Legacy.def_id d = Some (Legacy.nextDefinitionId s) /\
       Legacy.def_key d = Some key /\
       Legacy.nextDefinitionId s' = Legacy.nextDefinitionId s + 1 /\
       Legacy.definitions s' !! key = Some d /\
       Legacy.definitionsById s' !! Legacy.nextDefinitionId s = Some d) /\
   (Legacy.def_id <$> Legacy.definitions legacy_example_schema !! "ping"%string)
   = Some (Some 1) /\
   (Legacy.def_id <$> Legacy.definitions legacy_example_schema !! "pong"%string)
   = Some (Some 2) /\
   (Legacy.def_key <$> Legacy.definitionsById legacy_example_schema !! 1)
   = Some (Some "ping"%string) /\
   (Legacy.def_key <$> Legacy.definitionsById legacy_example_schema !! 2)
   = Some (Some "pong"%string) /\
   snd (Legacy.SchemaOps.stringify legacy_example_schema "pong"
          (VObject [("n"%string, VNumber 5)]))
   = Normal [2; 5] /\
   Legacy.SchemaOps.parse
     (fst (Legacy.SchemaOps.stringify legacy_example_schema "pong"
             (VObject [("n"%string, VNumber 5)])))
     [2; 5]
   = Normal (mkParsed (Some "pong"%string) (VObject [("n"%string, VNumber 5)])) /\
   Legacy.SchemaOps.parse legacy_example_schema [3; 5] = Throw not_defined_in_schema /\
   (forall (s : Legacy.Schema) (id : Z) (rest : list Z),
       Legacy.idType s = "uint8"%string -> Forall is_byte (id :: rest) ->
       Legacy.definitionsById s !! id = None ->
       Legacy.SchemaOps.parse s (id :: rest) = Throw not_defined_in_schema) /\
   (forall (s : Legacy.Schema) (key : string) (object : value),
       Legacy.definitions s !! key = None ->
       inherited key = false ->
       Legacy.definitions s !! "__proto__"%string = None ->
       Legacy.SchemaOps.stringify s key object = (s, Throw not_defined_in_schema)) /\
   (forall (s : Legacy.Schema) (key : string) (object : value),
       Legacy.definitions s !! key = None ->
       inherited key = true ->
       Legacy.SchemaOps.stringify s key object = (s, Throw TypeError)) /\
   (forall (s : Legacy.Schema) (key : string) (object : value),
       legacy_reachable s ->
       Legacy.definitions s !! key = None ->
       Legacy.SchemaOps.stringify s key object
       = (s, Throw (if inherited key then TypeError else not_defined_in_schema))) /\
   Legacy.definitions legacy_example_schema !! "toString"%string = None /\
   Legacy.SchemaOps.stringify legacy_example_schema "toString" (VObject [])
   = (legacy_example_schema, Throw TypeError)) /\
  Throw (A := list Z) TypeError <> Throw not_defined_in_schema.
Proof.
  split; [|split; [|discriminate]].
  - split; [reflexivity|]. split; [exact define_registers|].
    do 7 (split; [vm_compute; reflexivity|]).
    split; [exact parse_unregistered|]. split; [exact stringify_unregistered|].
    split; [exact stringify_inherited|].
    split; [exact reachable_stringify_unregistered|]. split; vm_compute; reflexivity.
  - split; [reflexivity|]. split; [exact Legacy_define_registers|].
    do 7 (split; [vm_compute; reflexivity|]).
    split; [exact Legacy_parse_unregistered|]. split; [exact Legacy_stringify_unregistered|].
    split; [exact Legacy_stringify_inherited|].
    split; [exact legacy_reachable_stringify_unregistered|]. split; vm_compute; reflexivity.
Qed.

Lemma schema_dispatch_witness :
  SchemaOps.parse example_schema [7] = Throw not_defined_in_schema /\
  SchemaOps.stringify example_schema "pang" (VObject [])
  = (example_schema, Throw not_defined_in_schema) /\
  SchemaOps.stringify example_schema "valueOf" (VObject [])
  = (example_schema, Throw TypeError) /\
  Legacy.SchemaOps.parse legacy_example_schema [7] = Throw not_defined_in_schema /\
  Legacy.SchemaOps.stringify legacy_example_schema "pang" (VObject [])
  = (legacy_example_schema, Throw not_defined_in_schema) /\
  Legacy.SchemaOps.stringify legacy_example_schema "valueOf" (VObject [])
  = (legacy_example_schema, Throw TypeError) /\
  nextDefinitionId
    (fst (SchemaOps.define createSchema "ping" (ByName "object") [ArgFields []])) = 2.
Proof.
  destruct schema_dispatch as
    [(_ & Hdef & _ & _ & _ & _ & _ & _ & _ & Hparse & Hstr & Hinh & _)
     [(_ & _ & _ & _ & _ & _ & _ & _ & _ & Hparse' & Hstr' & Hinh' & _) _]].
  split; [apply Hparse; [reflexivity | repeat constructor; unfold is_byte; lia
                        | vm_compute; reflexivity]|].
  split; [apply Hstr; vm_compute; reflexivity|].
  split; [apply Hinh; vm_compute; reflexivity|].
  split; [apply Hparse'; [reflexivity | repeat constructor; unfold is_byte; lia
                         | vm_compute; reflexivity]|].
  split; [apply Hstr'; vm_compute; reflexivity|].
  split; [apply Hinh'; vm_compute; reflexivity|].
  destruct (Hdef createSchema
              (fst (SchemaOps.define createSchema "ping" (ByName "object") [ArgFields []]))
              "ping"%string (ByName "object") [ArgFields []]
              (mkDefinition (ObjectOf (mkObject [] None)) (Some 1) (Some "ping"%string) None)
              ltac:(vm_compute; reflexivity))
    as (_ & _ & Hnext & _).
  rewrite Hnext. reflexivity.
Defined.

(** ** Shape errors (C3) *)

Lemma Field_new_empty_key (type valueType : option string) :
  FieldOps.new (mkOptions "" type valueType) = Throw (Error "key is required").
Proof. reflexivity. Qed.

Lemma Field_new_unknown_type (options : FieldOptions) :
  opt_key options <> ""%string ->
  isValidType (opt_type options) = false ->
  FieldOps.new options = Throw (Error "Invalid type").
Proof.
  intros Hk Ht. unfold FieldOps.new.
  destruct (String.eqb_spec (opt_key options) ""); [contradiction|].
  now rewrite Ht.
Qed.

Lemma existsb_eqb_In (x : string) (l : list string) :
  existsb (String.eqb x) l = true -> In x l.
Proof.
  intros H. apply existsb_exists in H as (y & Hy & Heq).
  apply String.eqb_eq in Heq. now subst.
Qed.

Lemma assoc_Some_In {A} (x : string) (table : list (string * A)) (a : A) :
  assoc x table = Some a -> In x (map fst table).
Proof.
  induction table as [|[k b] rest IH]; [discriminate|]. cbn [assoc map fst In].
  destruct (String.eqb_spec k x); [now left | intros H; right; now apply IH].
Qed.

(** The names [isValidType] accepts are own properties of the two tables:
    none is a name that every object inherits. *)
Lemma valid_type_not_inherited (name : string) :
  isValidType (Some name) = true -> inherited name = false.
Proof.
  unfold isValidType. intros Hv. apply orb_true_iff in Hv.
  assert (Hin : In name (_codecTypes ++ map fst _codecs)).
  { apply in_or_app. destruct Hv as [Hv|Hv]; [left; now apply existsb_eqb_In|right].
    destruct (assoc name _codecs) eqn:Ha; [|discriminate]. eapply assoc_Some_In; eassumption. }
  cbn in Hin. repeat (destruct Hin as [<- | Hin]; [reflexivity|]). contradiction.
Qed.

(** An array field is built only over a shared codec that is neither the
    array nor the string codec. *)
Lemma Field_new_array (options : FieldOptions) (f : Field) :
  opt_type options = Some "array"%string ->
  FieldOps.new options = Normal f ->
  exists (name : string) (c : codec),
    opt_valueType options = Some name /\
    name <> "array"%string /\ name <> "string"%string /\
    assoc name _codecs = Some c /\
    field_codec f = Some (ArrayCodec c).
Proof.
  intros Ht. unfold FieldOps.new. rewrite Ht.
  destruct (String.eqb (opt_key options) ""); [discriminate|].
  change (negb (isValidType (Some "array"%string))) with false. cbv beta iota.
  change ("array" =? "array")%string with true. cbv beta iota.
  destruct (opt_valueType options) as [name|]; [|discriminate].
  destruct (String.eqb_spec name "array"); [discriminate|].
  destruct (String.eqb_spec name "string"); [discriminate|].
  cbn [orb]. destruct (isValidType (Some name)) eqn:Hv; [|discriminate]. cbn [negb].
  unfold ArrayCodecOps.new. rewrite (valid_type_not_inherited name Hv).
  destruct (assoc name _codecs) as [c|] eqn:Hc; [|discriminate].
  cbn [cbind]. intros H. injection H as <-. exists name, c. now repeat split.
Qed.

(** The current file: a field whose type names a codec class without a
    shared instance is constructed with no codec. *)
Lemma Field_new_codec_missing (options : FieldOptions) (f : Field) :
  FieldOps.new options = Normal f ->
  (field_codec f = None <->
   opt_type options = Some "float"%string \/ opt_type options = Some "int"%string \/
   opt_type options = Some "object"%string).
Proof.
  unfold FieldOps.new.
  destruct (String.eqb (opt_key options) ""); [discriminate|].
  destruct (isValidType (opt_type options)) eqn:Hv; [|discriminate]. cbn [negb].
  destruct (opt_type options) as [t|] eqn:Ht; [|discriminate].
  unfold isValidType in Hv. apply orb_true_iff in Hv.
  assert (Hin : In t (_codecTypes ++ map fst _codecs)).
  { apply in_or_app. destruct Hv as [Hv|Hv]; [left; now apply existsb_eqb_In|right].
    destruct (assoc t _codecs) eqn:Ha; [|discriminate]. eapply assoc_Some_In; eassumption. }
  cbn in Hin.
  repeat (destruct Hin as [<- | Hin];
          [first
             [ (* the array field *)
               change ("array" =? "array")%string with true; cbv beta iota;
               destruct (_ || _); [discriminate|];
               destruct (ArrayCodecOps.new _); cbn [cbind]; [|discriminate..];
               intros H; injection H as <-; cbn [field_codec];
               split; [discriminate | intros [H | [H | H]]; discriminate]
             | intros H; vm_compute in H; injection H as <-; cbn [field_codec];
               split; [try discriminate; intros _; tauto
                      | intros [H | [H | H]]; try discriminate; reflexivity] ]
          |]).
  contradiction.
Qed.

(** The earlier revision: every constructed field has a codec. *)
Lemma Legacy_Field_new_has_codec (options : FieldOptions) (f : Legacy.Field) :
  Legacy.new_Field options = Normal f -> Legacy.field_codec f <> None.
Proof.
  unfold Legacy.new_Field.
  destruct (String.eqb (opt_key options) ""); [discriminate|].
  destruct (Legacy.isValidType (opt_type options)) eqn:Hv; [|discriminate]. cbn [negb].
  destruct (opt_type options) as [t|] eqn:Ht; [|discriminate].
  unfold Legacy.isValidType in Hv. apply existsb_eqb_In in Hv. cbn in Hv.
  repeat (destruct Hv as [<- | Hv];
          [first
             [ change ("array" =? "array")%string with true; cbv beta iota;
               destruct (_ || _); [discriminate|];
               destruct (Legacy.new_ArrayCodec _); cbn [cbind]; [|discriminate..];
               intros H; injection H as <-; discriminate
             | intros H; vm_compute in H; injection H as <-; discriminate ]
          |]).
  contradiction.
Qed.

(** C3, at the field {key: "a", type: "float"} (and "int", "object").
    [isValidType] accepts the names of the codec classes as well as those of
    the shared instances, so the field is constructed, with the codec
    [_codecs["float"]], which is [undefined]; the object codec and the
    definition over it are constructed too, and the first [stringify] or
    [parse] throws a TypeError. *)
Theorem field_of_class_name_fails_at_encode :
  isValidType (Some "float"%string) = true /\
  assoc "float"%string _codecs = None /\
  FieldOps.new (mkOptions "a" (Some "float"%string) None)
  = Normal (mkField "a" (Some "float"%string) None None) /\
  (forall t : string,
      In t ["float"; "int"; "object"]%string ->
      exists d : Definition_,
        define (ByName "object") [ArgFields [mkOptions "a" (Some t) None]] = Normal d /\
        snd (DefinitionOps.stringify d (VObject [("a"%string, VNumber 1)])) = Throw TypeError /\
        DefinitionOps.parse d [0; 0; 0; 0] = Throw TypeError).
Proof.
  repeat split; try reflexivity.
  intros t Ht. cbn [In] in Ht.
  destruct Ht as [<- | [<- | [<- | []]]];
    eexists; (split; [vm_compute; reflexivity|]); split; vm_compute; reflexivity.
Qed.

Lemma field_of_class_name_fails_at_encode_witness :
  exists d : Definition_,
    define (ByName "object") [ArgFields [mkOptions "a" (Some "int"%string) None]] = Normal d /\
    snd (DefinitionOps.stringify d (VObject [("a"%string, VNumber 1)])) = Throw TypeError /\
    DefinitionOps.parse d [0; 0; 0; 0] = Throw TypeError.
Proof.
  apply (proj2 (proj2 (proj2 field_of_class_name_fails_at_encode))).
  cbn [In]. right. left. reflexivity.
Defined.

(** ** [stringify] and the computed length (C2) *)

(** The current array codec counts its length prefix, also when the array
    is empty or absent. *)
Lemma array_empty_or_absent :
  forall v : value,
    In v [VArray []; VUndefined] ->
    getByteLength (ArrayCodec (IntCodec uint16)) v = Normal 1 /\
    encode_with (set (ArrayCodec (IntCodec uint16)) v false) 1 = Normal ([0], 1).
Proof.
  intros v Hv. cbn [In] in Hv. destruct Hv as [<- | [<- | []]]; split; reflexivity.
Qed.

(** C2, at the empty and the absent array in the earlier revision, and at
    2^31 for the variable length codec of the current file. In the earlier
    revision [ArrayCodec.getByteLength] returns 0 for an empty or absent
    array while [set] writes the 4-byte length, so [stringify] allocates a
    view that is too short and the write runs past it. In the current file
    the variable length codec reports five bytes for 2^31 and writes one. *)
Theorem stringify_length_mismatch :
  (forall v : value,
      In v [VArray []; VUndefined] ->
      Legacy.getByteLength (Legacy.ArrayCodec (Legacy.IntCodec uint8)) v = Normal 0 /\
      encode_with (Legacy.set (Legacy.ArrayCodec (Legacy.IntCodec uint8)) v false) 4
      = Normal ([0; 0; 0; 0], 4) /\
      encode_with (Legacy.set (Legacy.ArrayCodec (Legacy.IntCodec uint8)) v false) 0
      = Throw RangeError /\
      exists d : Legacy.Definition_,
        Legacy.define [mkOptions "a" (Some "array"%string) (Some "uint8"%string)] = Normal d /\
        snd (Legacy.DefinitionOps.stringify d (VObject [("a"%string, v)]))
        = Throw RangeError) /\
  getByteLength VariableLengthCodec (VNumber (2 ^ 31)) = Normal 5 /\
  encode_with (set VariableLengthCodec (VNumber (2 ^ 31)) false) 5
  = Normal ([128; 0; 0; 0; 0], 1) /\
  (exists d : Definition_,
      define (ByName "variableLength") [] = Normal d /\
      snd (DefinitionOps.stringify d (VNumber (2 ^ 31))) = Normal [128; 0; 0; 0; 0] /\
      DefinitionOps.parse d [128; 0; 0; 0; 0] = Normal (VNumber 0)).
Proof.
  split.
  - intros v Hv. cbn [In] in Hv.
    destruct Hv as [<- | [<- | []]];
      (split; [reflexivity|]); (split; [reflexivity|]); (split; [reflexivity|]);
      eexists; (split; [vm_compute; reflexivity|]); vm_compute; reflexivity.
  - split; [reflexivity|]. split; [reflexivity|].
    eexists. split; [vm_compute; reflexivity|]. split; vm_compute; reflexivity.
Qed.

Lemma stringify_length_mismatch_witness :
  exists d : Legacy.Definition_,
    Legacy.define [mkOptions "a" (Some "array"%string) (Some "uint8"%string)] = Normal d /\
    snd (Legacy.DefinitionOps.stringify d (VObject [("a"%string, VArray [])]))
    = Throw RangeError.
Proof.
  destruct (proj1 stringify_length_mismatch (VArray [])) as (_ & _ & _ & H).
  - cbn [In]. left. reflexivity.
  - exact H.
Defined.

(** ** Counts from 2^31 on *)

(** From 2^31 to 2^32 - 1 the loop of [set] runs once: the remainder after
    the signed shift is negative. *)
Lemma varint_bytes_high (v : Z) :
  2 ^ 31 <= v < 2 ^ 32 ->
  varint_bytes v = [v mod 128 + 128] /\ VariableLength.getByteLength v = Finite 5.
Proof.
  intros Hv. split.
  - unfold varint_bytes. destruct (Z.eqb_spec v 0); [lia|].
    change 5%nat with (S 4). rewrite set_loop_bytes_S.
    destruct (Z.ltb_spec 0 v); [|lia].
    assert (Ht : ToInt32 v = v - 2 ^ 32).
    { unfold ToInt32. replace (v + 2 ^ 31) with ((v - 2 ^ 31) + 1 * 2 ^ 32) by lia.
      rewrite Z.mod_add, Z.mod_small by lia. lia. }
    assert (Hs : js_sar v 7 < 0).
    { rewrite js_sar_7_div, Ht. apply Z.div_lt_upper_bound; lia. }
    destruct (Z.eqb_spec (js_sar v 7) 0); [lia|].
    assert (Hm : js_and v 127 = v mod 128).
    { rewrite js_and_127_mod, Ht. replace (v - 2 ^ 32) with (v + (- 2 ^ 25) * 128) by lia.
      apply Z.mod_add. lia. }
    rewrite Hm, js_or_128 by (apply Z.mod_pos_bound; lia).
    f_equal. change 4%nat with (S 3). rewrite set_loop_bytes_S.
    destruct (Z.ltb_spec 0 (js_sar v 7)); [lia|reflexivity].
  - unfold VariableLength.getByteLength, VariableLength.floor_log2.
    destruct (Z.ltb_spec v 0); [lia|]. destruct (Z.eqb_spec v 0); [lia|].
    replace (Z.log2 v) with 31; [reflexivity|].
    symmetry. apply Z.log2_unique; lia.
Qed.

Lemma decode_with_reads_prefix {A} (m : M A) (bs rest : list Z) (a : A) :
  reads m bs a -> decode_with m (bs ++ rest) = Normal a.
Proof.
  intros H. unfold decode_with.
  rewrite H; [reflexivity | lia | unfold DataView.byteLength; rewrite length_app; lia |].
  cbn [Z.to_nat drop]. rewrite drop_0. apply take_app_length.
Qed.

(** The bytes 128, 0 are read as the count 0. *)
Lemma varint_get_128_0 (le : bool) : reads (VariableLength.get le) [128; 0] 0.
Proof.
  intros dv o Ho Hroom Hw. unfold VariableLength.get. cbn [dataView].
  assert (Hfuel : (2 <= S (length dv))%nat)
    by (unfold DataView.byteLength in Hroom; cbn [length] in Hroom; lia).
  revert Hfuel Hroom Hw. generalize (S (length dv)) as fuel. intros fuel Hfuel Hroom Hw.
  revert dv o Ho Hroom Hw.
  change (reads (VariableLength.get_loop fuel 0 0 128 le) [128; 0] 0).
  destruct fuel as [|[|fuel]]; [lia..|]. rewrite get_loop_S.
  change (js_and 128 128 =? 0) with false. cbv beta iota.
  eapply reads_cons; [apply reads_uint8; lia|]. rewrite get_loop_S.
  change (js_and 128 128 =? 0) with false. cbv beta iota.
  eapply reads_cons; [apply reads_uint8; lia|].
  rewrite get_loop_done by reflexivity. apply reads_ret.
Qed.

Lemma BooleanArray_get_128_0 (le : bool) : reads (BooleanArray.get le) [128; 0] [].
Proof.
  unfold BooleanArray.get. rewrite <- (app_nil_r [128; 0]).
  eapply reads_bind; [apply varint_get_128_0|]. apply reads_ret.
Qed.

Lemma bits_value_all_false (flags : list bool) :
  Forall (fun b => b = false) flags -> bits_value flags = 0.
Proof. induction 1 as [|b rest -> _ IH]; cbn [bits_value]; lia. Qed.

Lemma map_all_zero {A} (f : A -> Z) (l : list A) :
  (forall x, f x = 0) -> map f l = repeat 0 (length l).
Proof.
  intros H. induction l as [|x l IH]; [reflexivity|].
  cbn [map length repeat]. now rewrite H, IH.
Qed.

Lemma pack_all_false (n : nat) :
  pack (repeat false n) = repeat 0 ((n + 7) / 8).
Proof.
  unfold pack. rewrite repeat_length.
  rewrite map_all_zero; [now rewrite length_seq|]. intros j.
  apply bits_value_all_false. apply Forall_take, Forall_drop.
  apply Forall_forall. intros b Hb. apply list_elem_of_In in Hb.
  now apply repeat_spec in Hb.
Qed.

Lemma BooleanArray_at_2_31 (n : nat) :
  Z.of_nat n = 2 ^ 31 ->
  BooleanArray.getByteLength (repeat false n) = Finite (5 + 2 ^ 28) /\
  (forall le : bool,
      writes (BooleanArray.set (repeat false n) le)
        (128 :: repeat 0 (Z.to_nat (2 ^ 28)))) /\
  (forall (le : bool) (rest : list Z),
      decode_with (BooleanArray.get le) (128 :: repeat 0 (Z.to_nat (2 ^ 28)) ++ rest)
      = Normal []).
Proof.
  intros Hn.
  assert (Hk : ((n + 7) / 8)%nat = Z.to_nat (2 ^ 28)).
  { apply Nat2Z.inj. rewrite Nat2Z.inj_div, Nat2Z.inj_add, Hn, Z2Nat.id by lia.
    reflexivity. }
  split; [|split].
  - unfold BooleanArray.getByteLength. rewrite repeat_length, Hn. reflexivity.
  - intros le. pose proof (BooleanArray_set_writes (repeat false n) le) as Hw.
    rewrite repeat_length, Hn, pack_all_false, Hk in Hw.
    replace (varint_bytes (2 ^ 31)) with [128] in Hw by reflexivity.
    exact Hw.
  - intros le rest.
    assert (Hs : exists k, Z.to_nat (2 ^ 28) = S k) by (exists (Z.to_nat (2 ^ 28 - 1)); lia).
    destruct Hs as [k ->]. cbn [repeat app].
    exact (decode_with_reads_prefix _ [128; 0] (repeat 0 k ++ rest) []
             (BooleanArray_get_128_0 le)).
Qed.

(** C8, at an array of 2^31 booleans (all false). [getByteLength] is
    5 + 2^28, but the count is written as the single byte 128, the
    continuation flag set with nothing after it (the defect of the variable
    length codec at 2^31), followed by the 2^28 flag bytes; decoding takes
    the first flag byte for the end of the count and returns the empty
    list. *)
Theorem boolean_array_breaks_at_2_31 :
  BooleanArray.getByteLength (repeat false (Z.to_nat (2 ^ 31))) = Finite (5 + 2 ^ 28) /\
  (forall le : bool,
      writes (BooleanArray.set (repeat false (Z.to_nat (2 ^ 31))) le)
        (128 :: repeat 0 (Z.to_nat (2 ^ 28)))) /\
  (forall (le : bool) (rest : list Z),
      decode_with (BooleanArray.get le) (128 :: repeat 0 (Z.to_nat (2 ^ 28)) ++ rest)
      = Normal []).
Proof. apply BooleanArray_at_2_31. rewrite Z2Nat.id; lia. Qed.

(** ** The current file: [set] writes [getByteLength] bytes *)

Lemma Integer_set_writes (w : Z) (signed : bool) (ic : IntegerCodec) (n : Z) (le : bool) :
  Integer.new w signed = Normal ic ->
  writes (Integer.set ic n le)
    (DataView.order le (DataView.le_bytes (Z.to_nat w) (Integer.clamp ic n))).
Proof.
  intros Hc sv Ho Hr.
  pose proof (Integer_new_inv _ _ _ Hc) as [Hw _].
  rewrite order_length, le_bytes_length, Z2Nat.id in * by lia.
  now apply (Integer_set_room w signed).
Qed.

Lemma Integer_bytes_length (w : Z) (le : bool) (x : Z) :
  0 <= w ->
  Z.of_nat (length (DataView.order le (DataView.le_bytes (Z.to_nat w) x))) = w.
Proof. intros H. rewrite order_length, le_bytes_length. lia. Qed.

Lemma writes_lift {A} (a : A) (k : A -> M unit) (bs : list Z) :
  writes (k a) bs -> writes (x <- lift (Normal a) ;; k x) bs.
Proof. intros H sv Ho Hr. unfold bind, lift. cbn [cbind]. now apply H. Qed.

Lemma mask_byte (y j c : Z) :
  0 <= j -> 0 <= c -> (c + 1) * 2 ^ j <= 256 ->
  is_byte (Z.lor (Z.land y (Z.ones j)) (c * 2 ^ j)).
Proof.
  intros Hj Hc Hle. rewrite Z.land_ones by lia.
  assert (0 < 2 ^ j) by (apply Z.pow_pos_nonneg; lia).
  pose proof (Z.mod_pos_bound y (2 ^ j) ltac:(lia)).
  rewrite lor_disjoint by lia. unfold is_byte. nia.
Qed.

Lemma encodeCodePoint_bytes (cp : Z) :
  0 <= cp -> Forall is_byte (utf8.encodeCodePoint cp).
Proof.
  intros H. unfold utf8.encodeCodePoint.
  pose proof (fun y => mask_byte y 6 2 ltac:(lia) ltac:(lia) ltac:(simpl; lia)) as H6.
  pose proof (fun y => mask_byte y 6 3 ltac:(lia) ltac:(lia) ltac:(simpl; lia)) as H5.
  pose proof (fun y => mask_byte y 5 7 ltac:(lia) ltac:(lia) ltac:(simpl; lia)) as H4.
  pose proof (fun y => mask_byte y 4 15 ltac:(lia) ltac:(lia) ltac:(simpl; lia)) as H3.
  change (Z.ones 6) with 63 in *. change (Z.ones 5) with 31 in *.
  change (Z.ones 4) with 15 in *.
  change (2 * 2 ^ 6) with 128 in H6. change (3 * 2 ^ 6) with 192 in H5.
  change (7 * 2 ^ 5) with 224 in H4. change (15 * 2 ^ 4) with 240 in H3.
  assert (H5' : forall y, is_byte (Z.lor (Z.land y 31) 192)).
  { intros y. replace (Z.land y 31) with (Z.land (Z.land y 31) 63); [apply H5|].
    rewrite <- Z.land_assoc. reflexivity. }
  assert (H3' : forall y, is_byte (Z.lor (Z.land y 7) 240)).
  { intros y. replace (Z.land y 7) with (Z.land (Z.land y 7) 15); [apply H3|].
    rewrite <- Z.land_assoc. reflexivity. }
  assert (H4' : forall y, is_byte (Z.lor (Z.land y 15) 224)).
  { intros y. replace (Z.land y 15) with (Z.land (Z.land y 15) 31); [apply H4|].
    rewrite <- Z.land_assoc. reflexivity. }
  destruct (Z.ltb_spec cp 128);
    [constructor; [unfold is_byte; lia | constructor]|].
  destruct (cp <? 2048); [|destruct (cp <? 65536)];
    repeat (constructor; [first [apply H6 | apply H5' | apply H4' | apply H3']|]);
    constructor.
Qed.

Lemma utf8_encode_bytes (s : list Z) :
  Forall (fun cp => 0 <= cp) s -> Forall is_byte (utf8.encode s).
Proof.
  induction 1 as [|cp rest Hcp _ IH]; [constructor|].
  unfold utf8.encode in *. cbn [flat_map]. apply Forall_app. split; [|exact IH].
  now apply encodeCodePoint_bytes.
Qed.

Lemma set_each_writes (f : value -> M unit) (vs : list value) (bss : list (list Z)) :
  Forall2 (fun v bs => writes (f v) bs) vs bss ->
  writes (set_each f vs) (concat bss).
Proof.
  induction 1 as [|v bs vs bss Hv _ IH]; cbn [set_each concat]; [apply writes_ret|].
  now apply writes_bind.
Qed.

Lemma sum_lengths_concat (g : value -> completion Z) (vs : list value)
      (bss : list (list Z)) :
  Forall2 (fun v bs => g v = Normal (Z.of_nat (length bs))) vs bss ->
  sum_lengths g vs = Normal (Z.of_nat (length (concat bss))).
Proof.
  induction 1 as [|v bs vs bss Hv _ IH]; cbn [sum_lengths concat]; [reflexivity|].
  rewrite Hv, IH. cbn [cbind]. now rewrite length_app, Nat2Z.inj_add.
Qed.

Lemma fixed_lengths_concat (n : Z) (bss : list (list Z)) :
  Forall (fun bs => Z.of_nat (length bs) = n) bss ->
  Z.of_nat (length (concat bss)) = Z.of_nat (length bss) * n.
Proof.
  induction 1 as [|bs bss Hbs _ IH]; cbn [concat length]; [lia|].
  rewrite length_app, Nat2Z.inj_add, IH, Hbs. lia.
Qed.

Lemma fixed_getByteLength_const (c : codec) (v : value) :
  fixedByteLength c = true -> getByteLength c v = getByteLength c VUndefined.
Proof. destruct c; try discriminate; reflexivity. Qed.

Lemma BooleanArray_length_below_2_31 (values : list bool) :
  Z.of_nat (length values) < 2 ^ 31 ->
  BooleanArray.getByteLength values
  = Finite (Z.of_nat (length (varint_bytes (Z.of_nat (length values)) ++ pack values))).
Proof.
  intros Hlen. unfold BooleanArray.getByteLength.
  rewrite varint_bytes_length by lia.
  change (Integer.getByteLength uint8) with 1.
  rewrite length_app, Nat2Z.inj_add, pack_length. f_equal. lia.
Qed.

(** On the values above, every codec of the current file writes exactly the
    bytes [getByteLength] counts. *)
Lemma encodable_writes (c : codec) :
  forall (v : value) (le : bool),
    encodable c v ->
    exists bs, writes (set c v le) bs /\ getByteLength c v = Normal (Z.of_nat (length bs)).
Proof.
  induction c as [| | w | ic | | | valueCodec IH |]; intros v le He; cbn [encodable] in He.
  - exists [if truthy v then 1 else 0]. split; [|reflexivity].
    cbn [set]. destruct (truthy v); [exact (writes_uint8 1 le ltac:(lia))
                                    | exact (writes_uint8 0 le ltac:(lia))].
  - destruct He as (vs & Hvs & Hlen).
    exists (varint_bytes (Z.of_nat (length (map truthy vs))) ++ pack (map truthy vs)).
    cbn [set getByteLength]. rewrite Hvs. cbn [cbind]. split.
    + apply writes_lift, BooleanArray_set_writes.
    + rewrite BooleanArray_length_below_2_31 by (rewrite length_map; exact Hlen).
      reflexivity.
  - contradiction.
  - destruct He as ((w & signed & Hc) & n & Hn).
    pose proof (Integer_new_inv _ _ _ Hc) as [Hw Heq].
    pose proof (Integer_new_ranges _ _ _ Hc) as (_ & _ & Hrange).
    exists (DataView.order le (DataView.le_bytes (Z.to_nat w)
              (Integer.clamp ic (match n with Some n => n | None => 0 end)))).
    split.
    + cbn [set]. rewrite Hn. apply writes_lift. destruct n as [n|].
      * now apply (Integer_set_writes w signed).
      * pose proof (Integer_set_writes w signed ic 0 le Hc) as H0.
        unfold Integer.set in H0. rewrite (clamp_in_range ic 0) in H0 at 1 by lia.
        exact H0.
    + cbn [getByteLength]. rewrite Integer_bytes_length by lia.
      unfold Integer.getByteLength, Fixed.getByteLength. now rewrite Heq.
  - cbn [set getByteLength]. destruct (truthy v) eqn:Ht.
    + destruct He as [Hf | (s & -> & Hs & Hlen)]; [discriminate|].
      exists (varint_bytes (Z.of_nat (length (utf8.encode s))) ++ utf8.encode s). split.
      * apply writes_bind; [apply VariableLength_set_writes|].
        now apply set_bytes_writes, utf8_encode_bytes.
      * pose proof (utf8_length_ge s). rewrite varint_bytes_length
          by (rewrite utf8_encode_length; lia).
        cbn [number_length cbind]. change (Integer.getByteLength uint8) with 1.
        rewrite length_app, Nat2Z.inj_add. f_equal. lia.
    + exists [0]. split; [apply (VariableLength_set_writes 0)|reflexivity].
  - destruct He as (n & Hn & Hrange). exists (varint_bytes n).
    cbn [set getByteLength]. rewrite Hn. cbn [cbind]. split.
    + apply writes_lift, VariableLength_set_writes.
    + now rewrite varint_bytes_length.
  - destruct He as (vs & Hvs & Hlen & Hall).
    assert (Hbss : exists bss,
               Forall2 (fun x bs => writes (set valueCodec x le) bs) vs bss /\
               Forall2 (fun x bs => getByteLength valueCodec x
                                    = Normal (Z.of_nat (length bs))) vs bss).
    { clear Hvs Hlen. induction Hall as [|x xs Hx _ IHxs].
      - exists []. split; constructor.
      - destruct (IH x le Hx) as (bs & Hw & Hl). destruct IHxs as (bss & Hws & Hls).
        exists (bs :: bss). split; constructor; assumption. }
    destruct Hbss as (bss & Hws & Hls).
    exists (varint_bytes (Z.of_nat (length vs)) ++ concat bss).
    cbn [set getByteLength]. rewrite Hvs. cbn [cbind]. split.
    + apply writes_lift, writes_bind; [apply VariableLength_set_writes|].
      destruct (Z.ltb_spec 0 (Z.of_nat (length vs))) as [Hpos|Hz].
      * now apply set_each_writes.
      * destruct vs; [|cbn [length] in Hz; lia]. inversion Hws. apply writes_ret.
    + assert (Hsum : (if fixedByteLength valueCodec
                      then cbind (getByteLength valueCodec VUndefined)
                             (fun n => Normal (Z.of_nat (length vs) * n))
                      else sum_lengths (getByteLength valueCodec) vs)
                     = Normal (Z.of_nat (length (concat bss)))).
      { destruct (fixedByteLength valueCodec) eqn:Hfix;
          [|now apply sum_lengths_concat].
        destruct (getByteLength valueCodec VUndefined) as [n| |] eqn:Hn.
        - cbn [cbind]. f_equal. rewrite (fixed_lengths_concat n).
          + now rewrite <- (Forall2_length _ _ _ Hls).
          + clear - Hls Hn Hfix. induction Hls as [|x bs xs bss Hx _ IHl]; constructor.
            * rewrite fixed_getByteLength_const, Hn in Hx by assumption. congruence.
            * exact IHl.
        - destruct valueCodec; discriminate.
        - destruct valueCodec; discriminate. }
      rewrite Hsum. cbn [cbind].
      rewrite varint_bytes_length by lia. cbn [number_length cbind].
      now rewrite length_app, Nat2Z.inj_add.
  - contradiction.
Qed.

Lemma Object_set_loop_writes (fs : list Field) (object : value) :
  fields_encodable fs object ->
  exists bs,
    writes (Object.set_loop fs object) bs /\
    forall (acc : Z) (fixed_ : bool),
    exists fixed',
      Object.getByteLength_loop fs object acc fixed_
      = Normal (acc + Z.of_nat (length bs), fixed').
Proof.
  induction 1 as [|f fs (c & v & Hc & Hv & He) _ (bs' & Hw' & Hl')].
  - exists []. split; [apply writes_ret|]. intros acc fixed_. exists fixed_.
    cbn [Object.getByteLength_loop length]. now rewrite Z.add_0_r.
  - destruct (encodable_writes c v false He) as (bs & Hw & Hl).
    exists (bs ++ bs'). split.
    + cbn [Object.set_loop]. rewrite Hc, Hv. apply writes_lift. now apply writes_bind.
    + intros acc fixed_. cbn [Object.getByteLength_loop]. rewrite Hc, Hv. cbn [cbind].
      rewrite Hl. cbn [cbind].
      destruct (Hl' (acc + Z.of_nat (length bs)) (fixed_ && fixedByteLength c)) as (fx & Hfx).
      exists fx. rewrite Hfx, length_app, Nat2Z.inj_add. do 2 f_equal. lia.
Qed.

(** The current file, within the range of the length prefixes: [stringify]
    allocates exactly the bytes [set] writes and returns them, for a
    definition over a codec and for a definition over a fresh object codec. *)
Lemma stringify_fills_exactly_below_2_31 :
  (forall (c : codec) (v : value) (id : option Z) (key : option string)
          (le : option bool),
      encodable c v ->
      exists bs,
        getByteLength c v = Normal (Z.of_nat (length bs)) /\
        encode_with (set c v false) (Z.of_nat (length bs))
        = Normal (bs, Z.of_nat (length bs)) /\
        snd (DefinitionOps.stringify (mkDefinition (CodecOf c) id key le) v) = Normal bs) /\
  (forall (fs : list Field) (object : value) (id : option Z) (key : option string)
          (le : option bool),
      fields_encodable fs object ->
      exists bs,
        cbind (Object.getByteLength (mkObject fs None) object) (fun p => Normal (fst p))
        = Normal (Z.of_nat (length bs)) /\
        encode_with (Object.set (mkObject fs None) object) (Z.of_nat (length bs))
        = Normal (bs, Z.of_nat (length bs)) /\
        snd (DefinitionOps.stringify (mkDefinition (ObjectOf (mkObject fs None)) id key le)
               object) = Normal bs).
Proof.
  split.
  - intros c v id key le He. destruct (encodable_writes c v false He) as (bs & Hw & Hl).
    pose proof (encode_with_writes _ _ Hw) as Henc.
    exists bs. split; [exact Hl|]. split; [exact Henc|].
    unfold DefinitionOps.stringify, DefinitionOps.codec_getByteLength. cbn [def_codec].
    rewrite Hl. cbn [cbind snd DefinitionOps.codec_set].
    unfold encode_with in Henc.
    destruct (set c v false (StreamViewOps.create (Z.of_nat (length bs))))
      as [[[] sv]| |]; cbn [cbind] in *; [|discriminate..].
    injection Henc as Hd _. unfold StreamViewOps.toArray. now rewrite Hd.
  - intros fs object id key le He.
    destruct (Object_set_loop_writes fs object He) as (bs & Hw & Hl).
    destruct (Hl 0 true) as (fx & Hfx). rewrite Z.add_0_l in Hfx.
    pose proof (encode_with_writes _ _ Hw) as Henc.
    exists bs.
    assert (Hg : Object.getByteLength (mkObject fs None) object
                 = Normal (Z.of_nat (length bs),
                           if fx then mkObject fs (Some (Z.of_nat (length bs)))
                           else mkObject fs None)).
    { unfold Object.getByteLength. cbn [cachedByteLength fields]. now rewrite Hfx. }
    split; [now rewrite Hg|]. split; [exact Henc|].
    unfold DefinitionOps.stringify, DefinitionOps.codec_getByteLength. cbn [def_codec].
    rewrite Hg. cbn [cbind snd DefinitionOps.codec_set].
    assert (Hset : forall o', fields o' = fs -> Object.set o' object
                                              = Object.set (mkObject fs None) object)
      by (intros o' <-; reflexivity).
    rewrite (Hset (if fx then _ else _)) by (destruct fx; reflexivity).
    unfold encode_with in Henc. unfold Object.set at 1. cbn [fields].
    destruct (Object.set_loop fs object (StreamViewOps.create (Z.of_nat (length bs))))
      as [[[] sv]| |]; cbn [cbind] in *; [|discriminate..].
    injection Henc as Hd _. unfold StreamViewOps.toArray. now rewrite Hd.
Qed.

(* ================================================================== *)
(** * Further properties of the code *)
(** ** UTF-8: decoding what was encoded *)

Lemma land_high (lo hi m k : Z) :
  0 <= k -> 0 <= lo < 2 ^ k ->
  Z.land (lo + hi * 2 ^ k) (m * 2 ^ k) = Z.land hi m * 2 ^ k.
Proof.
  intros Hk Hlo. rewrite <- lor_disjoint by assumption.
  apply Z.bits_inj'. intros n Hn. rewrite Z.land_spec, Z.lor_spec.
  destruct (Z.lt_ge_cases n k) as [Hlt | Hge].
  - rewrite !Z.mul_pow2_bits_low by assumption. apply andb_false_r.
  - rewrite !Z.mul_pow2_bits, Z.land_spec by assumption.
    destruct (Z.eq_dec lo 0) as [-> | Hnz]; [now rewrite Z.bits_0|].
    rewrite (Z.bits_above_log2 lo n); [reflexivity|lia|].
    apply Z.log2_lt_pow2; [lia|].
    eapply Z.lt_le_trans; [apply Hlo|]. apply Z.pow_le_mono_r; lia.
Qed.

Lemma land_low (lo hi k : Z) :
  0 <= k -> 0 <= lo < 2 ^ k -> Z.land (lo + hi * 2 ^ k) (Z.ones k) = lo.
Proof.
  intros Hk Hlo. rewrite Z.land_ones, Z.mod_add, Z.mod_small by lia. reflexivity.
Qed.

Lemma mask_or (y j c : Z) :
  0 <= j -> Z.lor (Z.land y (Z.ones j)) (c * 2 ^ j) = y mod 2 ^ j + c * 2 ^ j.
Proof.
  intros Hj. rewrite Z.land_ones by lia.
  assert (0 < 2 ^ j) by (apply Z.pow_pos_nonneg; lia).
  pose proof (Z.mod_pos_bound y (2 ^ j) ltac:(lia)).
  now rewrite lor_disjoint by lia.
Qed.

Lemma decode_cons (b1 : Z) (r1 : list Z) :
  utf8.decode (b1 :: r1) =
  if Z.land b1 128 =? 0 then cons b1 <$> utf8.decode r1
  else if Z.land b1 224 =? 192 then
    match r1 with
    | b2 :: r2 =>
        let cp := Z.lor (Z.shiftl (Z.land b1 31) 6) (Z.land b2 63) in
        if utf8.continuation b2 && (128 <=? cp) then cons cp <$> utf8.decode r2 else None
    | _ => None
    end
  else if Z.land b1 240 =? 224 then
    match r1 with
    | b2 :: b3 :: r3 =>
        let cp := Z.lor (Z.shiftl (Z.land b1 15) 12)
                    (Z.lor (Z.shiftl (Z.land b2 63) 6) (Z.land b3 63)) in
        if utf8.continuation b2 && utf8.continuation b3 && (2048 <=? cp)
           && negb ((55296 <=? cp) && (cp <=? 57343))
        then cons cp <$> utf8.decode r3 else None
    | _ => None
    end
  else if Z.land b1 248 =? 240 then
    match r1 with
    | b2 :: b3 :: b4 :: r4 =>
        let cp := Z.lor (Z.shiftl (Z.land b1 7) 18)
                    (Z.lor (Z.shiftl (Z.land b2 63) 12)
                       (Z.lor (Z.shiftl (Z.land b3 63) 6) (Z.land b4 63))) in
        if utf8.continuation b2 && utf8.continuation b3 && utf8.continuation b4
           && (65536 <=? cp) && (cp <=? 1114111)
        then cons cp <$> utf8.decode r4 else None
    | _ => None
    end
  else None.
Proof. reflexivity. Qed.

(** A continuation byte [10xxxxxx] and the six bits it carries. *)
Lemma continuation_byte (y : Z) :
  utf8.continuation (Z.lor (Z.land y 63) 128) = true /\
  Z.land (Z.lor (Z.land y 63) 128) 63 = y mod 64.
Proof.
  change 63 with (Z.ones 6). change 128 with (2 * 2 ^ 6).
  rewrite mask_or by lia.
  pose proof (Z.mod_pos_bound y (2 ^ 6) ltac:(lia)) as Hm.
  split.
  - unfold utf8.continuation. change 192 with (3 * 2 ^ 6).
    rewrite land_high by lia. reflexivity.
  - rewrite land_low by lia. reflexivity.
Qed.

(** A leading byte: the prefix [c] above the [j] payload bits. *)
Lemma leading_byte (y j c m : Z) :
  0 <= j ->
  Z.land (Z.lor (Z.land y (Z.ones j)) (c * 2 ^ j)) (m * 2 ^ j) = Z.land c m * 2 ^ j /\
  Z.land (Z.lor (Z.land y (Z.ones j)) (c * 2 ^ j)) (Z.ones j) = y mod 2 ^ j.
Proof.
  intros Hj. rewrite mask_or by lia.
  assert (0 < 2 ^ j) by (apply Z.pow_pos_nonneg; lia).
  pose proof (Z.mod_pos_bound y (2 ^ j) ltac:(lia)) as Hm.
  split; [now rewrite land_high by lia | now rewrite land_low by lia].
Qed.

Lemma join_bits (hi lo k : Z) :
  0 <= k -> 0 <= lo < 2 ^ k -> Z.lor (Z.shiftl hi k) lo = hi * 2 ^ k + lo.
Proof.
  intros Hk Hlo. rewrite Z.shiftl_mul_pow2, Z.lor_comm, lor_disjoint by lia. lia.
Qed.

Lemma lead2 (y : Z) :
  let b := Z.lor (Z.land y 31) 192 in
  Z.land b 128 = 128 /\ Z.land b 224 = 192 /\ Z.land b 31 = y mod 32.
Proof.
  pose proof (leading_byte y 5 6 4 ltac:(lia)) as [H1 _].
  pose proof (leading_byte y 5 6 7 ltac:(lia)) as [H2 H3].
  repeat split; [exact H1 | exact H2 | exact H3].
Qed.

Lemma lead3 (y : Z) :
  let b := Z.lor (Z.land y 15) 224 in
  Z.land b 128 = 128 /\ Z.land b 224 = 224 /\ Z.land b 240 = 224 /\
  Z.land b 15 = y mod 16.
Proof.
  pose proof (leading_byte y 4 14 8 ltac:(lia)) as [H1 _].
  pose proof (leading_byte y 4 14 14 ltac:(lia)) as [H2 _].
  pose proof (leading_byte y 4 14 15 ltac:(lia)) as [H3 H4].
  repeat split; [exact H1 | exact H2 | exact H3 | exact H4].
Qed.

Lemma lead4 (y : Z) :
  let b := Z.lor (Z.land y 7) 240 in
  Z.land b 128 = 128 /\ Z.land b 224 = 224 /\ Z.land b 240 = 240 /\
  Z.land b 248 = 240 /\ Z.land b 7 = y mod 8.
Proof.
  pose proof (leading_byte y 3 30 16 ltac:(lia)) as [H1 _].
  pose proof (leading_byte y 3 30 28 ltac:(lia)) as [H2 _].
  pose proof (leading_byte y 3 30 30 ltac:(lia)) as [H3 _].
  pose proof (leading_byte y 3 30 31 ltac:(lia)) as [H4 H5].
  repeat split; [exact H1 | exact H2 | exact H3 | exact H4 | exact H5].
Qed.

Lemma decode_encodeCodePoint (cp : Z) (rest : list Z) :
  scalar cp ->
  utf8.decode (utf8.encodeCodePoint cp ++ rest) = cons cp <$> utf8.decode rest.
Proof.
  intros Hs. unfold utf8.encodeCodePoint.
  destruct (Z.ltb_spec cp 128) as [H1|H1].
  { cbn [app]. rewrite decode_cons, land_128_low by (unfold scalar in Hs; lia).
    reflexivity. }
  rewrite !Z.shiftr_div_pow2 by lia.
  change (2 ^ 6) with 64. change (2 ^ 12) with 4096. change (2 ^ 18) with 262144.
  destruct (Z.ltb_spec cp 2048) as [H2|H2].
  { cbn [app]. rewrite decode_cons.
    destruct (continuation_byte cp) as [Hc2 Hp2].
    destruct (lead2 (cp / 64)) as (Ha & Hb & Hc). cbv zeta in Ha, Hb, Hc.
    rewrite Ha, Hb, Hc. cbv beta iota zeta.
    change (128 =? 0) with false. change (192 =? 192) with true. cbv beta iota.
    rewrite Hc2, Hp2.
    rewrite join_bits by (Z.div_mod_to_equations; lia).
    replace (cp / 64 mod 32 * 2 ^ 6 + cp mod 64) with cp
      by (change (2 ^ 6) with 64; Z.div_mod_to_equations; lia).
    destruct (Z.leb_spec 128 cp); [reflexivity|lia]. }
  destruct (Z.ltb_spec cp 65536) as [H3|H3].
  { cbn [app]. rewrite decode_cons.
    destruct (continuation_byte cp) as [Hc3 Hp3].
    destruct (continuation_byte (cp / 64)) as [Hc2 Hp2].
    destruct (lead3 (cp / 4096)) as (Ha & Hb & Hc & Hd). cbv zeta in Ha, Hb, Hc, Hd.
    rewrite Ha, Hb, Hc, Hd. cbv beta iota zeta.
    change (128 =? 0) with false. change (224 =? 192) with false.
    change (224 =? 224) with true. cbv beta iota.
    rewrite Hc2, Hp2, Hc3, Hp3.
    rewrite (join_bits _ (cp mod 64)) by (Z.div_mod_to_equations; lia).
    rewrite join_bits by (change (2 ^ 6) with 64; change (2 ^ 12) with 4096;
                          Z.div_mod_to_equations; lia).
    replace (cp / 4096 mod 16 * 2 ^ 12 + (cp / 64 mod 64 * 2 ^ 6 + cp mod 64)) with cp
      by (change (2 ^ 6) with 64; change (2 ^ 12) with 4096; Z.div_mod_to_equations; lia).
    destruct (Z.leb_spec 2048 cp); [|lia]. cbn [andb].
    unfold scalar in Hs.
    destruct (Z.leb_spec 55296 cp), (Z.leb_spec cp 57343); cbn [andb negb];
      first [reflexivity | lia]. }
  cbn [app]. rewrite decode_cons.
  destruct (continuation_byte cp) as [Hc4 Hp4].
  destruct (continuation_byte (cp / 64)) as [Hc3 Hp3].
  destruct (continuation_byte (cp / 4096)) as [Hc2 Hp2].
  destruct (lead4 (cp / 262144)) as (Ha & Hb & Hc & Hd & He).
  cbv zeta in Ha, Hb, Hc, Hd, He.
  rewrite Ha, Hb, Hc, Hd, He. cbv beta iota zeta.
  change (128 =? 0) with false. change (224 =? 192) with false.
  change (240 =? 224) with false. change (240 =? 240) with true. cbv beta iota.
  rewrite Hc2, Hp2, Hc3, Hp3, Hc4, Hp4.
  unfold scalar in Hs.
  rewrite (join_bits _ (cp mod 64)) by (Z.div_mod_to_equations; lia).
  rewrite (join_bits _ (_ + cp mod 64))
    by (change (2 ^ 6) with 64; change (2 ^ 12) with 4096; Z.div_mod_to_equations; lia).
  rewrite join_bits
    by (change (2 ^ 6) with 64; change (2 ^ 12) with 4096; change (2 ^ 18) with 262144;
        Z.div_mod_to_equations; lia).
  replace (cp / 262144 mod 8 * 2 ^ 18
           + (cp / 4096 mod 64 * 2 ^ 12 + (cp / 64 mod 64 * 2 ^ 6 + cp mod 64))) with cp
    by (change (2 ^ 6) with 64; change (2 ^ 12) with 4096; change (2 ^ 18) with 262144;
        Z.div_mod_to_equations; lia).
  destruct (Z.leb_spec 65536 cp); [|lia].
  destruct (Z.leb_spec cp 1114111); [reflexivity|lia].
Qed.

Lemma decode_encode (s : list Z) :
  Forall scalar s -> utf8.decode (utf8.encode s) = Some s.
Proof.
  induction 1 as [|cp rest Hcp _ IH]; [reflexivity|].
  unfold utf8.encode in *. cbn [flat_map].
  now rewrite decode_encodeCodePoint, IH.
Qed.

(** ** Reading back what the codecs write *)

Lemma Integer_get_reads (w : Z) (signed : bool) (ic : IntegerCodec) (x : Z) (le : bool) :
  Integer.new w signed = Normal ic ->
  minValue ic <= x <= maxValue ic ->
  reads (Integer.get ic le) (DataView.order le (DataView.le_bytes (Z.to_nat w) x)) x.
Proof.
  intros Hc Hx dv o Ho Hr Hw.
  pose proof (Integer_new_inv _ _ _ Hc) as [Hw3 _].
  rewrite order_length, le_bytes_length in *. rewrite Z2Nat.id in * by lia.
  now apply (Integer_get_window w signed).
Qed.

Lemma uint8s_reads (bs : list Z) (le : bool) :
  Forall is_byte bs -> reads (get_bytes (length bs) le) bs bs.
Proof.
  induction 1 as [|b rest Hb _ IH]; cbn [get_bytes length]; [apply reads_ret|].
  apply reads_cons with b; [now apply reads_uint8|].
  rewrite <- (app_nil_r rest) at 2. apply reads_bind with rest; [exact IH|apply reads_ret].
Qed.

Lemma set_each_flat_map (f : value -> M unit) (e : value -> list Z) (vs : list value) :
  Forall (fun x => writes (f x) (e x)) vs -> writes (set_each f vs) (flat_map e vs).
Proof.
  induction 1 as [|x xs Hx _ IH]; cbn [set_each flat_map]; [apply writes_ret|].
  now apply writes_bind.
Qed.

Lemma get_each_flat_map (g : M value) (e : value -> list Z) (d : value -> value)
      (vs : list value) :
  Forall (fun x => reads g (e x) (d x)) vs ->
  reads (get_each g (length vs)) (flat_map e vs) (map d vs).
Proof.
  induction 1 as [|x xs Hx _ IH]; cbn [get_each flat_map map length]; [apply reads_ret|].
  apply reads_bind with (d x); [exact Hx|].
  rewrite <- (app_nil_r (flat_map e xs)). apply reads_bind with (map d xs); [exact IH|].
  apply reads_ret.
Qed.

Lemma sum_lengths_flat_map (g : value -> completion Z) (e : value -> list Z)
      (vs : list value) :
  Forall (fun x => g x = Normal (Z.of_nat (length (e x)))) vs ->
  sum_lengths g vs = Normal (Z.of_nat (length (flat_map e vs))).
Proof.
  induction 1 as [|x xs Hx _ IH]; cbn [sum_lengths flat_map]; [reflexivity|].
  rewrite Hx, IH. cbn [cbind]. now rewrite length_app, Nat2Z.inj_add.
Qed.

Lemma fixed_lengths_flat_map (n : Z) (e : value -> list Z) (vs : list value) :
  Forall (fun x => Z.of_nat (length (e x)) = n) vs ->
  Z.of_nat (length (flat_map e vs)) = Z.of_nat (length vs) * n.
Proof.
  induction 1 as [|x xs Hx _ IH]; cbn [flat_map length]; [lia|].
  rewrite length_app, Nat2Z.inj_add, IH, Hx. lia.
Qed.

Lemma set_loop_bytes_are_bytes (fuel : nat) :
  forall r : Z, Forall is_byte (set_loop_bytes fuel r).
Proof.
  induction fuel as [|fuel IH]; intros r.
  - cbn [set_loop_bytes]. destruct (0 <? r); constructor.
  - rewrite set_loop_bytes_S. destruct (0 <? r); constructor; [|apply IH].
    apply set_loop_byte_range.
Qed.

Lemma varint_bytes_are_bytes (v : Z) : Forall is_byte (varint_bytes v).
Proof.
  unfold varint_bytes. destruct (v =? 0); [|apply set_loop_bytes_are_bytes].
  constructor; [unfold is_byte; lia|constructor].
Qed.

Lemma pack_are_bytes (values : list bool) : Forall is_byte (pack values).
Proof.
  unfold pack. apply Forall_map, Forall_forall. intros j _.
  pose proof (bits_value_range (take 8 (drop (8 * j) values))) as Hr.
  assert (Hl : (length (take 8 (drop (8 * j) values)) <= 8)%nat)
    by (rewrite length_take; lia).
  assert (2 ^ Z.of_nat (length (take 8 (drop (8 * j) values))) <= 2 ^ 8)
    by (apply Z.pow_le_mono_r; lia).
  unfold is_byte. change (2 ^ 8) with 256 in *. lia.
Qed.

Lemma le_bytes_are_bytes (w : nat) : forall x : Z, Forall is_byte (DataView.le_bytes w x).
Proof.
  induction w as [|w IH]; intros x; cbn [DataView.le_bytes]; constructor; [|apply IH].
  pose proof (Z.mod_pos_bound x 256 ltac:(lia)). unfold is_byte. lia.
Qed.

Lemma order_are_bytes (le : bool) (bs : list Z) :
  Forall is_byte bs -> Forall is_byte (DataView.order le bs).
Proof. destruct le; cbn [DataView.order]; [trivial|]. apply Forall_rev. Qed.

Lemma scalar_nonneg (s : list Z) : Forall scalar s -> Forall (fun cp => 0 <= cp) s.
Proof. intros H. eapply Forall_impl; [exact H|]. unfold scalar. intros cp. cbv beta. lia. Qed.

Lemma decodable_encodable (c : codec) : forall v, decodable c v -> encodable c v.
Proof.
  induction c as [| | w | ic | | | valueCodec IH |]; intros v Hd; try exact Hd.
  - cbn [decodable encodable] in *. destruct Hd as [Hf | (s & -> & Hs & Hl)]; [now left|].
    right. exists s. split; [reflexivity|]. split; [now apply scalar_nonneg|exact Hl].
  - cbn [decodable encodable] in *. destruct Hd as (vs & Hvs & Hlen & Hall).
    exists vs. split; [exact Hvs|]. split; [exact Hlen|].
    eapply Forall_impl; [exact Hall|]. intros x. apply IH.
Qed.

Lemma array_like_elements (v : value) (vs : list value) :
  array_like v = Normal vs -> elements v = vs.
Proof. intros H. unfold elements. now rewrite H. Qed.

(** The wire format and the round trip of every codec of the current file:
    [set] writes [encoding], [getByteLength] is its length, [get] reads
    [decoded] back from it, and it is made of bytes. *)
Lemma codec_wire (c : codec) :
  forall (v : value) (le : bool),
    decodable c v ->
    writes (set c v le) (encoding c v le) /\
    getByteLength c v = Normal (Z.of_nat (length (encoding c v le))) /\
    reads (get c le) (encoding c v le) (decoded c v) /\
    Forall is_byte (encoding c v le).
Proof.
  induction c as [| | w | ic | | | valueCodec IH |]; intros v le Hd;
    cbn [decodable encodable] in Hd.
  - (* boolean *)
    cbn [set get getByteLength encoding decoded]. repeat split.
    + destruct (truthy v); [exact (writes_uint8 1 le ltac:(lia))
                           | exact (writes_uint8 0 le ltac:(lia))].
    + unfold Boolean.get.
      assert (Hb : reads (Fixed.get Boolean.fixed le) [if truthy v then 1 else 0]
                     (if truthy v then 1 else 0)).
      { destruct (truthy v); [exact (reads_uint8 1 le ltac:(lia))
                             | exact (reads_uint8 0 le ltac:(lia))]. }
      apply (reads_map _ (fun x => negb (x =? 0))) in Hb.
      apply (reads_map _ VBoolean) in Hb.
      now destruct (truthy v).
    + constructor; [destruct (truthy v); unfold is_byte; lia|constructor].
  - (* boolean array *)
    destruct Hd as (vs & Hvs & Hlen).
    cbn [set get getByteLength encoding decoded].
    rewrite (array_like_elements _ _ Hvs), Hvs. cbn [cbind].
    assert (Hl : length (map truthy vs) = length vs) by apply length_map.
    rewrite <- Hl at 1 2 3. repeat split.
    + apply writes_lift, BooleanArray_set_writes.
    + rewrite BooleanArray_length_below_2_31 by (rewrite Hl; exact Hlen). reflexivity.
    + pose proof (BooleanArray_get_reads (map truthy vs) le
                    ltac:(rewrite Hl; exact Hlen)) as Hr.
      apply (reads_map _ (fun values => VArray (map VBoolean values))) in Hr.
      now rewrite map_map in Hr.
    + apply Forall_app. split; [apply varint_bytes_are_bytes|apply pack_are_bytes].
  - contradiction.
  - (* integers *)
    destruct Hd as ((w & signed & Hc) & n & Hn).
    pose proof (Integer_new_inv _ _ _ Hc) as [Hw Heq].
    pose proof (Integer_new_ranges _ _ _ Hc) as (_ & _ & Hrange).
    assert (Hbl : byteLength (fixed ic) = w) by now rewrite Heq.
    cbn [set get getByteLength encoding decoded]. rewrite Hbl.
    assert (Hnum : number_of v = match n with Some n => n | None => 0 end)
      by (unfold number_of; rewrite Hn; now destruct n).
    rewrite Hnum. repeat split.
    + rewrite Hn. apply writes_lift. destruct n as [n|].
      * now apply (Integer_set_writes w signed).
      * pose proof (Integer_set_writes w signed ic 0 le Hc) as H0.
        unfold Integer.set in H0. rewrite (clamp_in_range ic 0) in H0 at 1 by lia.
        exact H0.
    + rewrite Integer_bytes_length by lia.
      unfold Integer.getByteLength, Fixed.getByteLength. now rewrite Hbl.
    + apply (reads_map _ VNumber). apply (Integer_get_reads w signed); [exact Hc|].
      now apply (clamp_range w signed).
    + apply order_are_bytes, le_bytes_are_bytes.
  - (* strings *)
    cbn [set get getByteLength encoding decoded].
    assert (Hempty : forall le,
               reads (length <- VariableLength.get le ;;
                      if 0 <? length then
                        string <- get_bytes (Z.to_nat length) le ;;
                        match utf8.decode string with
                        | Some s => ret (VString s)
                        | None => throw (Error "Invalid UTF-8 detected")
                        end
                      else ret (VString [])) [0] (VString [])).
    { intros le'. change [0] with (varint_bytes 0 ++ []).
      apply reads_bind with 0; [apply VariableLength_get_reads; lia|].
      change (0 <? 0) with false. cbv iota. apply reads_ret. }
    destruct (truthy v) eqn:Ht.
    + destruct Hd as [Hf | (s & -> & Hs & Hlen)]; [discriminate|].
      pose proof (utf8_length_ge s) as Hge. pose proof (utf8_encode_length s) as Hel.
      assert (Hpos : 0 < Z.of_nat (length (utf8.encode s)))
        by (destruct s; [discriminate|cbn [length] in Hge; lia]).
      pose proof (utf8_encode_bytes s (scalar_nonneg s Hs)) as Hbytes.
      repeat split.
      * apply writes_bind; [apply VariableLength_set_writes|].
        now apply set_bytes_writes.
      * rewrite varint_bytes_length by lia.
        cbn [number_length cbind]. change (Integer.getByteLength uint8) with 1.
        rewrite length_app, Nat2Z.inj_add. f_equal. lia.
      * apply reads_bind with (Z.of_nat (length (utf8.encode s)));
          [apply VariableLength_get_reads; lia|].
        destruct (Z.ltb_spec 0 (Z.of_nat (length (utf8.encode s)))); [|lia].
        rewrite Nat2Z.id. rewrite <- (app_nil_r (utf8.encode s)) at 2.
        apply reads_bind with (utf8.encode s); [now apply uint8s_reads|].
        rewrite decode_encode by exact Hs. apply reads_ret.
      * apply Forall_app. split; [apply varint_bytes_are_bytes|exact Hbytes].
    + assert (He : match v with
                   | VString s => varint_bytes (Z.of_nat (length (utf8.encode s)))
                                    ++ utf8.encode s
                   | _ => [0]
                   end = [0])
        by (destruct v as [| | |[|? ?]| |]; try reflexivity; discriminate).
      assert (Hv : match v with VString s => VString s | _ => VString [] end = VString [])
        by (destruct v as [| | |[|? ?]| |]; try reflexivity; discriminate).
      rewrite He, Hv. repeat split.
      * apply (VariableLength_set_writes 0).
      * apply Hempty.
      * constructor; [unfold is_byte; lia|constructor].
  - (* variable length *)
    destruct Hd as (n & Hn & Hrange).
    assert (Hnum : number_of v = n) by (unfold number_of; now rewrite Hn).
    cbn [set get getByteLength encoding decoded]. rewrite Hn, Hnum. cbn [cbind].
    repeat split.
    + apply writes_lift, VariableLength_set_writes.
    + now rewrite varint_bytes_length.
    + apply (reads_map _ VNumber). now apply VariableLength_get_reads.
    + apply varint_bytes_are_bytes.
  - (* arrays *)
    destruct Hd as (vs & Hvs & Hlen & Hall).
    assert (Hws : Forall (fun x => writes (set valueCodec x le) (encoding valueCodec x le)) vs)
      by (eapply Forall_impl; [exact Hall|]; intros x Hx; apply (IH x le Hx)).
    assert (Hls : Forall (fun x => getByteLength valueCodec x
                                   = Normal (Z.of_nat (length (encoding valueCodec x le)))) vs)
      by (eapply Forall_impl; [exact Hall|]; intros x Hx; apply (IH x le Hx)).
    assert (Hrs : Forall (fun x => reads (get valueCodec le) (encoding valueCodec x le)
                                     (decoded valueCodec x)) vs)
      by (eapply Forall_impl; [exact Hall|]; intros x Hx; apply (IH x le Hx)).
    assert (Hbs : Forall (fun x => Forall is_byte (encoding valueCodec x le)) vs)
      by (eapply Forall_impl; [exact Hall|]; intros x Hx; apply (IH x le Hx)).
    cbn [set get getByteLength encoding decoded].
    rewrite (array_like_elements _ _ Hvs), Hvs. cbn [cbind]. repeat split.
    + apply writes_lift, writes_bind; [apply VariableLength_set_writes|].
      destruct (Z.ltb_spec 0 (Z.of_nat (length vs))) as [Hpos|Hz].
      * now apply set_each_flat_map.
      * destruct vs; [|cbn [length] in Hz; lia]. apply writes_ret.
    + assert (Hsum : (if fixedByteLength valueCodec
                      then cbind (getByteLength valueCodec VUndefined)
                             (fun n => Normal (Z.of_nat (length vs) * n))
                      else sum_lengths (getByteLength valueCodec) vs)
                     = Normal (Z.of_nat (length
                         (flat_map (fun x => encoding valueCodec x le) vs)))).
      { destruct (fixedByteLength valueCodec) eqn:Hfix;
          [|now apply sum_lengths_flat_map].
        destruct (getByteLength valueCodec VUndefined) as [n| |] eqn:Hn.
        - cbn [cbind]. f_equal. rewrite (fixed_lengths_flat_map n); [reflexivity|].
          eapply Forall_impl; [exact Hls|]. intros x Hx. cbv beta in Hx.
          rewrite fixed_getByteLength_const, Hn in Hx by assumption. congruence.
        - destruct valueCodec; discriminate.
        - destruct valueCodec; discriminate. }
      rewrite Hsum. cbn [cbind].
      rewrite varint_bytes_length by lia. cbn [number_length cbind].
      now rewrite length_app, Nat2Z.inj_add.
    + apply reads_bind with (Z.of_nat (length vs)); [apply VariableLength_get_reads; lia|].
      destruct (Z.ltb_spec 0 (Z.of_nat (length vs))) as [Hpos|Hz].
      * rewrite Nat2Z.id.
        pose proof (get_each_flat_map _ _ _ _ Hrs) as Hr.
        now apply (reads_map _ VArray) in Hr.
      * destruct vs; [|cbn [length] in Hz; lia]. apply reads_ret.
    + apply Forall_app. split; [apply varint_bytes_are_bytes|].
      clear - Hbs. induction Hbs as [|x xs Hx _ IHx]; cbn [flat_map]; [constructor|].
      apply Forall_app. now split.
  - contradiction.
Qed.

(** ** Objects *)

Lemma getByteLength_loop_flag (fs : list Field) (object : value) :
  forall (len : Z) (fixed_ : bool) (n : Z) (fixed' : bool),
    Object.getByteLength_loop fs object len fixed_ = Normal (n, fixed') ->
    fixed' = fixed_ && all_fixed fs.
Proof.
  induction fs as [|f fs IH]; intros len fixed_ n fixed' H;
    cbn [Object.getByteLength_loop all_fixed forallb] in *.
  - injection H as _ <-. now rewrite andb_true_r.
  - destruct (field_codec f) as [c|]; [|discriminate].
    destruct (get_prop object (key f)) as [v| |]; cbn [cbind] in H; try discriminate.
    destruct (getByteLength c v) as [m| |]; cbn [cbind] in H; try discriminate.
    apply IH in H. rewrite H. unfold all_fixed. now rewrite andb_assoc.
Qed.

Lemma Object_wire (fs : list Field) (object : value) :
  fields_decodable fs object ->
  writes (Object.set_loop fs object) (object_encoding fs object) /\
  (forall (len : Z) (fixed_ : bool),
      Object.getByteLength_loop fs object len fixed_
      = Normal (len + Z.of_nat (length (object_encoding fs object)),
                fixed_ && all_fixed fs)) /\
  (forall props : list (string * value),
      reads (Object.get_loop fs props) (object_encoding fs object)
        (fold_left (fun props f => assign_prop (key f) (field_decoded object f) props)
           fs props)) /\
  Forall is_byte (object_encoding fs object).
Proof.
  induction 1 as [|f fs (_ & c & v & Hc & Hv & Hd) _ (Hw' & Hl' & Hr' & Hb')];
    unfold object_encoding in *; cbn [flat_map fold_left].
  - repeat split; [apply writes_ret| |intros props; apply reads_ret|constructor].
    intros len fixed_. cbn [Object.getByteLength_loop length all_fixed forallb].
    now rewrite Z.add_0_r, andb_true_r.
  - destruct (codec_wire c v false Hd) as (Hw & Hl & Hr & Hb).
    assert (He : field_encoding object f = encoding c v false)
      by (unfold field_encoding, prop_of; now rewrite Hc, Hv).
    assert (Hf : field_decoded object f = decoded c v)
      by (unfold field_decoded, prop_of; now rewrite Hc, Hv).
    rewrite He, Hf. repeat split.
    + cbn [Object.set_loop]. rewrite Hc, Hv. apply writes_lift. now apply writes_bind.
    + intros len fixed_. cbn [Object.getByteLength_loop]. rewrite Hc, Hv. cbn [cbind].
      rewrite Hl. cbn [cbind]. rewrite Hl', length_app, Nat2Z.inj_add.
      cbn [all_fixed forallb]. rewrite Hc. unfold all_fixed.
      rewrite andb_assoc. do 2 f_equal. lia.
    + intros props. cbn [Object.get_loop]. rewrite Hc.
      apply reads_bind with (decoded c v); [exact Hr|apply Hr'].
    + apply Forall_app. now split.
Qed.

Lemma lookup_assign (k k' : string) (v : value) (props : list (string * value)) :
  lookup_prop k (assign_prop k' v props)
  = if String.eqb k' k then v else lookup_prop k props.
Proof.
  induction props as [|[k0 v0] rest IH]; cbn [assign_prop lookup_prop].
  - reflexivity.
  - destruct (String.eqb_spec k0 k') as [->|Hne]; cbn [lookup_prop].
    + now destruct (String.eqb k' k).
    + rewrite IH. destruct (String.eqb_spec k0 k) as [->|Hne']; [|reflexivity].
      destruct (String.eqb_spec k' k) as [->|_]; [contradiction|reflexivity].
Qed.

(** After the assignments of a loop over keyed entries, a key holds what
    the last entry declared under it assigned. *)
Lemma lookup_fold_assign {A} (key_of : A -> string) (g : A -> value) (l : list A) :
  forall (props : list (string * value)) (k : string),
    lookup_prop k (fold_left (fun props a => assign_prop (key_of a) (g a) props) l props)
    = match last_keyed key_of k l with
      | Some a => g a
      | None => lookup_prop k props
      end.
Proof.
  induction l as [|a l IH]; intros props k; cbn [fold_left last_keyed]; [reflexivity|].
  rewrite IH. destruct (last_keyed key_of k l); [reflexivity|].
  rewrite lookup_assign. now destruct (String.eqb (key_of a) k).
Qed.

(** ** Definitions *)

Lemma fixed_fields_width (fs : list Field) (object : value) :
  fields_decodable fs object -> all_fixed fs = true ->
  Z.of_nat (length (object_encoding fs object)) = fields_width fs.
Proof.
  induction 1 as [|f fs (_ & c & v & Hc & Hv & Hd) _ IH];
    unfold object_encoding in *; cbn [flat_map fields_width fold_right all_fixed forallb];
    [reflexivity|].
  rewrite Hc. intros [Hfix Hrest]%andb_true_iff.
  destruct (codec_wire c v false Hd) as (_ & Hl & _ & _).
  rewrite length_app, Nat2Z.inj_add, (IH Hrest).
  unfold field_encoding, prop_of. rewrite Hc, Hv.
  unfold codec_width. rewrite <- (fixed_getByteLength_const c v Hfix), Hl. reflexivity.
Qed.

Lemma with_cache_codec (c : definition_codec) :
  DefinitionOps.codec_set (with_cache c) = DefinitionOps.codec_set c /\
  DefinitionOps.codec_get (with_cache c) = DefinitionOps.codec_get c /\
  definition_encoding (with_cache c) = definition_encoding c /\
  definition_decoded (with_cache c) = definition_decoded c.
Proof.
  destruct c as [c|o]; cbn [with_cache]; [repeat split|].
  destruct (all_fixed (fields o)); repeat split.
Qed.

Lemma with_cache_decodable (c : definition_codec) (object : value) :
  definition_decodable c object -> definition_decodable (with_cache c) object.
Proof.
  destruct c as [c|o]; cbn [with_cache definition_decodable]; [trivial|].
  intros [Hf Hc]. destruct (all_fixed (fields o)) eqn:Hfix; [|now split].
  cbn [fields]. split; [exact Hf|]. unfold cache_ok. cbn [cachedByteLength fields].
  now split.
Qed.

Lemma definition_wire (c : definition_codec) (object : value) :
  definition_decodable c object ->
  DefinitionOps.codec_getByteLength c object
  = Normal (Z.of_nat (length (definition_encoding c object)), with_cache c) /\
  writes (DefinitionOps.codec_set c object) (definition_encoding c object) /\
  reads (DefinitionOps.codec_get c) (definition_encoding c object)
    (definition_decoded c object) /\
  Forall is_byte (definition_encoding c object).
Proof.
  destruct c as [c|o];
    cbn [definition_decodable definition_encoding definition_decoded with_cache
         DefinitionOps.codec_getByteLength DefinitionOps.codec_set DefinitionOps.codec_get].
  - intros Hd. destruct (codec_wire c object false Hd) as (Hw & Hl & Hr & Hb).
    rewrite Hl. cbn [cbind]. repeat split; assumption.
  - intros [Hf Hc]. destruct (Object_wire _ _ Hf) as (Hw & Hl & Hr & Hb).
    repeat split; [|exact Hw| |exact Hb].
    + unfold Object.getByteLength. unfold cache_ok in Hc.
      destruct o as [fs [n|]]; cbn [cachedByteLength fields] in *.
      * destruct Hc as [Hfix ->]. cbn [cbind]. rewrite Hfix.
        now rewrite (fixed_fields_width fs object Hf Hfix).
      * rewrite Hl. cbn [cbind andb]. rewrite Z.add_0_l.
        destruct (all_fixed fs) eqn:Hfix; [|reflexivity].
        now rewrite (fixed_fields_width fs object Hf Hfix).
    + unfold Object.get. apply (reads_map _ VObject). apply Hr.
Qed.

Lemma create_writes (m : M unit) (bs : list Z) :
  writes m bs ->
  cbind (m (StreamViewOps.create (Z.of_nat (length bs))))
    (fun '(_, sv) => Normal (StreamViewOps.toArray sv)) = Normal bs.
Proof.
  intros H. pose proof (encode_with_writes _ _ H) as He. unfold encode_with in He.
  destruct (m (StreamViewOps.create (Z.of_nat (length bs)))) as [[[] sv]| |];
    cbn [cbind] in *; [|discriminate..].
  injection He as Hd _. unfold StreamViewOps.toArray. now rewrite Hd.
Qed.

Lemma parse_reads (c : definition_codec) (bs : list Z) (v : value) :
  Forall is_byte bs -> reads (DefinitionOps.codec_get c) bs v ->
  forall (id : option Z) (key : option string) (le : option bool),
    DefinitionOps.parse (mkDefinition c id key le) bs = Normal v.
Proof.
  intros Hb Hr id key le. unfold DefinitionOps.parse. cbn [def_codec].
  rewrite createFromString_bytes by exact Hb. cbn [cbind].
  rewrite Hr; [reflexivity | lia | unfold DataView.byteLength; lia |].
  cbn [Z.to_nat drop]. rewrite drop_0. apply take_ge. lia.
Qed.

(** X6. A definition round-trips: [stringify] returns the wire format of the
    object, and [parse], by the definition as it was or as [stringify] left
    it, returns the decoded object; the definition stays usable. *)
Theorem definition_roundtrip (d : Definition_) (object : value) :
  definition_decodable (def_codec d) object ->
  let bytes := definition_encoding (def_codec d) object in
  let d' := fst (DefinitionOps.stringify d object) in
  snd (DefinitionOps.stringify d object) = Normal bytes /\
  DefinitionOps.parse d bytes = Normal (definition_decoded (def_codec d) object) /\
  DefinitionOps.parse d' bytes = Normal (definition_decoded (def_codec d) object) /\
  (forall rest : list Z,
      Forall is_byte rest ->
      DefinitionOps.parse d (bytes ++ rest)
      = Normal (definition_decoded (def_codec d) object)) /\
  def_codec d' = with_cache (def_codec d) /\
  (forall object' : value,
      definition_decodable (def_codec d) object' ->
      definition_decodable (def_codec d') object').
Proof.
  intros Hd. destruct (definition_wire _ _ Hd) as (Hl & Hw & Hr & Hb).
  destruct (with_cache_codec (def_codec d)) as (Hset & Hget & _ & _).
  cbv zeta. unfold DefinitionOps.stringify. rewrite Hl. cbn [fst snd def_codec].
  rewrite Hset. repeat split.
  - now apply create_writes.
  - destruct d as [c id key le]. now apply parse_reads.
  - apply parse_reads; [exact Hb|]. now rewrite Hget.
  - intros rest Hrest. unfold DefinitionOps.parse.
    rewrite createFromString_bytes by (apply Forall_app; now split). cbn [cbind].
    rewrite Hr; [reflexivity | lia | unfold DataView.byteLength; rewrite length_app; lia |].
    cbn [Z.to_nat drop]. rewrite drop_0. apply take_app_length.
  - intros object'. apply with_cache_decodable.
Qed.

(** ** Schemas *)

Lemma Definition_new_fields (codec : codecSpec) (id : option Z) (key : option string)
      (le : option bool) (args : list codecArg) (d : Definition_) :
  DefinitionOps.new codec id key le args = Normal d ->
  def_id d = id /\ def_key d = key /\ def_littleEndian d = le.
Proof.
  unfold DefinitionOps.new. intros H.
  destruct (match codec with ByName _ => _ | ByCodec _ => _ end) as [c| |];
    cbn [cbind] in H; [|discriminate..].
  injection H as <-. repeat split.
Qed.

Lemma define_consistent (s : Schema) (key : string) (codec : codecSpec)
      (args : list codecArg) :
  consistent s -> consistent (fst (SchemaOps.define s key codec args)).
Proof.
  intros (Ht & Hn & Hnames & Hids). unfold SchemaOps.define.
  destruct (DefinitionOps.new codec (Some (nextDefinitionId s)) (Some key) None args)
    as [definition| |] eqn:Hnew; cbn [fst].
  - apply Definition_new_fields in Hnew as (Hid & Hkey & _).
    unfold consistent. cbn [idType nextDefinitionId definitions definitionsById].
    split; [exact Ht|]. split; [lia|]. split.
    + intros k d [[<- <-] | [Hne Hd]]%lookup_insert_Some.
      * split; [exact Hkey|]. exists (nextDefinitionId s). split; [exact Hid|].
        apply lookup_insert_eq.
      * destruct (Hnames k d Hd) as (Hk & i & Hi & Hbi). split; [exact Hk|].
        exists i. split; [exact Hi|].
        destruct (Hids i d Hbi) as [_ Hr]. rewrite lookup_insert_ne by lia. exact Hbi.
    + intros i d [[<- <-] | [Hne Hd]]%lookup_insert_Some.
      * split; [exact Hid|lia].
      * destruct (Hids i d Hd) as [Hi Hr]. split; [exact Hi|lia].
  - unfold consistent. cbn [idType nextDefinitionId definitions definitionsById].
    split; [exact Ht|]. split; [lia|]. split; [exact Hnames|].
    intros i d Hd. destruct (Hids i d Hd) as [Hi Hr]. split; [exact Hi|lia].
  - unfold consistent. cbn [idType nextDefinitionId definitions definitionsById].
    split; [exact Ht|]. split; [lia|]. split; [exact Hnames|].
    intros i d Hd. destruct (Hids i d Hd) as [Hi Hr]. split; [exact Hi|lia].
Qed.

Lemma store_consistent (s : Schema) (key : string) (d : Definition_) (c : definition_codec) :
  consistent s -> definitions s !! key = Some d ->
  consistent (SchemaOps.store s key
                (mkDefinition c (def_id d) (def_key d) (def_littleEndian d))).
Proof.
  intros (Ht & Hn & Hnames & Hids) Hd.
  destruct (Hnames key d Hd) as (Hk & i & Hi & Hbi).
  unfold consistent, SchemaOps.store.
  cbn [idType nextDefinitionId definitions definitionsById def_id]. rewrite Hi.
  split; [exact Ht|]. split; [exact Hn|]. split.
  - intros k d0 [[<- <-] | [Hne Hd0]]%lookup_insert_Some.
    + cbn [def_key def_id]. split; [exact Hk|]. exists i. split; [first [exact Hi|reflexivity]|].
      apply lookup_insert_eq.
    + destruct (Hnames k d0 Hd0) as (Hk0 & i0 & Hi0 & Hbi0). split; [exact Hk0|].
      exists i0. split; [exact Hi0|].
      destruct (Z.eq_dec i i0) as [<-|Hne0]; [|now rewrite lookup_insert_ne].
      exfalso. rewrite Hbi in Hbi0. injection Hbi0 as <-. congruence.
  - intros i0 d0 [[<- <-] | [Hne Hd0]]%lookup_insert_Some.
    + cbn [def_id]. split; [first [exact Hi|reflexivity]|]. now apply (Hids i d).
    + now apply Hids.
Qed.

Lemma stringify_consistent (s : Schema) (key : string) (object : value) :
  consistent s -> consistent (fst (SchemaOps.stringify s key object)).
Proof.
  intros Hs. unfold SchemaOps.stringify.
  destruct (definitions s !! key) as [d|] eqn:Hd;
    [|destruct (inherited key); [|destruct (definitions s !! "__proto__"%string)]; exact Hs].
  destruct (assoc (idType s) _codecs) as [idCodec|]; [|exact Hs].
  destruct (negb (fixedByteLength idCodec)); [exact Hs|].
  destruct (getByteLength idCodec VUndefined) as [idLength| |];
    destruct (DefinitionOps.codec_getByteLength (def_codec d) object) as [[n c']| |];
    try exact Hs.
  cbn [fst]. now apply store_consistent.
Qed.

(** Every [define] has an outcome in the model: the definition is built or
    the constructor throws. *)
Lemma Field_new_modelled (options : FieldOptions) : FieldOps.new options <> Unmodelled.
Proof.
  unfold FieldOps.new, ArrayCodecOps.new.
  repeat match goal with
         | |- context [if ?b then _ else _] => destruct b
         | |- context [match ?x with _ => _ end] => destruct x
         | |- _ => cbn [cbind]; discriminate
         end.
Qed.

Lemma map_fields_modelled (fs : list FieldOptions) : Object.map_fields fs <> Unmodelled.
Proof.
  induction fs as [|options fs IH]; cbn [Object.map_fields]; [discriminate|].
  pose proof (Field_new_modelled options) as Hf.
  destruct (FieldOps.new options); cbn [cbind]; [|discriminate|contradiction].
  destruct (Object.map_fields fs); cbn [cbind]; [discriminate..|contradiction].
Qed.

Lemma Definition_new_modelled (codec : codecSpec) (id : option Z) (key : option string)
      (le : option bool) (args : list codecArg) :
  DefinitionOps.new codec id key le args <> Unmodelled.
Proof.
  unfold DefinitionOps.new. destruct codec as [name|c]; [|discriminate].
  destruct (isValidType (Some name)) eqn:Hv; cbn [negb]; [|discriminate].
  destruct (assoc name _codecs) as [c|] eqn:Ha; [discriminate|].
  unfold isValidType in Hv. rewrite Ha, orb_false_r in Hv.
  apply existsb_eqb_In in Hv. cbn in Hv.
  repeat (destruct Hv as [<- | Hv]; [|]); try contradiction; try discriminate Ha.
  - (* array *)
    cbn -[ArrayCodecOps.new Integer.new Object.new Z.eqb].
    destruct args as [|[fs|n|w|w sg] args]; cbn [cbind]; try discriminate.
    unfold ArrayCodecOps.new. destruct (assoc n _codecs); [discriminate|].
    destruct (inherited n); discriminate.
  - (* float *)
    cbn -[ArrayCodecOps.new Integer.new Object.new Z.eqb].
    destruct args as [|[fs|n|w|w sg] args]; try discriminate;
      destruct ((w =? 4) || (w =? 8)); discriminate.
  - (* int *)
    cbn -[ArrayCodecOps.new Integer.new Object.new Z.eqb].
    destruct args as [|[fs|n|w|w sg] args]; try discriminate;
      unfold Integer.new, Fixed.new;
      repeat match goal with
             | |- context [if ?b then _ else _] => destruct b
             | |- _ => cbn [cbind]; discriminate
             end.
  - (* object *)
    cbn -[ArrayCodecOps.new Integer.new Object.new Z.eqb].
    destruct args as [|[fs|n|w|w sg] args]; try discriminate.
    unfold Object.new. pose proof (map_fields_modelled fs) as Hm.
    destruct (Object.map_fields fs); cbn [cbind]; [discriminate..|contradiction].
Qed.

Lemma define_modelled (s : Schema) (key : string) (codec : codecSpec) (args : list codecArg) :
  snd (SchemaOps.define s key codec args) <> Unmodelled.
Proof.
  unfold SchemaOps.define.
  pose proof (Definition_new_modelled codec (Some (nextDefinitionId s)) (Some key) None args).
  destruct (DefinitionOps.new codec (Some (nextDefinitionId s)) (Some key) None args);
    cbn [snd]; [discriminate..|contradiction].
Qed.

(** An array codec whose value codec is a name found on [Object.prototype]
    is constructed and registered; it encodes the empty and the absent
    array, and throws on any element. *)
Lemma define_array_of_inherited_name :
  let s := fst (SchemaOps.define
                  (fst (SchemaOps.define createSchema "a" (ByName "uint8") []))
                  "a" (ByName "array") [ArgValueCodec "toString"]) in
  (def_codec <$> definitions s !! "a"%string) = Some (CodecOf (ArrayCodec ForeignCodec)) /\
  (def_id <$> definitions s !! "a"%string) = Some (Some 2) /\
  snd (SchemaOps.stringify s "a" (VNumber 5)) = Normal [2; 0] /\
  SchemaOps.parse s [2; 0] = Normal (mkParsed (Some "a"%string) (VArray [])) /\
  snd (SchemaOps.stringify s "a" (VArray [VNumber 5])) = Throw TypeError /\
  SchemaOps.parse s [2; 1; 5] = Throw TypeError.
Proof. cbv zeta. repeat split; vm_compute; reflexivity. Qed.

Lemma reachable_consistent (s : Schema) : reachable s -> consistent s.
Proof.
  induction 1 as [|s key codec args _ _ IH|s key object _ IH].
  - unfold consistent, createSchema, SchemaOps.new.
    cbn [idType nextDefinitionId definitions definitionsById].
    split; [reflexivity|]. split; [lia|].
    split; intros ? ? H; rewrite lookup_empty in H; discriminate.
  - now apply define_consistent.
  - now apply stringify_consistent.
Qed.

Lemma writes_uint8_clamp (b : Z) (le : bool) :
  writes (Integer.set uint8 b le) [Integer.clamp uint8 b].
Proof.
  pose proof (Integer_set_writes 1 false uint8 b le eq_refl) as H.
  pose proof (clamp_range 1 false uint8 b eq_refl) as Hr. cbn [minValue maxValue uint8] in Hr.
  change (DataView.le_bytes (Z.to_nat 1) (Integer.clamp uint8 b))
    with [Integer.clamp uint8 b mod 256] in H.
  rewrite Z.mod_small in H by lia. now destruct le.
Qed.

Lemma schema_stringify_bytes (s : Schema) (key : string) (d : Definition_) (id : Z)
      (object : value) :
  idType s = "uint8"%string -> definitions s !! key = Some d -> def_id d = Some id ->
  definition_decodable (def_codec d) object ->
  SchemaOps.stringify s key object
  = (SchemaOps.store s key
       (mkDefinition (with_cache (def_codec d)) (def_id d) (def_key d)
          (def_littleEndian d)),
     Normal (Integer.clamp uint8 id :: definition_encoding (def_codec d) object)).
Proof.
  intros Ht Hd Hid Hdec. destruct (definition_wire _ _ Hdec) as (Hl & Hw & _ & _).
  destruct (with_cache_codec (def_codec d)) as (Hset & _ & _ & _).
  unfold SchemaOps.stringify. rewrite Hd, Ht.
  change (assoc "uint8" _codecs) with (Some (IntCodec uint8)). cbv beta iota.
  change (negb (fixedByteLength (IntCodec uint8))) with false. cbv beta iota.
  change (getByteLength (IntCodec uint8) VUndefined) with (Normal 1 : completion Z).
  rewrite Hl, Hid, Hset. f_equal.
  replace (1 + Z.of_nat (length (definition_encoding (def_codec d) object)))
    with (Z.of_nat (length (Integer.clamp uint8 id
                              :: definition_encoding (def_codec d) object)))
    by (cbn [length]; lia).
  apply create_writes, writes_cons; [|exact Hw].
  cbn [set ToNumber]. apply writes_lift, writes_uint8_clamp.
Qed.

Lemma schema_parse_dispatch (s : Schema) (id : Z) (body : list Z) :
  idType s = "uint8"%string -> is_byte id -> Forall is_byte body ->
  SchemaOps.parse s (id :: body)
  = match definitionsById s !! id with
    | None => Throw not_defined_in_schema
    | Some d =>
        cbind (DefinitionOps.codec_get (def_codec d) (mkStreamView (id :: body) 1))
          (fun '(data, _) => Normal (mkParsed (def_key d) data))
    end.
Proof.
  intros Ht Hid Hb. unfold SchemaOps.parse.
  rewrite createFromString_bytes by (constructor; assumption). cbn [cbind]. rewrite Ht.
  change (assoc "uint8" _codecs) with (Some (IntCodec uint8)). cbv beta iota.
  rewrite get_uint8_first by exact Hid. reflexivity.
Qed.

Lemma reads_after_id (c : definition_codec) (id : Z) (body : list Z) (v : value) :
  reads (DefinitionOps.codec_get c) body v ->
  exists sv, DefinitionOps.codec_get c (mkStreamView (id :: body) 1) = Normal (v, sv).
Proof.
  intros Hr. eexists. apply Hr; [lia | unfold DataView.byteLength; cbn [length]; lia |].
  change (Z.to_nat 1) with 1%nat. cbn [drop]. rewrite drop_0. apply take_ge. lia.
Qed.


(** X8. In a schema built by [createSchema], [define] under names no object
    inherits, and [stringify], a registered name round-trips while the ids
    fit a byte: [stringify] returns the id and the wire format of the value,
    and [parse] of these bytes, before or after the call, returns the name
    and the decoded value. *)
Theorem schema_roundtrip (s : Schema) (key : string) (d : Definition_) (object : value) :
  reachable s ->
  nextDefinitionId s <= 256 ->
  definitions s !! key = Some d ->
  definition_decodable (def_codec d) object ->
  exists id : Z,
    def_id d = Some id /\ 1 <= id <= 255 /\
    let bytes := id :: definition_encoding (def_codec d) object in
    let parsed := mkParsed (Some key) (definition_decoded (def_codec d) object) in
    snd (SchemaOps.stringify s key object) = Normal bytes /\
    SchemaOps.parse s bytes = Normal parsed /\
    SchemaOps.parse (fst (SchemaOps.stringify s key object)) bytes = Normal parsed.
Proof.
  intros Hs Hnext Hd Hdec.
  destruct (reachable_consistent s Hs) as (Ht & _ & Hnames & Hids).
  destruct (Hnames key d Hd) as (Hk & id & Hid & Hbi).
  destruct (Hids id d Hbi) as [_ Hr].
  destruct (definition_wire _ _ Hdec) as (_ & _ & Hread & Hb).
  exists id. split; [exact Hid|]. split; [lia|]. cbv zeta.
  rewrite (schema_stringify_bytes s key d id object Ht Hd Hid Hdec). cbn [fst snd].
  rewrite clamp_in_range by (cbn [minValue maxValue uint8]; lia).
  destruct (reads_after_id _ id _ _ Hread) as (sv & Hsv).
  split; [reflexivity|]. split.
  - rewrite schema_parse_dispatch by (assumption || (unfold is_byte; lia)).
    rewrite Hbi, Hsv. cbn [cbind]. now rewrite Hk.
  - rewrite schema_parse_dispatch by (assumption || (unfold is_byte; lia)).
    unfold SchemaOps.store. cbn [definitionsById def_id]. rewrite Hid, lookup_insert_eq.
    cbn [def_codec def_key].
    destruct (with_cache_codec (def_codec d)) as (_ & Hget & _ & _).
    rewrite Hget, Hsv. cbn [cbind]. now rewrite Hk.
Qed.

(** X9. From the 256th definition on, the id is written as 255: the uint8
    id codec clamps it. [parse] of the bytes [stringify] returns throws the
    not-defined error when no definition has the id 255; otherwise it is
    another definition that has it, and [parse] reads the bytes after the id
    with the codec of that definition and reports its key: the data of the
    result is what that codec decodes. *)
Theorem schema_id_above_255 (s : Schema) (key : string) (d : Definition_) (id : Z)
        (object : value) :
  reachable s ->
  definitions s !! key = Some d ->
  def_id d = Some id -> 255 < id ->
  definition_decodable (def_codec d) object ->
  let bytes := 255 :: definition_encoding (def_codec d) object in
  snd (SchemaOps.stringify s key object) = Normal bytes /\
  (definitionsById s !! 255 = None ->
   SchemaOps.parse s bytes = Throw not_defined_in_schema) /\
  (forall d' : Definition_,
      definitionsById s !! 255 = Some d' ->
      def_id d' = Some 255 /\ d' <> d /\
      SchemaOps.parse s bytes
      = cbind (DefinitionOps.codec_get (def_codec d') (mkStreamView bytes 1))
          (fun '(data, _) => Normal (mkParsed (def_key d') data))) /\
  (forall r : Parsed,
      SchemaOps.parse s bytes = Normal r ->
      exists (d' : Definition_) (sv : StreamView),
        definitionsById s !! 255 = Some d' /\ def_id d' = Some 255 /\
        parsed_key r = def_key d' /\
        DefinitionOps.codec_get (def_codec d') (mkStreamView bytes 1)
        = Normal (parsed_data r, sv)).
Proof.
  intros Hs Hd Hid Hbig Hdec.
  destruct (reachable_consistent s Hs) as (Ht & _ & Hnames & Hids).
  destruct (definition_wire _ _ Hdec) as (_ & _ & _ & Hb).
  cbv zeta. rewrite (schema_stringify_bytes s key d id object Ht Hd Hid Hdec). cbn [snd].
  assert (Hc : Integer.clamp uint8 id = 255).
  { unfold Integer.clamp. cbn [minValue maxValue uint8].
    destruct (Z.ltb_spec id 0); [lia|]. destruct (Z.ltb_spec 255 id); [reflexivity|lia]. }
  rewrite Hc. split; [reflexivity|].
  rewrite schema_parse_dispatch by (assumption || (unfold is_byte; lia)).
  split; [|split].
  - now intros ->.
  - intros d' Hd'. rewrite Hd'. destruct (Hids 255 d' Hd') as [Hid' _].
    split; [exact Hid'|]. split; [|reflexivity].
    intros ->. rewrite Hid in Hid'. injection Hid' as ->. lia.
  - intros r. destruct (definitionsById s !! 255) as [d'|] eqn:Hd'; [|discriminate].
    intros Hr.
    destruct (DefinitionOps.codec_get (def_codec d') _) as [[data sv]| |] eqn:Hget;
      cbn [cbind] in Hr; [|discriminate..].
    exists d', sv. split; [reflexivity|]. split; [now apply (Hids 255 d')|].
    injection Hr as <-. split; [reflexivity|exact Hget].
Qed.

Lemma reachable_iter (f : Schema -> Schema) (n : nat) :
  (forall s, reachable s -> reachable (f s)) -> reachable (Nat.iter n f createSchema).
Proof.
  intros Hf. induction n as [|n IH]; cbn [Nat.iter]; [apply reachable_createSchema|].
  now apply Hf.
Qed.


Lemma schema_roundtrip_witness :
  exists id : Z,
    Some 2 = Some id /\ 1 <= id <= 255 /\
    snd (SchemaOps.stringify example_schema "pong"
           (VObject [("n"%string, VNumber 300); ("m"%string, VNumber 1)]))
    = Normal [id; 255] /\
    SchemaOps.parse example_schema [id; 255]
    = Normal (mkParsed (Some "pong"%string) (VObject [("n"%string, VNumber 255)])) /\
    SchemaOps.parse
      (fst (SchemaOps.stringify example_schema "pong"
              (VObject [("n"%string, VNumber 300); ("m"%string, VNumber 1)])))
      [id; 255]
    = Normal (mkParsed (Some "pong"%string) (VObject [("n"%string, VNumber 255)])).
Proof.
  apply (schema_roundtrip example_schema "pong"
           (mkDefinition
              (ObjectOf (mkObject [mkField "n" (Some "uint8"%string) None
                                     (Some (IntCodec uint8))] None))
              (Some 2) (Some "pong"%string) None)
           (VObject [("n"%string, VNumber 300); ("m"%string, VNumber 1)])).
  - unfold example_schema. cbv zeta.
    apply reachable_define; [reflexivity|].
    apply reachable_define; [reflexivity|]. apply reachable_createSchema.
  - vm_compute. discriminate.
  - vm_compute. reflexivity.
  - split; [|exact I]. constructor; [|constructor].
    split; [reflexivity|].
    exists (IntCodec uint8), (VNumber 300). split; [reflexivity|]. split; [reflexivity|].
    split; [exists 1, false; reflexivity | exists (Some 300); reflexivity].
Defined.

Lemma schema_id_above_255_witness :
  snd (SchemaOps.stringify crowded_schema "b" (VNumber 7)) = Normal [255; 0; 7] /\
  SchemaOps.parse crowded_schema [255; 0; 7]
  = Normal (mkParsed (Some "a"%string) (VNumber 0)) /\
  exists (d' : Definition_) (sv : StreamView),
    definitionsById crowded_schema !! 255 = Some d' /\ def_id d' = Some 255 /\
    Some "a"%string = def_key d' /\
    DefinitionOps.codec_get (def_codec d') (mkStreamView [255; 0; 7] 1)
    = Normal (VNumber 0, sv).
Proof.
  destruct (schema_id_above_255 crowded_schema "b"
              (mkDefinition (CodecOf (IntCodec uint16)) (Some 256) (Some "b"%string) None)
              256 (VNumber 7)) as (H1 & _ & _ & H4).
  - unfold crowded_schema. apply reachable_define; [reflexivity|].
    apply reachable_iter. intros s Hs. now apply reachable_define.
  - vm_compute. reflexivity.
  - reflexivity.
  - lia.
  - split; [exists 2, false; reflexivity | exists (Some 7); reflexivity].
  - split; [exact H1|]. split; [vm_compute; reflexivity|].
    apply (H4 (mkParsed (Some "a"%string) (VNumber 0))). vm_compute. reflexivity.
Defined.

Lemma definition_roundtrip_witness :
  let d := mkDefinition (CodecOf (ArrayCodec StringCodec)) None None None in
  let object := VArray [VString [104; 233]; VUndefined; VString [8364]] in
  snd (DefinitionOps.stringify d object) = Normal [3; 3; 104; 195; 169; 0; 3; 226; 130; 172] /\
  DefinitionOps.parse d [3; 3; 104; 195; 169; 0; 3; 226; 130; 172]
  = Normal (VArray [VString [104; 233]; VString []; VString [8364]]).
Proof.
  destruct (definition_roundtrip
              (mkDefinition (CodecOf (ArrayCodec StringCodec)) None None None)
              (VArray [VString [104; 233]; VUndefined; VString [8364]]))
    as (H1 & H2 & _).
  - exists [VString [104; 233]; VUndefined; VString [8364]].
    split; [reflexivity|]. split; [cbn [length]; lia|].
    constructor; [|constructor; [|constructor; [|constructor]]].
    + right. exists [104; 233]. split; [reflexivity|].
      split; [|vm_compute; reflexivity].
      constructor; [left; lia|constructor; [left; lia|constructor]].
    + now left.
    + right. exists [8364]. split; [reflexivity|].
      split; [|vm_compute; reflexivity]. constructor; [left; lia|constructor].
  - split; [exact H1 | exact H2].
Defined.

(** ** Strings of character codes *)

Lemma set_bytes_clamps (bs : list Z) (le : bool) :
  writes (set_bytes bs le) (map (Integer.clamp uint8) bs).
Proof.
  induction bs as [|b rest IH]; cbn [set_bytes map]; [apply writes_ret|].
  apply writes_cons; [apply writes_uint8_clamp | exact IH].
Qed.

Lemma clamp_uint8 (b : Z) : Integer.clamp uint8 b = clamp_to 0 255 b.
Proof. now apply clamp_is_clamp_to. Qed.

Lemma createFromString_clamp (string : list Z) :
  StreamViewFrom.createFromString string
  = Normal (mkStreamView (map (clamp_to 0 255) string) 0).
Proof.
  pose proof (create_writes _ _ (set_bytes_clamps string false)) as He.
  rewrite length_map in He. unfold StreamViewFrom.createFromString.
  destruct (set_bytes string false (StreamViewOps.create (Z.of_nat (length string))))
    as [[[] sv]| |]; cbn [cbind] in *; [|discriminate..].
  injection He as He. unfold StreamViewOps.toArray in He. rewrite He.
  do 2 f_equal. apply map_ext. intros b. apply clamp_uint8.
Qed.

Lemma clamp_to_idempotent (lo hi v : Z) :
  lo <= hi -> clamp_to lo hi (clamp_to lo hi v) = clamp_to lo hi v.
Proof. unfold clamp_to. lia. Qed.

(** X10. [createFromString] stores every character code clamped to a byte,
    so [parse] reads a character above 255 as 255. *)
Theorem createFromString_clamps (string : list Z) :
  StreamViewFrom.createFromString string
  = Normal (mkStreamView (map (clamp_to 0 255) string) 0) /\
  (forall d : Definition_,
      DefinitionOps.parse d string = DefinitionOps.parse d (map (clamp_to 0 255) string)) /\
  (forall s : Schema,
      SchemaOps.parse s string = SchemaOps.parse s (map (clamp_to 0 255) string)).
Proof.
  assert (Hsame : StreamViewFrom.createFromString (map (clamp_to 0 255) string)
                  = StreamViewFrom.createFromString string).
  { rewrite !createFromString_clamp, map_map. do 2 f_equal. apply map_ext.
    intros b. apply clamp_to_idempotent. lia. }
  split; [apply createFromString_clamp|]. split.
  - intros d. unfold DefinitionOps.parse. now rewrite Hsame.
  - intros s. unfold SchemaOps.parse. now rewrite Hsame.
Qed.

(** ** The cached byte length of an object codec *)

Lemma fixed_codec_width (c : codec) (v : value) :
  fixedByteLength c = true -> getByteLength c v = Normal (codec_width c).
Proof. destruct c; try discriminate; reflexivity. Qed.

Lemma getByteLength_loop_fixed (fs : list Field) (props : list (string * value)) :
  all_fixed fs = true ->
  forall (len : Z) (fixed_ : bool),
    Object.getByteLength_loop fs (VObject props) len fixed_
    = Normal (len + fields_width fs, fixed_).
Proof.
  induction fs as [|f fs IH]; cbn [all_fixed forallb]; intros Hfix len fixed_;
    cbn [Object.getByteLength_loop fields_width fold_right].
  - now rewrite Z.add_0_r.
  - apply andb_true_iff in Hfix as [Hf Hrest].
    destruct (field_codec f) as [c|]; [|discriminate].
    cbn [get_prop cbind]. rewrite (fixed_codec_width c _ Hf). cbn [cbind].
    rewrite (IH Hrest), Hf, andb_true_r. f_equal. f_equal. unfold fields_width. lia.
Qed.

(** X11. The byte length of an object codec is cached exactly when every
    field has a fixed length. *)
Theorem object_length_cache (fs : list Field) :
  (all_fixed fs = true ->
   forall props : list (string * value),
     Object.getByteLength (mkObject fs None) (VObject props)
     = Normal (fields_width fs, mkObject fs (Some (fields_width fs)))) /\
  (all_fixed fs = false ->
   forall (object : value) (n : Z) (o' : ObjectCodec),
     Object.getByteLength (mkObject fs None) object = Normal (n, o') ->
     o' = mkObject fs None) /\
  (forall (n : Z) (object : value),
      Object.getByteLength (mkObject fs (Some n)) object
      = Normal (n, mkObject fs (Some n))) /\
  (fs <> [] -> Object.getByteLength (mkObject fs None) VUndefined = Throw TypeError).
Proof.
  unfold Object.getByteLength. cbn [cachedByteLength fields]. repeat split.
  - intros Hfix props. rewrite getByteLength_loop_fixed by exact Hfix.
    cbn [cbind]. now rewrite Z.add_0_l.
  - intros Hfix object n o' H.
    destruct (Object.getByteLength_loop fs object 0 true) as [[m fx]| |] eqn:Hloop;
      cbn [cbind] in H; [|discriminate..].
    apply getByteLength_loop_flag in Hloop. rewrite Hfix in Hloop. subst fx.
    now injection H as _ <-.
  - intros Hne. destruct fs as [|f fs]; [contradiction|].
    cbn [Object.getByteLength_loop]. now destruct (field_codec f).
Qed.

Lemma object_length_cache_witness :
  let fs := [mkField "n" (Some "uint16"%string) None (Some (IntCodec uint16));
             mkField "b" (Some "boolean"%string) None (Some BooleanCodec)] in
  Object.getByteLength (mkObject fs None) (VObject [])
  = Normal (3, mkObject fs (Some 3)) /\
  Object.getByteLength (mkObject fs None) VUndefined = Throw TypeError /\
  Object.getByteLength (mkObject fs (Some 3)) VUndefined = Normal (3, mkObject fs (Some 3)).
Proof.
  cbv zeta.
  destruct (object_length_cache
              [mkField "n" (Some "uint16"%string) None (Some (IntCodec uint16));
               mkField "b" (Some "boolean"%string) None (Some BooleanCodec)])
    as (H1 & _ & H3 & H4).
  split; [exact (H1 eq_refl [])|]. split; [apply H4; discriminate|apply H3].
Defined.

(** ** The variable length codec: the format and the decoder *)

Lemma set_loop_bytes_0 (fuel : nat) : set_loop_bytes fuel 0 = [].
Proof. destruct fuel; reflexivity. Qed.

Lemma set_loop_bytes_groups (n : nat) :
  forall r : Z,
    0 < r < 2 ^ 31 -> r < 2 ^ (7 * Z.of_nat n) ->
    groups_value (set_loop_bytes n r) = r /\
    exists (pre : list Z) (last : Z),
      set_loop_bytes n r = pre ++ [last] /\ Forall flagged pre /\ 0 < last < 128.
Proof.
  induction n as [|n IH]; intros r Hr Hb.
  - change (2 ^ (7 * Z.of_nat 0)) with 1 in Hb. lia.
  - rewrite set_loop_bytes_S. destruct (Z.ltb_spec 0 r); [|lia].
    rewrite js_sar_7, js_and_127 by lia.
    pose proof (Z.mod_pos_bound r 128 ltac:(lia)) as Hg.
    pose proof (Z.div_mod r 128 ltac:(lia)) as Hdm.
    assert (Hq : 0 <= r / 128) by (apply Z.div_pos; lia).
    destruct (Z.eqb_spec (r / 128) 0) as [Hz|Hnz].
    + rewrite Hz, set_loop_bytes_0. cbn [groups_value].
      rewrite Z.mod_mod by lia. split; [lia|].
      exists [], (r mod 128). split; [reflexivity|]. split; [constructor|lia].
    + rewrite js_or_128 by lia. rewrite pow_7_succ in Hb.
      destruct (IH (r / 128)) as (Hv & pre & last & Hbs & Hpre & Hlast);
        [split; [lia|apply Z.div_lt_upper_bound; lia]
        |apply Z.div_lt_upper_bound; lia|].
      cbn [groups_value]. rewrite Hv. split.
      * replace ((r mod 128 + 128) mod 128) with (r mod 128)
          by (apply Z.mod_unique with 1; lia).
        lia.
      * exists ((r mod 128 + 128) :: pre), last. rewrite Hbs.
        split; [reflexivity|]. split; [|exact Hlast].
        constructor; [unfold flagged; lia|exact Hpre].
Qed.

Lemma lor_int32 (a b : Z) :
  - 2 ^ 31 <= a < 2 ^ 31 -> - 2 ^ 31 <= b < 2 ^ 31 -> - 2 ^ 31 <= Z.lor a b < 2 ^ 31.
Proof.
  assert (Hland : forall x y, 0 <= x < 2 ^ 31 -> 0 <= Z.land x y < 2 ^ 31).
  { intros x y Hx. split; [apply Z.land_nonneg; lia|].
    destruct (Z.eq_dec x 0) as [->|Hnz]; [rewrite Z.land_0_l; lia|].
    assert (Hlx : Z.log2 x < 31) by (apply Z.log2_lt_pow2; lia).
    rewrite <- (Z.land_ones_low x 31), <- Z.land_assoc, (Z.land_comm (Z.ones 31)),
      Z.land_ones by lia.
    pose proof (Z.mod_pos_bound y (2 ^ 31) ltac:(lia)) as Hm.
    set (z := y mod 2 ^ 31) in *.
    destruct (Z.eq_dec (Z.land x z) 0) as [->|Hnz']; [lia|].
    assert (0 <= Z.land x z) by (apply Z.land_nonneg; lia).
    apply Z.log2_lt_pow2; [lia|].
    pose proof (Z.log2_land x z ltac:(lia) ltac:(lia)). lia. }
  intros Ha Hb.
  destruct (Z.lt_ge_cases a 0) as [Han|Hap]; [|destruct (Z.lt_ge_cases b 0) as [Hbn|Hbp]].
  - assert (Hneg : Z.lor a b < 0) by (apply Z.lor_neg; lia).
    pose proof (Hland (Z.lnot a) (Z.lnot b)) as H.
    rewrite <- Z.lnot_lor in H. unfold Z.lnot in H. rewrite <- !Z.opp_succ in *.
    unfold Z.pred in *. lia.
  - assert (Hneg : Z.lor a b < 0) by (apply Z.lor_neg; lia).
    pose proof (Hland (Z.lnot b) (Z.lnot a)) as H.
    rewrite Z.land_comm, <- Z.lnot_lor in H. unfold Z.lnot in H.
    unfold Z.pred in *. lia.
  - assert (0 <= Z.lor a b) by (apply Z.lor_nonneg; lia). split; [lia|].
    destruct (Z.eq_dec (Z.lor a b) 0) as [->|Hnz]; [lia|].
    apply Z.log2_lt_pow2; [lia|]. rewrite Z.log2_lor by lia.
    destruct (Z.eq_dec a 0) as [->|Hanz], (Z.eq_dec b 0) as [->|Hbnz];
      cbn [Z.log2]; try lia.
    + pose proof (proj1 (Z.log2_lt_pow2 b 31 ltac:(lia)) ltac:(lia)). lia.
    + pose proof (proj1 (Z.log2_lt_pow2 a 31 ltac:(lia)) ltac:(lia)). lia.
    + pose proof (proj1 (Z.log2_lt_pow2 a 31 ltac:(lia)) ltac:(lia)).
      pose proof (proj1 (Z.log2_lt_pow2 b 31 ltac:(lia)) ltac:(lia)). lia.
Qed.

Lemma js_or_int32 (a b : Z) : - 2 ^ 31 <= js_or a b < 2 ^ 31.
Proof. unfold js_or. apply lor_int32; apply ToInt32_range. Qed.

Lemma flagged_more (b : Z) : flagged b -> js_and b 128 <> 0.
Proof.
  intros Hb. replace b with ((b - 128) + 128) by lia. apply js_and_128_more.
  unfold flagged in Hb. lia.
Qed.

(** The decoder stops after the first byte without the flag. *)
Lemma get_loop_stops (pre : list Z) :
  forall (last i acc byte : Z) (fuel : nat) (le : bool),
    Forall flagged pre -> 0 <= last < 128 ->
    js_and byte 128 <> 0 ->
    (length pre < fuel)%nat ->
    reads (VariableLength.get_loop fuel i acc byte le) (pre ++ [last])
      (get_value (pre ++ [last]) i acc).
Proof.
  induction pre as [|b pre IH]; intros last i acc byte fuel le Hpre Hlast Hbyte Hfuel;
    (destruct fuel as [|fuel]; [cbn [length] in Hfuel; lia|]); rewrite get_loop_S;
    (destruct (Z.eqb_spec (js_and byte 128) 0) as [|_]; [contradiction|]);
    cbn [app get_value].
  - eapply reads_cons; [apply reads_uint8; lia|].
    rewrite get_loop_done by (apply js_and_128_last; lia). apply reads_ret.
  - apply Forall_cons in Hpre as [Hb Hpre]. cbn [length] in Hfuel.
    eapply reads_cons; [apply reads_uint8; unfold flagged in Hb; lia|].
    apply IH; try assumption; [now apply flagged_more|lia].
Qed.

Lemma get_value_int32 (bs : list Z) :
  forall i acc : Z, - 2 ^ 31 <= acc < 2 ^ 31 -> - 2 ^ 31 <= get_value bs i acc < 2 ^ 31.
Proof.
  induction bs as [|b bs IH]; intros i acc Hacc; cbn [get_value]; [exact Hacc|].
  apply IH, js_or_int32.
Qed.

(** Within 31 bits it returns the value of the groups. *)
Lemma get_loop_groups (pre : list Z) :
  forall (last i acc byte : Z) (fuel : nat) (le : bool),
    Forall flagged pre -> 0 <= last < 128 ->
    0 <= i -> 0 <= acc < 2 ^ (7 * i) ->
    i + Z.of_nat (length pre) <= 4 ->
    acc + groups_value (pre ++ [last]) * 2 ^ (7 * i) < 2 ^ 31 ->
    js_and byte 128 <> 0 ->
    (length pre < fuel)%nat ->
    reads (VariableLength.get_loop fuel i acc byte le) (pre ++ [last])
      (acc + groups_value (pre ++ [last]) * 2 ^ (7 * i)).
Proof.
  induction pre as [|b pre IH];
    intros last i acc byte fuel le Hpre Hlast Hi Hacc Hlen Hlt Hbyte Hfuel;
    (destruct fuel as [|fuel]; [cbn [length] in Hfuel; lia|]); rewrite get_loop_S;
    (destruct (Z.eqb_spec (js_and byte 128) 0) as [|_]; [contradiction|]);
    cbn [app groups_value length] in *;
    assert (Hp : 0 < 2 ^ (7 * i)) by (apply Z.pow_pos_nonneg; lia).
  - rewrite Z.mod_small in * by lia. rewrite Z.mul_0_r, Z.add_0_r in *.
    eapply reads_cons; [apply reads_uint8; lia|].
    rewrite get_loop_done by (apply js_and_128_last; lia).
    rewrite (get_step acc last i false) by (try assumption; lia).
    apply reads_ret.
  - apply Forall_cons in Hpre as [Hb Hpre]. unfold flagged in Hb.
    assert (Hg : b mod 128 = b - 128) by (symmetry; apply Z.mod_unique with 1; lia).
    assert (Hrest : 0 <= groups_value (pre ++ [last])).
    { clear. induction (pre ++ [last]) as [|x xs IHx]; cbn [groups_value]; [lia|].
      pose proof (Z.mod_pos_bound x 128 ltac:(lia)). lia. }
    assert (Hpow : 2 ^ (7 * (i + 1)) = 128 * 2 ^ (7 * i)).
    { replace (7 * (i + 1)) with (7 + 7 * i) by lia. now rewrite Z.pow_add_r by lia. }
    rewrite Hg in *.
    eapply reads_cons; [apply reads_uint8; lia|].
    replace b with ((b - 128) + 128) at 1 by lia.
    rewrite (get_step acc (b - 128) i true) by (try assumption; nia).
    replace (acc + (b - 128 + 128 * groups_value (pre ++ [last])) * 2 ^ (7 * i))
      with ((acc + (b - 128) * 2 ^ (7 * i))
            + groups_value (pre ++ [last]) * 2 ^ (7 * (i + 1))) by nia.
    apply IH; try assumption; try lia; try nia.
    apply flagged_more. unfold flagged. lia.
Qed.

(** Without such a byte it runs off the end of the view. *)
Lemma get_loop_unterminated (rest : list Z) :
  forall (dv : DataView.t) (o i len byte : Z) (fuel : nat) (le : bool),
    0 <= o -> drop (Z.to_nat o) dv = rest -> Forall flagged rest ->
    js_and byte 128 <> 0 -> (length rest < fuel)%nat ->
    VariableLength.get_loop fuel i len byte le (mkStreamView dv o) = Throw RangeError.
Proof.
  induction rest as [|b rest IH]; intros dv o i len byte fuel le Ho Hd Hall Hbyte Hfuel;
    (destruct fuel as [|fuel]; [cbn [length] in Hfuel; lia|]); rewrite get_loop_S;
    (destruct (Z.eqb_spec (js_and byte 128) 0) as [|_]; [contradiction|]).
  - apply (f_equal length) in Hd. rewrite length_drop in Hd. cbn [length] in Hd.
    unfold bind, Integer.get, Fixed.get, DataView.getUint.
    cbn [fixed uint8 acc dataView byteOffset byteLength].
    rewrite out_of_bounds by (unfold DataView.byteLength; lia). reflexivity.
  - apply Forall_cons in Hall as [Hb Hall]. cbn [length] in Hfuel.
    assert (Hlen : (Z.to_nat o < length dv)%nat).
    { apply (f_equal length) in Hd. rewrite length_drop in Hd. cbn [length] in Hd. lia. }
    unfold bind.
    rewrite (reads_uint8 b le ltac:(unfold flagged in Hb; lia) dv o);
      [|lia|unfold DataView.byteLength; cbn [length]; lia
       |cbn [length]; rewrite Hd; reflexivity].
    cbn [cbind length]. apply IH; try assumption; [lia| |now apply flagged_more|lia].
    replace (Z.to_nat (o + Z.of_nat 1)) with (Z.to_nat o + 1)%nat by lia.
    rewrite <- drop_drop, Hd. reflexivity.
Qed.

Lemma set_loop_bytes_short (fuel : nat) :
  forall r : Z, (length (set_loop_bytes fuel r) <= fuel)%nat.
Proof.
  induction fuel as [|fuel IH]; intros r.
  - cbn [set_loop_bytes]. destruct (0 <? r); cbn [length]; lia.
  - rewrite set_loop_bytes_S. destruct (0 <? r); cbn [length]; [|lia].
    specialize (IH (js_sar r 7)). lia.
Qed.

(** X1. The wire format of the variable length codec below 2^31: the 7-bit
    groups of the value, least significant first, every byte but the last
    flagged, no empty group at the end; at most five bytes, as many as
    [getByteLength] says, and [get] reads the value back. *)
Theorem varint_format (v : Z) (le : bool) :
  0 <= v < 2 ^ 31 ->
  let bytes := varint_bytes v in
  (exists (pre : list Z) (last : Z),
      bytes = pre ++ [last] /\ Forall flagged pre /\ 0 <= last < 128 /\
      (v <> 0 -> last <> 0)) /\
  groups_value bytes = v /\
  (1 <= length bytes <= 5)%nat /\
  VariableLength.getByteLength v = Finite (Z.of_nat (length bytes)) /\
  writes (VariableLength.set v le) bytes /\
  reads (VariableLength.get le) bytes v.
Proof.
  intros Hv. cbv zeta.
  assert (Hshape : (exists (pre : list Z) (last : Z),
                       varint_bytes v = pre ++ [last] /\ Forall flagged pre /\
                       0 <= last < 128 /\ (v <> 0 -> last <> 0)) /\
                   groups_value (varint_bytes v) = v).
  { unfold varint_bytes. destruct (Z.eqb_spec v 0) as [->|Hnz].
    - split; [|reflexivity]. exists [], 0. repeat split; [constructor|lia..].
    - destruct (set_loop_bytes_groups 5 v) as (Hg & pre & last & Hbs & Hpre & Hlast);
        [lia|simpl; lia|].
      split; [|exact Hg]. exists pre, last. repeat split; [assumption..|lia|lia|lia]. }
  destruct Hshape as [Hshape Hvalue]. split; [exact Hshape|]. split; [exact Hvalue|].
  split; [|split; [now apply varint_bytes_length|split;
                   [apply VariableLength_set_writes|now apply VariableLength_get_reads]]].
  destruct Hshape as (pre & last & Hbs & _). split.
  - rewrite Hbs, length_app. cbn [length]. lia.
  - unfold varint_bytes. destruct (v =? 0); [cbn [length]; lia|apply set_loop_bytes_short].
Qed.

Lemma varint_format_witness :
  (exists (pre : list Z) (last : Z),
      [172; 2] = pre ++ [last] /\ Forall flagged pre /\ 0 <= last < 128 /\
      (300 <> 0 -> last <> 0)) /\
  groups_value [172; 2] = 300 /\
  (1 <= length [172; 2] <= 5)%nat /\
  VariableLength.getByteLength 300 = Finite 2 /\
  writes (VariableLength.set 300 false) [172; 2] /\
  reads (VariableLength.get false) [172; 2] 300.
Proof. apply (varint_format 300 false). lia. Defined.

(** X2. What the decoder of the variable length codec does with any bytes:
    it stops after the first byte without the flag and returns a signed
    32-bit integer; up to five groups worth less than 2^31 give their value,
    minimal or not; with no such byte left it fails out of range. *)
Theorem varint_get_terminated (le : bool) :
  (forall bs : list Z,
      terminated bs ->
      exists v, reads (VariableLength.get le) bs v /\ - 2 ^ 31 <= v < 2 ^ 31) /\
  (forall bs : list Z,
      terminated bs -> (length bs <= 5)%nat -> groups_value bs < 2 ^ 31 ->
      reads (VariableLength.get le) bs (groups_value bs)) /\
  (forall (dv : DataView.t) (o : Z),
      0 <= o -> Forall flagged (drop (Z.to_nat o) dv) ->
      VariableLength.get le (mkStreamView dv o) = Throw RangeError).
Proof.
  assert (H128 : js_and 128 128 <> 0) by (apply (js_and_128_more 0); lia).
  assert (Hfuel : forall (pre : list Z) (last : Z) (dv : DataView.t) (o : Z),
             0 <= o ->
             o + Z.of_nat (length (pre ++ [last])) <= DataView.byteLength dv ->
             (length pre < S (length dv))%nat).
  { intros pre last dv o Ho Hroom. unfold DataView.byteLength in Hroom.
    rewrite length_app in Hroom. cbn [length] in Hroom. lia. }
  split; [|split].
  - intros bs (pre & last & -> & Hpre & Hlast).
    exists (get_value (pre ++ [last]) 0 0). split; [|apply get_value_int32; lia].
    intros dv o Ho Hroom Hw. unfold VariableLength.get. cbn [dataView].
    apply get_loop_stops; try assumption. now apply (Hfuel pre last dv o).
  - intros bs (pre & last & -> & Hpre & Hlast) Hlen Hlt.
    rewrite length_app in Hlen. cbn [length] in Hlen.
    intros dv o Ho Hroom Hw. unfold VariableLength.get. cbn [dataView].
    pose proof (get_loop_groups pre last 0 0 128 (S (length dv)) le Hpre Hlast) as H.
    rewrite Z.add_0_l, Z.mul_0_r, Z.pow_0_r, Z.mul_1_r in H.
    apply H; try assumption; try lia. now apply (Hfuel pre last dv o).
  - intros dv o Ho Hall. unfold VariableLength.get. cbn [dataView].
    apply (get_loop_unterminated (drop (Z.to_nat o) dv)); try assumption;
      [reflexivity|]. rewrite length_drop. lia.
Qed.

Lemma varint_get_terminated_witness :
  (exists v, reads (VariableLength.get false) [255; 255; 255; 255; 15] v /\
             - 2 ^ 31 <= v < 2 ^ 31) /\
  reads (VariableLength.get false) [172; 128; 0] 44 /\
  VariableLength.get false (mkStreamView [7; 255; 200] 1) = Throw RangeError.
Proof.
  destruct (varint_get_terminated false) as (H1 & H2 & H3).
  split; [|split].
  - apply H1. exists [255; 255; 255; 255], 15. split; [reflexivity|].
    split; [|lia]. repeat (constructor; [unfold flagged; lia|]). constructor.
  - apply (H2 [172; 128; 0]); [|cbn [length]; lia|vm_compute; reflexivity].
    exists [172; 128], 0. split; [reflexivity|].
    split; [|lia]. repeat (constructor; [unfold flagged; lia|]). constructor.
  - apply H3; [lia|]. cbn [Z.to_nat Pos.to_nat Pos.iter_op Nat.add drop].
    repeat (constructor; [unfold flagged; lia|]). constructor.
Defined.

(** ** The round trips, codec by codec and for objects *)

Lemma map_fixed {A} (f : A -> A) (l : list A) :
  Forall (fun x => f x = x) l -> map f l = l.
Proof. induction 1 as [|x l Hx _ IH]; cbn [map]; [reflexivity|]. now rewrite Hx, IH. Qed.

Lemma decoded_plain (c : codec) : forall v : value, plain c v -> decoded c v = v.
Proof.
  induction c as [| | w | ic | | | valueCodec IH |]; intros v Hp; cbn [plain decoded] in *.
  - now destruct Hp as (b & ->).
  - destruct Hp as (bs & ->). unfold elements. cbn [array_like]. f_equal.
    rewrite map_map. apply map_ext. reflexivity.
  - contradiction.
  - destruct Hp as (n & -> & Hn). unfold number_of. cbn [ToNumber].
    now rewrite clamp_in_range.
  - now destruct Hp as (s & ->).
  - now destruct Hp as (n & ->).
  - destruct Hp as (vs & -> & Hall). unfold elements. cbn [array_like]. f_equal.
    apply map_fixed. eapply Forall_impl; [exact Hall|]. exact IH.
  - contradiction.
Qed.

(** X4. Every codec of the current file, on the values within the range of
    its length prefix: [set] writes the wire format, [getByteLength] is the
    number of bytes written, [get] reads the decoded value back from them,
    wherever they lie in a view, and a plain value comes back unchanged. *)
Theorem codec_roundtrip (c : codec) (v : value) (le : bool) :
  decodable c v ->
  let bytes := encoding c v le in
  Forall is_byte bytes /\
  getByteLength c v = Normal (Z.of_nat (length bytes)) /\
  writes (set c v le) bytes /\
  reads (get c le) bytes (decoded c v) /\
  (plain c v -> reads (get c le) bytes v).
Proof.
  intros Hd. destruct (codec_wire c v le Hd) as (Hw & Hl & Hr & Hb). cbv zeta.
  repeat split; try assumption.
  intros Hp. now rewrite <- (decoded_plain c v Hp) at 2.
Qed.

Lemma codec_roundtrip_witness :
  let c := ArrayCodec (IntCodec int16) in
  let v := VArray [VNumber 40000; VNumber (-2); VUndefined] in
  Forall is_byte [3; 255; 127; 254; 255; 0; 0] /\
  getByteLength c v = Normal 7 /\
  writes (set c v true) [3; 255; 127; 254; 255; 0; 0] /\
  reads (get c true) [3; 255; 127; 254; 255; 0; 0]
    (VArray [VNumber 32767; VNumber (-2); VNumber 0]) /\
  (plain c v -> reads (get c true) [3; 255; 127; 254; 255; 0; 0] v).
Proof.
  apply (codec_roundtrip (ArrayCodec (IntCodec int16))
           (VArray [VNumber 40000; VNumber (-2); VUndefined]) true).
  exists [VNumber 40000; VNumber (-2); VUndefined].
  split; [reflexivity|]. split; [cbn [length]; lia|].
  repeat (constructor;
          [split; [exists 2, true; reflexivity | eexists; reflexivity]|]).
  constructor.
Defined.

(** X5. An object codec whose keys are names no object inherits writes its
    fields in the declared order and reads back an object in which every
    declared key holds the decoded value of the last field declared under
    it, and no other key holds anything: what the object given holds besides
    is dropped, what it lacks is decoded from the bytes an absent value is
    written as. Nothing is said of the order in which the properties of the
    result enumerate. *)
Theorem object_roundtrip (o : ObjectCodec) (object : value) :
  fields_decodable (fields o) object ->
  let bytes := object_encoding (fields o) object in
  Forall is_byte bytes /\
  writes (Object.set o object) bytes /\
  reads (Object.get o) bytes (VObject (object_decoded (fields o) object)) /\
  (forall k : string,
      lookup_prop k (object_decoded (fields o) object)
      = match last_keyed key k (fields o) with
        | Some f => field_decoded object f
        | None => VUndefined
        end).
Proof.
  intros Hf. destruct (Object_wire _ _ Hf) as (Hw & _ & Hr & Hb). cbv zeta.
  repeat split; try assumption.
  - unfold Object.get. apply (reads_map _ VObject). apply Hr.
  - intros k. unfold object_decoded. now rewrite lookup_fold_assign.
Qed.

Lemma object_roundtrip_witness :
  let o := mkObject [mkField "on" (Some "boolean"%string) None (Some BooleanCodec);
                     mkField "tag" (Some "string"%string) None (Some StringCodec)] None in
  let object := VObject [("tag"%string, VString [104; 105]); ("extra"%string, VNumber 1)] in
  Forall is_byte [0; 2; 104; 105] /\
  writes (Object.set o object) [0; 2; 104; 105] /\
  reads (Object.get o) [0; 2; 104; 105]
    (VObject [("on"%string, VBoolean false); ("tag"%string, VString [104; 105])]) /\
  (forall k : string,
      lookup_prop k (object_decoded (fields o) object)
      = match last_keyed key k (fields o) with
        | Some f => field_decoded object f
        | None => VUndefined
        end).
Proof.
  apply (object_roundtrip
           (mkObject [mkField "on" (Some "boolean"%string) None (Some BooleanCodec);
                      mkField "tag" (Some "string"%string) None (Some StringCodec)] None)
           (VObject [("tag"%string, VString [104; 105]); ("extra"%string, VNumber 1)])).
  constructor; [|constructor; [|constructor]].
  - split; [reflexivity|]. exists BooleanCodec, VUndefined. repeat split.
  - split; [reflexivity|].
    exists StringCodec, (VString [104; 105]). split; [reflexivity|]. split; [reflexivity|].
    right. exists [104; 105]. split; [reflexivity|]. split; [|vm_compute; reflexivity].
    constructor; [left; lia|constructor; [left; lia|constructor]].
Defined.

(** ** The earlier revision: format and round trips *)

Lemma uint32_prefix (n : Z) (le : bool) :
  0 <= n < 2 ^ 32 ->
  writes (Integer.set Legacy.lengthCodec n le)
    (DataView.order le (DataView.le_bytes 4 n)) /\
  reads (Integer.get Legacy.lengthCodec le)
    (DataView.order le (DataView.le_bytes 4 n)) n /\
  Forall is_byte (DataView.order le (DataView.le_bytes 4 n)) /\
  length (DataView.order le (DataView.le_bytes 4 n)) = 4%nat.
Proof.
  intros Hn. unfold Legacy.lengthCodec.
  assert (Hr : minValue uint32 <= n <= maxValue uint32)
    by (cbn [minValue maxValue uint32]; change (2 ^ 32) with 4294967296 in Hn; lia).
  pose proof (Integer_set_writes 4 false uint32 n le eq_refl) as Hw.
  rewrite (clamp_in_range uint32 n Hr) in Hw.
  pose proof (Integer_get_reads 4 false uint32 n le eq_refl Hr) as Hg.
  change (Z.to_nat 4) with 4%nat in *.
  repeat split; [exact Hw | exact Hg | apply order_are_bytes, le_bytes_are_bytes
                | now rewrite order_length, le_bytes_length].
Qed.

Lemma Legacy_codec_wire (c : Legacy.codec) :
  forall (v : value) (le : bool),
    LegacyFormat.decodable c v ->
    writes (Legacy.set c v le) (LegacyFormat.encoding c v le) /\
    reads (Legacy.get c le) (LegacyFormat.encoding c v le) (LegacyFormat.decoded c v) /\
    Forall is_byte (LegacyFormat.encoding c v le) /\
    (forall w, Legacy.codec_byteLength c = Some w ->
               Z.of_nat (length (LegacyFormat.encoding c v le)) = w) /\
    (LegacyFormat.measured c v ->
     Legacy.getByteLength c v = Normal (Z.of_nat (length (LegacyFormat.encoding c v le)))).
Proof.
  induction c as [| w | ic | | valueCodec IH]; intros v le Hd;
    cbn [LegacyFormat.decodable] in Hd.
  - (* boolean *)
    cbn [Legacy.set Legacy.get LegacyFormat.encoding LegacyFormat.decoded
         LegacyFormat.measured Legacy.codec_byteLength].
    repeat split.
    + destruct (truthy v); [exact (writes_uint8 1 le ltac:(lia))
                           | exact (writes_uint8 0 le ltac:(lia))].
    + unfold Boolean.get.
      assert (Hb : reads (Fixed.get Boolean.fixed le) [if truthy v then 1 else 0]
                     (if truthy v then 1 else 0)).
      { destruct (truthy v); [exact (reads_uint8 1 le ltac:(lia))
                             | exact (reads_uint8 0 le ltac:(lia))]. }
      apply (reads_map _ (fun x => negb (x =? 0))) in Hb.
      apply (reads_map _ VBoolean) in Hb.
      now destruct (truthy v).
    + constructor; [destruct (truthy v); unfold is_byte; lia|constructor].
    + intros w Hw. now injection Hw as <-.
    + contradiction.
  - contradiction.
  - (* integers *)
    destruct Hd as ((w & signed & Hc) & n & Hn).
    pose proof (Integer_new_inv _ _ _ Hc) as [Hw Heq].
    pose proof (Integer_new_ranges _ _ _ Hc) as (_ & _ & Hrange).
    assert (Hbl : byteLength (fixed ic) = w) by now rewrite Heq.
    cbn [Legacy.set Legacy.get LegacyFormat.encoding LegacyFormat.decoded
         LegacyFormat.measured Legacy.codec_byteLength].
    rewrite Hbl.
    assert (Hnum : number_of v = match n with Some n => n | None => 0 end)
      by (unfold number_of; rewrite Hn; now destruct n).
    rewrite Hnum. repeat split.
    + rewrite Hn. apply writes_lift. destruct n as [n|].
      * now apply (Integer_set_writes w signed).
      * pose proof (Integer_set_writes w signed ic 0 le Hc) as H0.
        unfold Integer.set in H0. rewrite (clamp_in_range ic 0) in H0 at 1 by lia.
        exact H0.
    + apply (reads_map _ VNumber). apply (Integer_get_reads w signed); [exact Hc|].
      now apply (clamp_range w signed).
    + apply order_are_bytes, le_bytes_are_bytes.
    + intros w' Hw'. injection Hw' as <-. rewrite Integer_bytes_length by lia. reflexivity.
    + contradiction.
  - (* strings *)
    cbn [Legacy.set Legacy.get LegacyFormat.encoding LegacyFormat.decoded
         LegacyFormat.measured Legacy.codec_byteLength Legacy.getByteLength].
    destruct (uint32_prefix 0 le ltac:(lia)) as (Hw0 & Hr0 & Hb0 & Hl0).
    assert (Hzero : DataView.order le (DataView.le_bytes 4 0) = [0; 0; 0; 0])
      by (now destruct le).
    rewrite Hzero in *.
    assert (Hempty :
              reads (length <- Integer.get Legacy.lengthCodec le ;;
                     if 0 <? length then
                       string <- get_bytes (Z.to_nat length) le ;;
                       match utf8.decode string with
                       | Some s => ret (VString s)
                       | None => throw (Error "Invalid UTF-8 detected")
                       end
                     else ret (VString [])) [0; 0; 0; 0] (VString [])).
    { rewrite <- (app_nil_r [0; 0; 0; 0]).
      apply reads_bind with 0; [exact Hr0|].
      change (0 <? 0) with false. cbv iota. apply reads_ret. }
    destruct (truthy v) eqn:Ht.
    + destruct Hd as [Hf | (s & -> & Hs & Hlen)]; [discriminate|].
      pose proof (utf8_length_ge s) as Hge. pose proof (utf8_encode_length s) as Hel.
      assert (Hpos : 0 < Z.of_nat (length (utf8.encode s)))
        by (destruct s; [discriminate|cbn [length] in Hge; lia]).
      pose proof (utf8_encode_bytes s (scalar_nonneg s Hs)) as Hbytes.
      destruct (uint32_prefix (Z.of_nat (length (utf8.encode s))) le ltac:(lia))
        as (Hw & Hr & Hb & Hl).
      repeat split.
      * apply writes_bind; [exact Hw|]. now apply set_bytes_writes.
      * apply reads_bind with (Z.of_nat (length (utf8.encode s))); [exact Hr|].
        destruct (Z.ltb_spec 0 (Z.of_nat (length (utf8.encode s)))); [|lia].
        rewrite Nat2Z.id. rewrite <- (app_nil_r (utf8.encode s)) at 2.
        apply reads_bind with (utf8.encode s); [now apply uint8s_reads|].
        rewrite decode_encode by exact Hs. apply reads_ret.
      * apply Forall_app. split; [exact Hb|exact Hbytes].
      * discriminate.
      * intros _. rewrite length_app, Hl, Nat2Z.inj_add.
        cbn [byteLength fixed Legacy.lengthCodec uint32 uint8]. do 2 f_equal. lia.
    + assert (He : match v with
                   | VString s =>
                       DataView.order le
                         (DataView.le_bytes 4 (Z.of_nat (length (utf8.encode s))))
                         ++ utf8.encode s
                   | _ => [0; 0; 0; 0]
                   end = [0; 0; 0; 0]).
      { destruct v as [| | |[|? ?]| |]; try reflexivity; try discriminate.
        cbn [utf8.encode flat_map length app]. change (Z.of_nat 0) with 0.
        now rewrite Hzero. }
      assert (Hv : match v with VString s => VString s | _ => VString [] end = VString [])
        by (destruct v as [| | |[|? ?]| |]; try reflexivity; discriminate).
      rewrite He, Hv. repeat split.
      * exact Hw0.
      * apply Hempty.
      * exact Hb0.
      * discriminate.
      * intros (s & ->). destruct s; [reflexivity|discriminate].
  - (* arrays *)
    destruct Hd as (vs & Hvs & Hlen & Hall).
    assert (Hws : Forall (fun x => writes (Legacy.set valueCodec x le)
                                     (LegacyFormat.encoding valueCodec x le)) vs)
      by (eapply Forall_impl; [exact Hall|]; intros x Hx; apply (IH x le Hx)).
    assert (Hrs : Forall (fun x => reads (Legacy.get valueCodec le)
                                     (LegacyFormat.encoding valueCodec x le)
                                     (LegacyFormat.decoded valueCodec x)) vs)
      by (eapply Forall_impl; [exact Hall|]; intros x Hx; apply (IH x le Hx)).
    assert (Hbs : Forall (fun x => Forall is_byte (LegacyFormat.encoding valueCodec x le)) vs)
      by (eapply Forall_impl; [exact Hall|]; intros x Hx; apply (IH x le Hx)).
    destruct (uint32_prefix (Z.of_nat (length vs)) le ltac:(lia)) as (Hw & Hr & Hb & Hl).
    cbn [Legacy.set Legacy.get LegacyFormat.encoding LegacyFormat.decoded
         LegacyFormat.measured Legacy.codec_byteLength Legacy.getByteLength].
    rewrite (array_like_elements _ _ Hvs), Hvs. cbn [cbind]. repeat split.
    + apply writes_lift, writes_bind; [exact Hw|].
      destruct (Z.ltb_spec 0 (Z.of_nat (length vs))) as [Hpos|Hz].
      * now apply set_each_flat_map.
      * destruct vs; [|cbn [length] in Hz; lia]. apply writes_ret.
    + apply reads_bind with (Z.of_nat (length vs)); [exact Hr|].
      destruct (Z.ltb_spec 0 (Z.of_nat (length vs))) as [Hpos|Hz].
      * rewrite Nat2Z.id.
        pose proof (get_each_flat_map _ _ _ _ Hrs) as Hr'.
        now apply (reads_map _ VArray) in Hr'.
      * destruct vs; [|cbn [length] in Hz; lia]. apply reads_ret.
    + apply Forall_app. split; [exact Hb|].
      clear - Hbs. induction Hbs as [|x xs Hx _ IHx]; cbn [flat_map]; [constructor|].
      apply Forall_app. now split.
    + discriminate.
    + intros [Hne Hm]. destruct vs as [|x0 xs0] eqn:Evs; [contradiction|]. rewrite <- Evs in *.
      rewrite length_app, Hl, Nat2Z.inj_add.
      cbn [byteLength fixed Legacy.lengthCodec uint32].
      destruct (Legacy.codec_byteLength valueCodec) as [w|] eqn:Hcw.
      * f_equal. f_equal. symmetry. apply fixed_lengths_flat_map.
        eapply Forall_impl; [exact Hall|]. intros x Hx. now apply (IH x le Hx).
      * rewrite (sum_lengths_flat_map _ (fun x => LegacyFormat.encoding valueCodec x le)).
        -- cbn [cbind]. reflexivity.
        -- specialize (Hm eq_refl). clear - Hall Hm IH.
           induction Hall as [|x xs Hx _ IHx]; [constructor|].
           apply Forall_cons in Hm as [Hmx Hmxs].
           constructor; [now apply (IH x le Hx)|now apply IHx].
Qed.

Lemma Legacy_Object_wire (fs : list Legacy.Field) (le : bool) (object : value) :
  LegacyFormat.fields_decodable fs object ->
  writes (Legacy.DefinitionOps.set_loop fs le object)
    (LegacyFormat.object_encoding fs le object) /\
  (forall (len : Z) (fixed_ : bool),
      Legacy.DefinitionOps.getByteLength_loop fs object len fixed_
      = Normal (len + Z.of_nat (length (LegacyFormat.object_encoding fs le object)),
                fixed_ && LegacyFormat.all_fixed fs)) /\
  (forall props : list (string * value),
      reads (Legacy.DefinitionOps.get_loop fs le props)
        (LegacyFormat.object_encoding fs le object)
        (fold_left (fun props f =>
                      assign_prop (Legacy.key f) (LegacyFormat.field_decoded object f) props)
           fs props)) /\
  Forall is_byte (LegacyFormat.object_encoding fs le object).
Proof.
  induction 1 as [|f fs (_ & c & v & Hc & Hv & Hd & Hm) _ (Hw' & Hl' & Hr' & Hb')];
    unfold LegacyFormat.object_encoding in *; cbn [flat_map fold_left].
  - repeat split; [apply writes_ret| |intros props; apply reads_ret|constructor].
    intros len fixed_.
    cbn [Legacy.DefinitionOps.getByteLength_loop length LegacyFormat.all_fixed forallb].
    now rewrite Z.add_0_r, andb_true_r.
  - destruct (Legacy_codec_wire c v le Hd) as (Hw & Hr & Hb & Hfix & Hlen).
    assert (He : LegacyFormat.field_encoding le object f = LegacyFormat.encoding c v le)
      by (unfold LegacyFormat.field_encoding, prop_of; now rewrite Hc, Hv).
    assert (Hf : LegacyFormat.field_decoded object f = LegacyFormat.decoded c v)
      by (unfold LegacyFormat.field_decoded, prop_of; now rewrite Hc, Hv).
    rewrite He, Hf. repeat split.
    + cbn [Legacy.DefinitionOps.set_loop]. rewrite Hc, Hv. apply writes_lift.
      now apply writes_bind.
    + intros len fixed_. cbn [Legacy.DefinitionOps.getByteLength_loop]. rewrite Hc.
      cbn [LegacyFormat.all_fixed forallb]. rewrite Hc.
      rewrite length_app, Nat2Z.inj_add.
      destruct (Legacy.codec_byteLength c) as [w|] eqn:Hcw.
      * rewrite Hl', (Hfix w eq_refl). cbn [andb]. f_equal. f_equal. lia.
      * rewrite Hv. cbn [cbind]. rewrite (Hlen (Hm eq_refl)). cbn [cbind].
        rewrite Hl'. cbn [andb]. rewrite andb_false_r. f_equal. f_equal. lia.
    + intros props. cbn [Legacy.DefinitionOps.get_loop]. rewrite Hc.
      apply reads_bind with (LegacyFormat.decoded c v); [exact Hr|apply Hr'].
    + apply Forall_app. now split.
Qed.

Lemma Legacy_fixed_fields_width (fs : list Legacy.Field) (le : bool) (object : value) :
  LegacyFormat.fields_decodable fs object -> LegacyFormat.all_fixed fs = true ->
  Z.of_nat (length (LegacyFormat.object_encoding fs le object))
  = LegacyFormat.fields_width fs.
Proof.
  induction 1 as [|f fs (_ & c & v & Hc & Hv & Hd & Hm) _ IH];
    unfold LegacyFormat.object_encoding in *;
    cbn [flat_map LegacyFormat.fields_width fold_right LegacyFormat.all_fixed forallb];
    [reflexivity|].
  rewrite Hc. destruct (Legacy.codec_byteLength c) as [w|] eqn:Hcw; [|discriminate].
  cbn [andb]. intros Hrest.
  destruct (Legacy_codec_wire c v le Hd) as (_ & _ & _ & Hfix & _).
  rewrite length_app, Nat2Z.inj_add, (IH Hrest).
  unfold LegacyFormat.field_encoding, prop_of. rewrite Hc, Hv, (Hfix w Hcw).
  reflexivity.
Qed.

Lemma Legacy_getByteLength_wire (d : Legacy.Definition_) (object : value) :
  LegacyFormat.fields_decodable (Legacy.fields d) object -> LegacyFormat.cache_ok d ->
  exists d',
    Legacy.DefinitionOps.getByteLength d object
    = Normal (Z.of_nat (length (LegacyFormat.object_encoding (Legacy.fields d)
                                  (Legacy.def_littleEndian d) object)), d') /\
    Legacy.fields d' = Legacy.fields d /\
    Legacy.def_littleEndian d' = Legacy.def_littleEndian d /\
    Legacy.def_id d' = Legacy.def_id d /\ Legacy.def_key d' = Legacy.def_key d /\
    LegacyFormat.cache_ok d'.
Proof.
  intros Hf Hc.
  destruct (Legacy_Object_wire _ (Legacy.def_littleEndian d) _ Hf) as (_ & Hl & _ & _).
  unfold Legacy.DefinitionOps.getByteLength. unfold LegacyFormat.cache_ok in Hc.
  destruct (Legacy.cachedByteLength d) as [n|] eqn:Hcache.
  - destruct Hc as [Hfix ->]. exists d.
    rewrite (Legacy_fixed_fields_width _ _ _ Hf Hfix).
    repeat split. unfold LegacyFormat.cache_ok. now rewrite Hcache.
  - rewrite Hl. cbn [cbind andb]. rewrite Z.add_0_l.
    destruct (LegacyFormat.all_fixed (Legacy.fields d)) eqn:Hfix.
    + eexists. split; [reflexivity|]. cbn [Legacy.fields Legacy.def_littleEndian
        Legacy.def_id Legacy.def_key]. do 4 (split; [reflexivity|]).
      unfold LegacyFormat.cache_ok. cbn [Legacy.cachedByteLength Legacy.fields].
      split; [exact Hfix|]. now apply Legacy_fixed_fields_width.
    + exists d. repeat split. unfold LegacyFormat.cache_ok. now rewrite Hcache.
Qed.

Lemma Legacy_parse_reads (d : Legacy.Definition_) (bs : list Z) (v : value) :
  Forall is_byte bs -> reads (Legacy.DefinitionOps.get d) bs v ->
  Legacy.DefinitionOps.parse d bs = Normal v.
Proof.
  intros Hb Hr. unfold Legacy.DefinitionOps.parse.
  rewrite createFromString_bytes by exact Hb. cbn [cbind].
  rewrite Hr; [reflexivity | lia | unfold DataView.byteLength; lia |].
  cbn [Z.to_nat drop]. rewrite drop_0. apply take_ge. lia.
Qed.

(** X14. A definition of the earlier revision round-trips on the objects it
    can size: [stringify] returns the fields in the declared order, each in
    its format, and [parse] returns the decoded object. *)
Theorem Legacy_definition_roundtrip (d : Legacy.Definition_) (object : value) :
  LegacyFormat.fields_decodable (Legacy.fields d) object ->
  LegacyFormat.cache_ok d ->
  let bytes := LegacyFormat.object_encoding (Legacy.fields d)
                 (Legacy.def_littleEndian d) object in
  let parsed := VObject (LegacyFormat.object_decoded (Legacy.fields d) object) in
  let d' := fst (Legacy.DefinitionOps.stringify d object) in
  snd (Legacy.DefinitionOps.stringify d object) = Normal bytes /\
  Legacy.DefinitionOps.parse d bytes = Normal parsed /\
  Legacy.DefinitionOps.parse d' bytes = Normal parsed /\
  (forall k : string,
      lookup_prop k (LegacyFormat.object_decoded (Legacy.fields d) object)
      = match last_keyed Legacy.key k (Legacy.fields d) with
        | Some f => LegacyFormat.field_decoded object f
        | None => VUndefined
        end) /\
  Legacy.fields d' = Legacy.fields d /\
  LegacyFormat.cache_ok d'.
Proof.
  intros Hf Hc.
  destruct (Legacy_getByteLength_wire d object Hf Hc)
    as (d' & Hlen & Hfs & Hle & _ & _ & Hc').
  destruct (Legacy_Object_wire _ (Legacy.def_littleEndian d) _ Hf) as (Hw & _ & Hr & Hb).
  assert (Hget : forall d0, Legacy.fields d0 = Legacy.fields d ->
                            Legacy.def_littleEndian d0 = Legacy.def_littleEndian d ->
                            reads (Legacy.DefinitionOps.get d0)
                              (LegacyFormat.object_encoding (Legacy.fields d)
                                 (Legacy.def_littleEndian d) object)
                              (VObject (LegacyFormat.object_decoded (Legacy.fields d) object))).
  { intros d0 H1 H2. unfold Legacy.DefinitionOps.get. rewrite H1, H2.
    apply (reads_map _ VObject). apply Hr. }
  cbv zeta. unfold Legacy.DefinitionOps.stringify. rewrite Hlen. cbn [fst snd].
  repeat split; try assumption.
  - unfold Legacy.DefinitionOps.set. rewrite Hfs, Hle. now apply create_writes.
  - apply Legacy_parse_reads; [exact Hb|]. now apply Hget.
  - apply Legacy_parse_reads; [exact Hb|]. now apply Hget.
  - intros k. unfold LegacyFormat.object_decoded. now rewrite lookup_fold_assign.
Qed.

Lemma Legacy_definition_roundtrip_witness :
  let d := Legacy.mkDefinition
             [Legacy.mkField "xs" (Some "array"%string) (Some "int8"%string)
                (Some (Legacy.ArrayCodec (Legacy.IntCodec int8)));
              Legacy.mkField "s" (Some "string"%string) None (Some Legacy.StringCodec)]
             None None false None in
  let object := VObject [("s"%string, VString [233]);
                         ("xs"%string, VArray [VNumber (-1); VNumber 300])] in
  snd (Legacy.DefinitionOps.stringify d object)
  = Normal [0; 0; 0; 2; 255; 127; 0; 0; 0; 2; 195; 169] /\
  Legacy.DefinitionOps.parse d [0; 0; 0; 2; 255; 127; 0; 0; 0; 2; 195; 169]
  = Normal (VObject [("xs"%string, VArray [VNumber (-1); VNumber 127]);
                     ("s"%string, VString [233])]).
Proof.
  destruct (Legacy_definition_roundtrip
              (Legacy.mkDefinition
                 [Legacy.mkField "xs" (Some "array"%string) (Some "int8"%string)
                    (Some (Legacy.ArrayCodec (Legacy.IntCodec int8)));
                  Legacy.mkField "s" (Some "string"%string) None (Some Legacy.StringCodec)]
                 None None false None)
              (VObject [("s"%string, VString [233]);
                        ("xs"%string, VArray [VNumber (-1); VNumber 300])]))
    as (H1 & H2 & _).
  - constructor; [|constructor; [|constructor]].
    + split; [reflexivity|].
      exists (Legacy.ArrayCodec (Legacy.IntCodec int8)), (VArray [VNumber (-1); VNumber 300]).
      split; [reflexivity|]. split; [reflexivity|]. split.
      * exists [VNumber (-1); VNumber 300]. split; [reflexivity|].
        split; [cbn [length]; lia|].
        repeat (constructor;
                [split; [exists 1, true; reflexivity | eexists; reflexivity]|]).
        constructor.
      * intros _. split; [discriminate|]. discriminate.
    + split; [reflexivity|]. exists Legacy.StringCodec, (VString [233]).
      split; [reflexivity|]. split; [reflexivity|]. split.
      * right. exists [233]. split; [reflexivity|]. split; [|vm_compute; reflexivity].
        constructor; [left; lia|constructor].
      * intros _. now exists [233].
  - exact I.
  - split; [exact H1 | exact H2].
Defined.

(** X13. Every codec of the earlier revision: the wire format, with a uint32
    count or length in front of arrays and text, the round trip for counts
    below 2^32, and the byte length [getByteLength] reports for text and for
    arrays that are not empty. *)
Theorem Legacy_codec_roundtrip (c : Legacy.codec) (v : value) (le : bool) :
  LegacyFormat.decodable c v ->
  let bytes := LegacyFormat.encoding c v le in
  Forall is_byte bytes /\
  writes (Legacy.set c v le) bytes /\
  reads (Legacy.get c le) bytes (LegacyFormat.decoded c v) /\
  (forall w : Z, Legacy.codec_byteLength c = Some w -> Z.of_nat (length bytes) = w) /\
  (LegacyFormat.measured c v ->
   Legacy.getByteLength c v = Normal (Z.of_nat (length bytes))).
Proof.
  intros Hd. destruct (Legacy_codec_wire c v le Hd) as (Hw & Hr & Hb & Hfix & Hlen).
  cbv zeta. repeat split; assumption.
Qed.

Lemma Legacy_codec_roundtrip_witness :
  let c := Legacy.ArrayCodec (Legacy.IntCodec uint16) in
  let v := VArray [VNumber 258; VNumber 70000] in
  Forall is_byte [0; 0; 0; 2; 1; 2; 255; 255] /\
  writes (Legacy.set c v false) [0; 0; 0; 2; 1; 2; 255; 255] /\
  reads (Legacy.get c false) [0; 0; 0; 2; 1; 2; 255; 255]
    (VArray [VNumber 258; VNumber 65535]) /\
  (forall w : Z, Legacy.codec_byteLength c = Some w ->
                 Z.of_nat (length [0; 0; 0; 2; 1; 2; 255; 255]) = w) /\
  (LegacyFormat.measured c v -> Legacy.getByteLength c v = Normal 8).
Proof.
  apply (Legacy_codec_roundtrip (Legacy.ArrayCodec (Legacy.IntCodec uint16))
           (VArray [VNumber 258; VNumber 70000]) false).
  exists [VNumber 258; VNumber 70000]. split; [reflexivity|].
  split; [cbn [length]; lia|].
  repeat (constructor;
          [split; [exists 2, false; reflexivity | eexists; reflexivity]|]).
  constructor.
Defined.

Lemma Legacy_getByteLength_loop_fixed (fs : list Legacy.Field) (object : value) :
  LegacyFormat.all_fixed fs = true ->
  forall (len : Z) (fixed_ : bool),
    Legacy.DefinitionOps.getByteLength_loop fs object len fixed_
    = Normal (len + LegacyFormat.fields_width fs, fixed_).
Proof.
  induction fs as [|f fs IH]; cbn [LegacyFormat.all_fixed forallb]; intros Hfix len fixed_;
    cbn [Legacy.DefinitionOps.getByteLength_loop LegacyFormat.fields_width fold_right].
  - now rewrite Z.add_0_r.
  - destruct (Legacy.field_codec f) as [c|]; [|discriminate].
    destruct (Legacy.codec_byteLength c) as [w|]; [|discriminate].
    cbn [andb] in Hfix. rewrite (IH Hfix). f_equal. f_equal.
    unfold LegacyFormat.fields_width. lia.
Qed.

Lemma Legacy_getByteLength_loop_flag (fs : list Legacy.Field) (object : value) :
  forall (len : Z) (fixed_ : bool) (n : Z) (fixed' : bool),
    Legacy.DefinitionOps.getByteLength_loop fs object len fixed_ = Normal (n, fixed') ->
    fixed' = fixed_ && LegacyFormat.all_fixed fs.
Proof.
  induction fs as [|f fs IH]; intros len fixed_ n fixed' H;
    cbn [Legacy.DefinitionOps.getByteLength_loop LegacyFormat.all_fixed forallb] in *.
  - injection H as _ <-. now rewrite andb_true_r.
  - destruct (Legacy.field_codec f) as [c|]; [|discriminate].
    destruct (Legacy.codec_byteLength c) as [w|].
    + apply IH in H. now rewrite H.
    + destruct (get_prop object (Legacy.key f)) as [v| |]; cbn [cbind] in H;
        try discriminate.
      destruct (Legacy.getByteLength c v) as [m| |]; cbn [cbind] in H; try discriminate.
      apply IH in H. rewrite H. cbn [andb]. now rewrite andb_false_r.
Qed.

(** X15. In the earlier revision the byte length of a definition is cached
    exactly when every field has a fixed length, and such a definition never
    looks at the object it is asked to size. *)
Theorem Legacy_definition_length_cache (fs : list Legacy.Field) (id : option Z)
        (key : option string) (le : bool) :
  let d := Legacy.mkDefinition fs id key le None in
  (LegacyFormat.all_fixed fs = true ->
   forall object : value,
     Legacy.DefinitionOps.getByteLength d object
     = Normal (LegacyFormat.fields_width fs,
               Legacy.mkDefinition fs id key le (Some (LegacyFormat.fields_width fs)))) /\
  (LegacyFormat.all_fixed fs = false ->
   forall (object : value) (n : Z) (d' : Legacy.Definition_),
     Legacy.DefinitionOps.getByteLength d object = Normal (n, d') -> d' = d) /\
  (forall (n : Z) (object : value),
      Legacy.DefinitionOps.getByteLength (Legacy.mkDefinition fs id key le (Some n)) object
      = Normal (n, Legacy.mkDefinition fs id key le (Some n))).
Proof.
  cbv zeta. unfold Legacy.DefinitionOps.getByteLength.
  cbn [Legacy.cachedByteLength Legacy.fields Legacy.def_id Legacy.def_key
       Legacy.def_littleEndian].
  repeat split.
  - intros Hfix object. rewrite Legacy_getByteLength_loop_fixed by exact Hfix.
    cbn [cbind]. now rewrite Z.add_0_l.
  - intros Hfix object n d' H.
    destruct (Legacy.DefinitionOps.getByteLength_loop fs object 0 true)
      as [[m fx]| |] eqn:Hloop; cbn [cbind] in H; [|discriminate..].
    apply Legacy_getByteLength_loop_flag in Hloop. rewrite Hfix in Hloop. subst fx.
    now injection H as _ <-.
Qed.

Lemma Legacy_definition_length_cache_witness :
  let fs := [Legacy.mkField "n" (Some "uint16"%string) None (Some (Legacy.IntCodec uint16));
             Legacy.mkField "b" (Some "boolean"%string) None (Some Legacy.BooleanCodec)] in
  Legacy.DefinitionOps.getByteLength (Legacy.mkDefinition fs None None false None) VUndefined
  = Normal (3, Legacy.mkDefinition fs None None false (Some 3)).
Proof.
  cbv zeta.
  destruct (Legacy_definition_length_cache
              [Legacy.mkField "n" (Some "uint16"%string) None
                 (Some (Legacy.IntCodec uint16));
               Legacy.mkField "b" (Some "boolean"%string) None (Some Legacy.BooleanCodec)]
              None None false) as (H1 & _ & _).
  exact (H1 eq_refl VUndefined).
Defined.









(** ** What the constructors build *)

Lemma Field_new_key (options : FieldOptions) (f : Field) :
  FieldOps.new options = Normal f ->
  key f = opt_key options /\ opt_key options <> ""%string.
Proof.
  unfold FieldOps.new.
  destruct (String.eqb_spec (opt_key options) ""); [discriminate|].
  destruct (negb (isValidType (opt_type options))); [discriminate|].
  destruct (match opt_type options with Some t => (t =? "array")%string | None => false end).
  - destruct (_ || _); [discriminate|].
    destruct (ArrayCodecOps.new _); cbn [cbind]; [|discriminate..].
    intros H. injection H as <-. now split.
  - intros H. injection H as <-. now split.
Qed.

Lemma map_fields_inv (options : list FieldOptions) :
  forall fs : list Field,
    Object.map_fields options = Normal fs ->
    Forall2 (fun opt f => FieldOps.new opt = Normal f) options fs.
Proof.
  induction options as [|opt options IH]; intros fs H; cbn [Object.map_fields] in H.
  - injection H as <-. constructor.
  - destruct (FieldOps.new opt) as [f| |] eqn:Hf; cbn [cbind] in H; [|discriminate..].
    destruct (Object.map_fields options) as [fs'| |]; cbn [cbind] in H; [|discriminate..].
    injection H as <-. constructor; [exact Hf|now apply IH].
Qed.

(** X12. What a constructed object codec holds: the declared keys in the
    declared order, none empty, no cached length; a codec for every field
    whose type is not the name of a bare codec class; for an array field an
    array codec over a shared codec that is neither array nor string. *)
Theorem Object_new_fields (options : list FieldOptions) (o : ObjectCodec) :
  Object.new options = Normal o ->
  cachedByteLength o = None /\
  map key (fields o) = map opt_key options /\
  Forall (fun f => key f <> ""%string) (fields o) /\
  Forall2 (fun opt f =>
             (field_codec f = None <->
              opt_type opt = Some "float"%string \/ opt_type opt = Some "int"%string \/
              opt_type opt = Some "object"%string) /\
             (opt_type opt = Some "array"%string ->
              exists (name : string) (c : codec),
                opt_valueType opt = Some name /\
                name <> "array"%string /\ name <> "string"%string /\
                assoc name _codecs = Some c /\
                field_codec f = Some (ArrayCodec c)))
    options (fields o).
Proof.
  unfold Object.new. intros H.
  destruct (Object.map_fields options) as [fs| |] eqn:Hfs; cbn [cbind] in H;
    [|discriminate..].
  injection H as <-. cbn [cachedByteLength fields]. apply map_fields_inv in Hfs.
  split; [reflexivity|].
  induction Hfs as [|opt f options fs Hf _ (IH1 & IH2 & IH3)];
    [repeat split; constructor|].
  destruct (Field_new_key _ _ Hf) as [Hk Hne]. cbn [map]. repeat split.
  - now rewrite Hk, IH1.
  - constructor; [now rewrite Hk|exact IH2].
  - constructor; [|exact IH3]. split.
    + now apply Field_new_codec_missing.
    + intros Ht. now apply Field_new_array.
Qed.

Lemma Object_new_fields_witness :
  exists o : ObjectCodec,
    Object.new [mkOptions "xs" (Some "array"%string) (Some "uint8"%string);
                mkOptions "f" (Some "float"%string) None] = Normal o /\
    cachedByteLength o = None /\
    map key (fields o) = ["xs"; "f"]%string /\
    map field_codec (fields o) = [Some (ArrayCodec (IntCodec uint8)); None].
Proof.
  eexists. split; [reflexivity|].
  destruct (Object_new_fields
              [mkOptions "xs" (Some "array"%string) (Some "uint8"%string);
               mkOptions "f" (Some "float"%string) None] _ eq_refl) as (H1 & H2 & _).
  split; [exact H1|]. split; [exact H2|reflexivity].
Defined.

Lemma Legacy_Field_new_key (options : FieldOptions) (f : Legacy.Field) :
  Legacy.new_Field options = Normal f ->
  Legacy.key f = opt_key options /\ opt_key options <> ""%string.
Proof.
  unfold Legacy.new_Field.
  destruct (String.eqb_spec (opt_key options) ""); [discriminate|].
  destruct (negb (Legacy.isValidType (opt_type options))); [discriminate|].
  destruct (match opt_type options with Some t => (t =? "array")%string | None => false end).
  - destruct (_ || _); [discriminate|].
    destruct (Legacy.new_ArrayCodec _); cbn [cbind]; [|discriminate..].
    intros H. injection H as <-. now split.
  - intros H. injection H as <-. now split.
Qed.

Lemma Legacy_map_fields_inv (options : list FieldOptions) :
  forall fs : list Legacy.Field,
    Legacy.map_fields options = Normal fs ->
    Forall2 (fun opt f => Legacy.new_Field opt = Normal f) options fs.
Proof.
  induction options as [|opt options IH]; intros fs H; cbn [Legacy.map_fields] in H.
  - injection H as <-. constructor.
  - destruct (Legacy.new_Field opt) as [f| |] eqn:Hf; cbn [cbind] in H; [|discriminate..].
    destruct (Legacy.map_fields options) as [fs'| |]; cbn [cbind] in H; [|discriminate..].
    injection H as <-. constructor; [exact Hf|now apply IH].
Qed.

(** X17. What [define] builds in the earlier revision: the declared keys in
    the declared order, none empty, a codec for every field, big-endian, no
    cached length yet. *)
Theorem Legacy_define_fields (options : list FieldOptions) (d : Legacy.Definition_) :
  Legacy.define options = Normal d ->
  Legacy.cachedByteLength d = None /\
  Legacy.def_littleEndian d = false /\
  map Legacy.key (Legacy.fields d) = map opt_key options /\
  Forall (fun f => Legacy.key f <> ""%string /\ Legacy.field_codec f <> None)
    (Legacy.fields d).
Proof.
  unfold Legacy.define. intros H.
  destruct (Legacy.map_fields options) as [fs| |] eqn:Hfs; cbn [cbind] in H;
    [|discriminate..].
  injection H as <-.
  cbn [Legacy.cachedByteLength Legacy.def_littleEndian Legacy.fields].
  apply Legacy_map_fields_inv in Hfs.
  split; [reflexivity|]. split; [reflexivity|].
  induction Hfs as [|opt f options fs Hf _ (IH1 & IH2)]; [split; constructor|].
  destruct (Legacy_Field_new_key _ _ Hf) as [Hk Hne]. cbn [map]. split.
  - now rewrite Hk, IH1.
  - constructor; [|exact IH2]. split; [now rewrite Hk|].
    now apply (Legacy_Field_new_has_codec opt).
Qed.

Lemma Legacy_define_fields_witness :
  exists d : Legacy.Definition_,
    Legacy.define [mkOptions "xs" (Some "array"%string) (Some "uint8"%string);
                   mkOptions "s" (Some "string"%string) None] = Normal d /\
    Legacy.cachedByteLength d = None /\
    Legacy.def_littleEndian d = false /\
    map Legacy.key (Legacy.fields d) = ["xs"; "s"]%string /\
    Forall (fun f => Legacy.key f <> ""%string /\ Legacy.field_codec f <> None)
      (Legacy.fields d).
Proof.
  eexists. split; [reflexivity|].
  exact (Legacy_define_fields
           [mkOptions "xs" (Some "array"%string) (Some "uint8"%string);
            mkOptions "s" (Some "string"%string) None] _ eq_refl).
Defined.

(** ** The boolean array codec: layout *)

Lemma pack_bit_any (values : list bool) (i : nat) :
  (i / 8 < length (pack values))%nat ->
  Z.testbit (nth (i / 8) (pack values) 0) (Z.of_nat (i mod 8)) = nth i values false.
Proof.
  unfold pack. rewrite length_map, length_seq. intros Hj.
  set (f := fun j : nat => bits_value (take 8 (drop (8 * j) values))).
  rewrite (nth_indep _ 0 (f 0%nat)) by (rewrite length_map, length_seq; exact Hj).
  rewrite map_nth, seq_nth by exact Hj. unfold f. cbn [Nat.add].
  rewrite bits_value_testbit.
  pose proof (Nat.mod_upper_bound i 8 ltac:(lia)) as Hm.
  pose proof (Nat.div_mod_eq i 8) as Hd.
  rewrite nth_firstn. destruct (Nat.ltb_spec (i mod 8) 8); [|lia].
  rewrite nth_skipn. f_equal. lia.
Qed.

(** X3. The layout of a boolean array below 2^31 elements: the count, then
    ceil(count / 8) bytes; element [i] is bit [i mod 8] of byte [i / 8] and
    the bits left over in the last byte are zero; [get] returns the list as
    it was, wherever the bytes lie in a view. *)
Theorem boolean_array_layout (values : list bool) (le : bool) :
  Z.of_nat (length values) < 2 ^ 31 ->
  let bytes := varint_bytes (Z.of_nat (length values)) ++ pack values in
  writes (BooleanArray.set values le) bytes /\
  reads (BooleanArray.get le) bytes values /\
  BooleanArray.getByteLength values = Finite (Z.of_nat (length bytes)) /\
  Z.of_nat (length (pack values)) = ceil_div (Z.of_nat (length values)) 8 /\
  Forall is_byte (pack values) /\
  (forall i : nat,
      (i / 8 < length (pack values))%nat ->
      Z.testbit (nth (i / 8) (pack values) 0) (Z.of_nat (i mod 8))
      = if (i <? length values)%nat then nth i values false else false).
Proof.
  intros Hlen. cbv zeta.
  split; [apply BooleanArray_set_writes|].
  split; [now apply BooleanArray_get_reads|].
  split; [now apply BooleanArray_length_below_2_31|].
  split; [rewrite pack_length; apply ceil_div_8|].
  split; [apply pack_are_bytes|].
  intros i Hi. rewrite pack_bit_any by exact Hi.
  destruct (Nat.ltb_spec i (length values)); [reflexivity|].
  now apply nth_overflow.
Qed.

Lemma boolean_array_layout_witness :
  let values := [true; false; true; true; false; false; true; false; true; true] in
  writes (BooleanArray.set values true) [10; 77; 3] /\
  reads (BooleanArray.get true) [10; 77; 3] values /\
  BooleanArray.getByteLength values = Finite 3 /\
  Z.of_nat (length (pack values)) = ceil_div 10 8 /\
  Forall is_byte (pack values) /\
  (forall i : nat,
      (i / 8 < length (pack values))%nat ->
      Z.testbit (nth (i / 8) (pack values) 0) (Z.of_nat (i mod 8))
      = if (i <? length values)%nat then nth i values false else false).
Proof.
  apply (boolean_array_layout
           [true; false; true; true; false; false; true; false; true; true] true).
  vm_compute. reflexivity.
Defined.
